(** * VexCL: device vectors over several OpenCL devices

    A shallow embedding of [vexcl/util.hpp] and [vexcl/vector.hpp]:
    the partitioning helpers, the work-group size probe, the device
    vector with its host transfers and assignments, and the per-shape
    kernel cache. *)

From Stdlib Require Import ZArith Lia List Bool String.
From stdpp Require Import base option list gmap.
From Equations Require Import Equations.

Open Scope Z_scope.

(** ** Machine integers

    [uint] is [unsigned int], 32 bits wide.  [size_t] is the same type
    in this code base: [vector::part] is a [std::vector<size_t>] that is
    initialised from the [std::vector<uint>] that the partitioning
    function returns, and [type_name<size_t>()] has to select the
    [unsigned int] specialisation for the emitted kernel to compile.
    Unsigned arithmetic wraps modulo [2^32]. *)

Definition uint_modulus : Z := 2 ^ 32.

Definition to_uint (z : Z) : Z := z mod uint_modulus.

Definition is_uint (z : Z) : Prop := 0 <= z < uint_modulus.

Lemma to_uint_range z : is_uint (to_uint z).
Proof. unfold is_uint, to_uint, uint_modulus. apply Z.mod_pos_bound. lia. Qed.

Lemma to_uint_small z : is_uint z -> to_uint z = z.
Proof. unfold is_uint, to_uint. intros H. apply Z.mod_small. exact H. Qed.

(** ** util.hpp *)

Module Util.

(** [alignup(n, m)]: [n % m ? n - n % m + m : n] on [uint].  A zero [m]
    is a division by zero in the source; it has no result here. *)
Definition alignup (n m : Z) : option Z :=
  if m =? 0 then None
  else if n mod m =? 0 then Some n
  else Some (to_uint (to_uint (n - n mod m) + m)).

(** Element assignment [v[i] = x] of a [std::vector]; an index outside
    the vector is undefined behaviour and has no result. *)
Definition vec_set {A} (v : list A) (i : nat) (x : A) : option (list A) :=
  if decide (i < length v)%nat then Some (<[i := x]> v) else None.

(** [v.back() = x]. *)
Definition vec_set_back {A} (v : list A) (x : A) : option (list A) :=
  match length v with
  | O => None
  | S k => vec_set v k x
  end.

(** The loop of [partition_equally]:
    [for (i = 0; i < m; i++) part[i+1] = std::min(n, part[i] + chunk_size)],
    with [count] the iterations that remain. *)
Fixpoint fill_parts (n chunk_size : Z) (i count : nat) (part : list Z)
  : option (list Z) :=
  match count with
  | O => Some part
  | S c =>
      pi ← part !! i;
      part' ← vec_set part (S i) (Z.min n (to_uint (pi + chunk_size)));
      fill_parts n chunk_size (S i) c part'
  end.

Section Partition.
(** Command queues are opaque handles. *)
Context {CommandQueue : Type}.

Definition partition_equally (n : Z) (queue : list CommandQueue)
  : option (list Z) :=
  let m := to_uint (Z.of_nat (length queue)) in
  let part := replicate (Z.to_nat (to_uint (m + 1))) 0 in
  part ← vec_set part 0 0;
  if 1 <? Z.of_nat (length queue) then
    chunk_size ← alignup (to_uint (n + m - 1) / m) 16;
    fill_parts n chunk_size 0 (Z.to_nat m) part
  else
    vec_set_back part n.

(** *** partitioning_scheme

    [function_type] is a [std::function]; it may be empty, and a call of
    an empty one throws.  A partitioning function that has no result
    (undefined behaviour, an exception) returns [None]. *)
Definition partition_fn : Type := Z -> list CommandQueue -> option (list Z).
Definition function_type : Type := option partition_fn.

(** The two static members, and what has been written to [std::cerr]. *)
Record partitioning_scheme := {
  is_set : bool;
  pfun : function_type;
  cerr : list string
}.

(** Static initialisation: [is_set = false], [pfun] empty. *)
Definition scheme_init : partitioning_scheme :=
  {| is_set := false; pfun := None; cerr := [] |}.

Definition set_warning : string :=
  "Warning: partitioning function is already set and will be left as is.".

(** [partitioning_scheme::set(f)]. *)
Definition set (f : function_type) (s : partitioning_scheme)
  : partitioning_scheme :=
  if negb (is_set s) then
    {| is_set := true; pfun := f; cerr := cerr s |}
  else
    {| is_set := is_set s; pfun := pfun s; cerr := cerr s ++ [set_warning] |}.

(** [partition_by_vector_perf] is declared in util.hpp and defined
    elsewhere. *)
Variable partition_by_vector_perf : partition_fn.

(** [partitioning_scheme::operator()(n, queue)]: the state after the
    call and what the call returns. *)
Definition call (n : Z) (queue : list CommandQueue) (s : partitioning_scheme)
  : partitioning_scheme * option (list Z) :=
  let s' :=
    if negb (is_set s) then
      {| is_set := true; pfun := Some partition_by_vector_perf;
         cerr := cerr s |}
    else s in
  (s', f ← pfun s'; f n queue).

(** The uses of the global [partition] object. *)
Inductive scheme_op :=
| OpSet (f : function_type)
| OpCall (n : Z) (queue : list CommandQueue).

Definition scheme_step (s : partitioning_scheme) (o : scheme_op)
  : partitioning_scheme :=
  match o with
  | OpSet f => set f s
  | OpCall n queue => fst (call n queue s)
  end.

Definition scheme_run (ops : list scheme_op) (s : partitioning_scheme)
  : partitioning_scheme :=
  fold_left scheme_step ops s.

End Partition.

(** *** kernel_workgroup_size *)

(** [while (wgsz > dev_wgsz) wgsz /= 2], where [dev_wgsz] is the
    reported size stored in a [uint]. *)
Equations? shrink (wgsz reported : Z) : Z by wf (Z.to_nat wgsz) lt :=
shrink wgsz reported with Z_lt_dec (to_uint reported) wgsz := {
  | left _ => shrink (wgsz / 2) reported
  | right _ => wgsz }.
Proof.
  pose proof (to_uint_range reported) as [H0 _].
  assert (wgsz / 2 < wgsz) by (apply Z.div_lt; lia).
  assert (0 <= wgsz / 2) by (apply Z.div_pos; lia).
  lia.
Qed.

Section Workgroup.
Context {Kernel Device : Type}.

(** [kernel.getWorkGroupInfo<CL_KERNEL_WORK_GROUP_SIZE>(d)], a query of
    the OpenCL runtime. *)
Variable work_group_info : Kernel -> Device -> Z.

Definition kernel_workgroup_size (kernel : Kernel) (device : list Device) : Z :=
  fold_left (fun wgsz d => shrink wgsz (work_group_info kernel d)) device 1024.

End Workgroup.

End Util.

(** *** nextpow2

    [nextpow2<uint>]: the decrement, the five or-shifts and the
    increment, each on a 32-bit unsigned value. *)
Module Bits.

Definition smear (x s : Z) : Z := Z.lor x (Z.shiftr x s).

Definition nextpow2 (x : Z) : Z :=
  let x := to_uint (x - 1) in
  let x := smear x 1 in
  let x := smear x 2 in
  let x := smear x 4 in
  let x := smear x 8 in
  let x := smear x 16 in
  to_uint (x + 1).

End Bits.

(** *** operator<<(std::ostream&, const cl::Error&)

    The text appended to the stream: [e.what()], an opening bracket, the
    description selected by the [switch] on [e.err()], a closing
    bracket. *)
Module ErrorText.

Record Error := { what : string; err : Z }.

Definition description (code : Z) : string :=
  match code with
  | 0 => "Success"
  | (-1) => "Device not found"
  | (-2) => "Device not available"
  | (-3) => "Compiler not available"
  | (-4) => "Mem object allocation failure"
  | (-5) => "Out of resources"
  | (-6) => "Out of host memory"
  | (-7) => "Profiling info not available"
  | (-8) => "Mem copy overlap"
  | (-9) => "Image format mismatch"
  | (-10) => "Image format not supported"
  | (-11) => "Build program failure"
  | (-12) => "Map failure"
  | (-13) => "Misaligned sub buffer offset"
  | (-14) => "Exec status error for events in wait list"
  | (-30) => "Invalid value"
  | (-31) => "Invalid device type"
  | (-32) => "Invalid platform"
  | (-33) => "Invalid device"
  | (-34) => "Invalid context"
  | (-35) => "Invalid queue properties"
  | (-36) => "Invalid command queue"
  | (-37) => "Invalid host ptr"
  | (-38) => "Invalid mem object"
  | (-39) => "Invalid image format descriptor"
  | (-40) => "Invalid image size"
  | (-41) => "Invalid sampler"
  | (-42) => "Invalid binary"
  | (-43) => "Invalid build options"
  | (-44) => "Invalid program"
  | (-45) => "Invalid program executable"
  | (-46) => "Invalid kernel name"
  | (-47) => "Invalid kernel definition"
  | (-48) => "Invalid kernel"
  | (-49) => "Invalid arg index"
  | (-50) => "Invalid arg value"
  | (-51) => "Invalid arg size"
  | (-52) => "Invalid kernel args"
  | (-53) => "Invalid work dimension"
  | (-54) => "Invalid work group size"
  | (-55) => "Invalid work item size"
  | (-56) => "Invalid global offset"
  | (-57) => "Invalid event wait list"
  | (-58) => "Invalid event"
  | (-59) => "Invalid operation"
  | (-60) => "Invalid gl object"
  | (-61) => "Invalid buffer size"
  | (-62) => "Invalid mip level"
  | (-63) => "Invalid global work size"
  | (-64) => "Invalid property"
  | _ => "Unknown error"
  end.

Definition print (os : string) (e : Error) : string :=
  ((os ++ what e ++ "(") ++ description (err e)) ++ ")".

(** The codes that have a [case] of their own. *)
Definition known_codes : list Z :=
  map (fun k => - Z.of_nat k) (seq 0 15 ++ seq 30 35).

End ErrorText.

(** ** vector.hpp *)

Module Vector.

(** *** OpenCL objects

    Handles of the OpenCL runtime.  A queue knows the context and the
    device it was created for ([qctx] and [qdev] in the source).  A
    default-constructed [cl::Buffer] or [cl::Event] is the null handle
    [None]; the handle of an object made by an API call is the position
    of that call in the trace of calls. *)

Abbreviation cl_context := nat.

Inductive cl_device_type :=
| CL_DEVICE_TYPE_CPU
| CL_DEVICE_TYPE_GPU
| CL_DEVICE_TYPE_ACCELERATOR.

Record Device := {
  device_id : nat;
  device_type : cl_device_type;
  max_compute_units : Z
}.

Record CommandQueue := {
  queue_id : nat;
  qctx : cl_context;
  qdev : Device
}.

Abbreviation Buffer := (option nat).
Abbreviation Event := (option nat).

(** A pointer into a host array: the array and an element index. *)
Record host_ptr := {
  block : nat;
  index : Z
}.

Record Kernel := {
  kernel_program : option nat;
  kernel_name : string
}.

(** *** The device vector *)

Record vector := {
  queue : list CommandQueue;
  part : list Z;
  buf : list Buffer;
  event : list Event
}.

(** [vector()]: every member is an empty [std::vector]. *)
Definition empty_vector : vector :=
  {| queue := []; part := []; buf := []; event := [] |}.

(** [size()]: [part.empty() ? 0 : part.back()]. *)
Definition size (v : vector) : Z :=
  match last (part v) with
  | Some n => n
  | None => 0
  end.

(** [nparts()]. *)
Definition nparts (v : vector) : Z := to_uint (Z.of_nat (length (queue v))).

(** *** Expressions *)

Abbreviation addr := nat.

(** The operator tags of the ten binary operators that have a compound
    assignment. *)
Inductive binop :=
| plus | minus | multiplies | divides | modulus
| bitwise_and | bitwise_or | bitwise_xor | shift_left | shift_right.

(** Modelled from the spec: the expression templates of
    [vexcl/operations.hpp], which is not among the source files.  An
    expression is a terminal (a vector, held by reference, or a scalar
    constant) or an operator or function tag with its children. *)
Inductive expr :=
| Vec (x : addr)
| Scalar (ty : string) (value : Z)
| Binary (op : binop) (l r : expr)
| Function (name : string) (arg : expr).

(** Modelled from the spec: the shape of an expression is its structure
    without the identities and values of the operands; it stands for the
    static type [Expr] of the source, which selects the instance of
    [exdata<Expr>]. *)
Inductive shape :=
| ShVec
| ShScalar (ty : string)
| ShBinary (op : binop) (l r : shape)
| ShFunction (name : string) (arg : shape).

Fixpoint shape_of (e : expr) : shape :=
  match e with
  | Vec _ => ShVec
  | Scalar ty _ => ShScalar ty
  | Binary op l r => ShBinary op (shape_of l) (shape_of r)
  | Function name arg => ShFunction name (shape_of arg)
  end.

#[export] Instance binop_eq_dec : EqDecision binop.
Proof. solve_decision. Defined.

#[export] Instance shape_eq_dec : EqDecision shape.
Proof. solve_decision. Defined.

(** *** The runtime state *)

Inductive kernel_arg :=
| ArgSize (n : Z)
| ArgBuffer (b : Buffer)
| ArgScalar (ty : string) (value : Z).

(** The calls into the OpenCL runtime.  Offsets and sizes of transfers
    are in bytes, as the source passes them. *)
Inductive cl_call :=
| BuildProgram (context : cl_context) (source : string)
| EnqueueWriteBuffer (q : CommandQueue) (b : Buffer) (blocking : bool)
    (offset bytes : Z) (ptr : host_ptr)
| EnqueueReadBuffer (q : CommandQueue) (b : Buffer) (blocking : bool)
    (offset bytes : Z) (ptr : host_ptr)
| EnqueueCopyBuffer (q : CommandQueue) (src dst : Buffer)
    (src_offset dst_offset bytes : Z)
| EnqueueNDRangeKernel (q : CommandQueue) (k : Kernel)
    (args : list kernel_arg) (global_size local_size : Z)
| EventWait (e : nat).

(** The three static maps of [vector::exdata<Expr>]. *)
Record exdata := {
  compiled : gmap cl_context bool;
  kernel : gmap cl_context Kernel;
  wgsize : gmap cl_context Z
}.

Definition exdata_init : exdata :=
  {| compiled := ∅; kernel := ∅; wgsize := ∅ |}.

(** The vector objects by address, the trace of OpenCL calls, the
    [exdata<Expr>] statics (one triple of maps per expression type), and
    the two output streams. *)
Record runtime := {
  objs : gmap addr vector;
  calls : list cl_call;
  cache : shape -> exdata;
  cout : list string;
  cerr : list string
}.

(** [cl::Error] with its error code. *)
Inductive exn :=
| cl_Error (code : Z).

Definition CL_BUILD_PROGRAM_FAILURE : Z := -11.
Definition CL_INVALID_EVENT : Z := -58.

(** How a call ends: it returns, it throws, or its behaviour is
    undefined (an index outside a [std::vector], a division by zero). *)
Inductive result (A : Type) :=
| Ok (a : A) (r : runtime)
| Throw (e : exn) (r : runtime)
| Undefined.
Arguments Ok {A} a r.
Arguments Throw {A} e r.
Arguments Undefined {A}.

Definition M (A : Type) : Type := runtime -> result A.

#[export] Instance M_ret : MRet M := fun A a r => Ok a r.

#[export] Instance M_bind : MBind M := fun A B f m r =>
  match m r with
  | Ok a r' => f a r'
  | Throw e r' => Throw e r'
  | Undefined => Undefined
  end.

Definition undefined {A} : M A := fun _ => Undefined.

Definition throw {A} (e : exn) : M A := fun r => Throw e r.

(** [v[i]] on a [std::vector]. *)
Definition at_ {A} (v : list A) (i : nat) : M A :=
  match v !! i with
  | Some x => mret x
  | None => undefined
  end.

Definition load (a : addr) : M vector := fun r =>
  match objs r !! a with
  | Some v => Ok v r
  | None => Undefined
  end.

Definition store (a : addr) (v : vector) : M unit := fun r =>
  Ok tt {| objs := <[a := v]> (objs r); calls := calls r; cache := cache r;
           cout := cout r; cerr := cerr r |}.

(** A call into the runtime; the result is the handle of what the call
    makes (the event of an enqueued command, the built program). *)
Definition emit (c : cl_call) : M nat := fun r =>
  Ok (length (calls r))
     {| objs := objs r; calls := calls r ++ [c]; cache := cache r;
        cout := cout r; cerr := cerr r |}.

Definition print_cout (s : string) : M unit := fun r =>
  Ok tt {| objs := objs r; calls := calls r; cache := cache r;
           cout := cout r ++ [s]; cerr := cerr r |}.

Definition print_cerr (s : string) : M unit := fun r =>
  Ok tt {| objs := objs r; calls := calls r; cache := cache r;
           cout := cout r; cerr := cerr r ++ [s] |}.

(** [ev[d] = e] on the event list of the vector at [this]. *)
Definition set_event (this : addr) (d : nat) (e : Event) : M unit :=
  v ← load this;
  match Util.vec_set (event v) d e with
  | Some ev => store this {| queue := queue v; part := part v; buf := buf v;
                             event := ev |}
  | None => undefined
  end.

(** [e.wait()]. *)
Definition wait (e : Event) : M unit :=
  match e with
  | Some i => _ ← emit (EventWait i); mret tt
  | None => throw (cl_Error CL_INVALID_EVENT)
  end.

(** *** Moves and swap *)

(** [swap(v)]: [std::swap] of each of the four members. *)
Definition swap (this v : addr) : M unit :=
  a ← load this;
  b ← load v;
  _ ← store this {| queue := queue b; part := part b; buf := buf b;
                    event := event b |};
  store v {| queue := queue a; part := part a; buf := buf a;
             event := event a |}.

(** [vector(vector &&v)]: the members of the new object at [this] are
    default-constructed, then swapped with those of [v]. *)
Definition move_construct (this v : addr) : M unit :=
  _ ← store this empty_vector;
  swap this v.

(** [operator=(vector &&v)]. *)
Definition move_assign (this v : addr) : M unit :=
  swap this v.

Section Methods.

(** [sizeof(T)] for the element type of the vector. *)
Variable sizeof_T : Z.

(** *** Copy assignment *)

(** The loop of [operator=(const vector &x)] over the devices [ds]. *)
Fixpoint copy_parts (v x : vector) (ds : list nat) : M unit :=
  match ds with
  | [] => mret tt
  | d :: ds =>
      pd1 ← at_ (part v) (S d);
      pd ← at_ (part v) d;
      let psize := to_uint (pd1 - pd) in
      _ ← (if psize =? 0 then mret tt
           else
             q ← at_ (queue v) d;
             src ← at_ (buf x) d;
             dst ← at_ (buf v) d;
             _ ← emit (EnqueueCopyBuffer q src dst 0 0 (to_uint (psize * sizeof_T)));
             mret tt);
      copy_parts v x ds
  end.

(** [operator=(const vector &x)], with the addresses of the two
    objects. *)
Definition copy_assign (this x : addr) : M unit :=
  if decide (x ≠ this) then
    v ← load this;
    vx ← load x;
    copy_parts v vx (seq 0 (length (queue v)))
  else mret tt.

(** *** Host transfers *)

Inductive direction := HostToDevice | DeviceToHost.

Definition enqueue_transfer (dir : direction) (q : CommandQueue) (b : Buffer)
  (blocking : bool) (offset bytes : Z) (ptr : host_ptr) : cl_call :=
  match dir with
  | HostToDevice => EnqueueWriteBuffer q b blocking offset bytes ptr
  | DeviceToHost => EnqueueReadBuffer q b blocking offset bytes ptr
  end.

(** The first loop of [write_data] and of [read_data], which differ in
    the call they enqueue only: one non-blocking transfer for each device
    whose part meets the range. *)
Fixpoint transfer_parts (dir : direction) (this : addr) (v : vector)
  (offset size : Z) (hostptr : host_ptr) (ds : list nat) : M unit :=
  match ds with
  | [] => mret tt
  | d :: ds =>
      pd ← at_ (part v) d;
      pd1 ← at_ (part v) (S d);
      let start := Z.max offset pd in
      let stop := Z.min (to_uint (offset + size)) pd1 in
      _ ← (if stop <=? start then mret tt
           else
             q ← at_ (queue v) d;
             b ← at_ (buf v) d;
             e ← emit (enqueue_transfer dir q b false
                         (to_uint (sizeof_T * to_uint (start - pd)))
                         (to_uint (sizeof_T * to_uint (stop - start)))
                         {| block := block hostptr;
                            index := index hostptr + start - offset |});
             set_event this d (Some e));
      transfer_parts dir this v offset size hostptr ds
  end.

(** The second loop: wait for the events of the devices whose part
    meets the range. *)
Fixpoint wait_parts (this : addr) (v : vector) (offset size : Z)
  (ds : list nat) : M unit :=
  match ds with
  | [] => mret tt
  | d :: ds =>
      pd ← at_ (part v) d;
      pd1 ← at_ (part v) (S d);
      let start := Z.max offset pd in
      let stop := Z.min (to_uint (offset + size)) pd1 in
      _ ← (if start <? stop then
             w ← load this;
             e ← at_ (event w) d;
             wait e
           else mret tt);
      wait_parts this v offset size ds
  end.

(** The common body of [write_data] and [read_data], for the default
    [uevent = 0], where the events are those of the vector itself. *)
Definition transfer_data (dir : direction) (this : addr) (offset size : Z)
  (hostptr : host_ptr) (blocking : bool) : M unit :=
  if size =? 0 then mret tt
  else
    v ← load this;
    _ ← transfer_parts dir this v offset size hostptr (seq 0 (length (queue v)));
    if blocking then wait_parts this v offset size (seq 0 (length (queue v)))
    else mret tt.

Definition write_data := transfer_data HostToDevice.
Definition read_data := transfer_data DeviceToHost.

(** [copy(dv, hv, blocking)] and [copy(hv, dv, blocking)]; [hv] is the
    host array that [hv.data()] points to. *)
Definition copy_to_host (dv : addr) (hv : nat) (blocking : bool) : M unit :=
  v ← load dv;
  read_data dv 0 (size v) {| block := hv; index := 0 |} blocking.

Definition copy_to_device (hv : nat) (dv : addr) (blocking : bool) : M unit :=
  v ← load dv;
  write_data dv 0 (size v) {| block := hv; index := 0 |} blocking.

End Methods.

(** *** Expression assignment and the kernel cache *)

Section Assignment.

(** What vector.hpp uses without defining it: the kernel name
    and the pieces of kernel text that the proto contexts of
    operations.hpp emit for an expression, the header constant, the name
    of the element type, and, from the OpenCL runtime, whether a source
    text builds in a context, its build log, and the work-group size
    query. *)
Variable kernel_name_of : expr -> string.
Variable user_functions_of : expr -> string.
Variable parameters_of : expr -> string.
Variable body_of : expr -> string.
Variable standard_kernel_header : string.
Variable type_name_T : string.
Variable builds : cl_context -> string -> bool.
Variable build_log : cl_context -> string -> string.
Variable work_group_info : Kernel -> Device -> Z.

Definition nl : string := String (Ascii.ascii_of_nat 10) EmptyString.
Definition tab : string := String (Ascii.ascii_of_nat 9) EmptyString.

(** The text that [operator=(const Expr&)] streams into [kernel];
    [type_name<size_t>()] is the [unsigned int] specialisation. *)
Definition kernel_source (e : expr) : string :=
  (standard_kernel_header ++ user_functions_of e
   ++ "kernel void " ++ kernel_name_of e
   ++ "(" ++ nl ++ tab ++ "unsigned int" ++ " n," ++ nl ++ tab ++ "global "
   ++ type_name_T ++ " *res"
   ++ parameters_of e
   ++ nl ++ ")" ++ nl ++ "{" ++ nl ++ tab
   ++ "for(size_t idx = get_global_id(0); idx < n; idx += get_global_size(0)) {"
   ++ nl ++ tab ++ tab ++ "res[idx] = "
   ++ body_of e
   ++ ";" ++ nl ++ tab ++ "}" ++ nl ++ "}" ++ nl)%string.

(** [build_sources(context, source)] of util.hpp: on a build error the
    log goes to [std::cerr] and the error is thrown again. *)
Definition build_sources (context : cl_context) (source : string) : M nat :=
  program ← emit (BuildProgram context source);
  if builds context source then mret program
  else
    _ ← print_cerr (build_log context source);
    throw (cl_Error CL_BUILD_PROGRAM_FAILURE).

Definition with_cache (r : runtime) (s : shape) (x : exdata) : runtime :=
  {| objs := objs r; calls := calls r;
     cache := fun s' => if decide (s' = s) then x else cache r s';
     cout := cout r; cerr := cerr r |}.

(** [exdata<Expr>::compiled[context]] as an rvalue: [operator[]] of
    [std::map] inserts a value-initialised element for a key that is not
    there. *)
Definition index_compiled (s : shape) (context : cl_context) : M bool := fun r =>
  match compiled (cache r s) !! context with
  | Some b => Ok b r
  | None =>
      Ok false (with_cache r s
                  {| compiled := <[context := false]> (compiled (cache r s));
                     kernel := kernel (cache r s);
                     wgsize := wgsize (cache r s) |})
  end.

(** A default-constructed [cl::Kernel]. *)
Definition null_kernel : Kernel :=
  {| kernel_program := None; kernel_name := EmptyString |}.

Definition index_kernel (s : shape) (context : cl_context) : M Kernel := fun r =>
  match kernel (cache r s) !! context with
  | Some k => Ok k r
  | None =>
      Ok null_kernel
         (with_cache r s
            {| compiled := compiled (cache r s);
               kernel := <[context := null_kernel]> (kernel (cache r s));
               wgsize := wgsize (cache r s) |})
  end.

Definition index_wgsize (s : shape) (context : cl_context) : M Z := fun r =>
  match wgsize (cache r s) !! context with
  | Some w => Ok w r
  | None =>
      Ok 0 (with_cache r s
              {| compiled := compiled (cache r s);
                 kernel := kernel (cache r s);
                 wgsize := <[context := 0]> (wgsize (cache r s)) |})
  end.

(** The three assignments [exdata<Expr>::...[context] = x]. *)
Definition set_kernel (s : shape) (context : cl_context) (k : Kernel) : M unit :=
  fun r =>
    Ok tt (with_cache r s
             {| compiled := compiled (cache r s);
                kernel := <[context := k]> (kernel (cache r s));
                wgsize := wgsize (cache r s) |}).

Definition set_compiled (s : shape) (context : cl_context) (b : bool) : M unit :=
  fun r =>
    Ok tt (with_cache r s
             {| compiled := <[context := b]> (compiled (cache r s));
                kernel := kernel (cache r s);
                wgsize := wgsize (cache r s) |}).

Definition set_wgsize (s : shape) (context : cl_context) (w : Z) : M unit :=
  fun r =>
    Ok tt (with_cache r s
             {| compiled := compiled (cache r s);
                kernel := kernel (cache r s);
                wgsize := <[context := w]> (wgsize (cache r s)) |}).

(** The body of the first loop of [operator=(const Expr&)], for one
    queue: compile unless [compiled[context]] is set.  The source hands
    the one device of the queue to [kernel_workgroup_size]. *)
Definition compile_for (e : expr) (q : CommandQueue) : M unit :=
  let context := qctx q in
  let device := qdev q in
  c ← index_compiled (shape_of e) context;
  if negb c then
    program ← build_sources context (kernel_source e);
    _ ← set_kernel (shape_of e) context
          {| kernel_program := Some program; kernel_name := kernel_name_of e |};
    _ ← set_compiled (shape_of e) context true;
    k ← index_kernel (shape_of e) context;
    set_wgsize (shape_of e) context
      (Util.kernel_workgroup_size work_group_info k [device])
  else mret tt.

Fixpoint compile_all (e : expr) (qs : list CommandQueue) : M unit :=
  match qs with
  | [] => mret tt
  | q :: qs => _ ← compile_for e q; compile_all e qs
  end.

(** Modelled from the spec: [extract_terminals] with
    [set_expression_argument(kernel, d, pos)] of operations.hpp binds one
    kernel argument for each terminal, in the order of the traversal: the
    buffer of a vector on device [d], the value of a scalar. *)
Fixpoint terminal_args (e : expr) (d : nat) : M (list kernel_arg) :=
  match e with
  | Vec x => vx ← load x; b ← at_ (buf vx) d; mret [ArgBuffer b]
  | Scalar ty value => mret [ArgScalar ty value]
  | Binary _ l r =>
      al ← terminal_args l d;
      ar ← terminal_args r d;
      mret (al ++ ar)
  | Function _ arg => terminal_args arg d
  end.

Definition CL_INVALID_KERNEL : Z := -48.

(** The body of the second loop, for device [d]. *)
Definition launch_for (v : vector) (e : expr) (d : nat) : M unit :=
  pd1 ← at_ (part v) (S d);
  pd ← at_ (part v) d;
  let psize := to_uint (pd1 - pd) in
  if psize =? 0 then mret tt
  else
    q ← at_ (queue v) d;
    let context := qctx q in
    let device := qdev q in
    g_size ← match device_type device with
             | CL_DEVICE_TYPE_CPU =>
                 w ← index_wgsize (shape_of e) context;
                 match Util.alignup psize w with
                 | Some g => mret g
                 | None => undefined
                 end
             | _ =>
                 w ← index_wgsize (shape_of e) context;
                 mret (to_uint (to_uint (max_compute_units device * w) * 4))
             end;
    b ← at_ (buf v) d;
    args ← terminal_args e d;
    k ← index_kernel (shape_of e) context;
    w ← index_wgsize (shape_of e) context;
    match kernel_program k with
    | Some _ =>
        _ ← emit (EnqueueNDRangeKernel q k (ArgSize psize :: ArgBuffer b :: args)
                    g_size w);
        mret tt
    | None => throw (cl_Error CL_INVALID_KERNEL)
    end.

Fixpoint launch_all (v : vector) (e : expr) (ds : list nat) : M unit :=
  match ds with
  | [] => mret tt
  | d :: ds => _ ← launch_for v e d; launch_all v e ds
  end.

(** [operator=(const Expr &expr)]. *)
Definition assign (this : addr) (e : expr) : M unit :=
  v ← load this;
  _ ← compile_all e (queue v);
  launch_all v e (seq 0 (length (queue v))).

(** The ten expansions of [COMPOUND_ASSIGNMENT(cop, op)]:
    [return *this = *this op expr]. *)
Definition operator_plus_assign (this : addr) (e : expr) : M unit :=
  assign this (Binary plus (Vec this) e).
Definition operator_minus_assign (this : addr) (e : expr) : M unit :=
  assign this (Binary minus (Vec this) e).
Definition operator_multiplies_assign (this : addr) (e : expr) : M unit :=
  assign this (Binary multiplies (Vec this) e).
Definition operator_divides_assign (this : addr) (e : expr) : M unit :=
  assign this (Binary divides (Vec this) e).
Definition operator_modulus_assign (this : addr) (e : expr) : M unit :=
  assign this (Binary modulus (Vec this) e).
Definition operator_bitwise_and_assign (this : addr) (e : expr) : M unit :=
  assign this (Binary bitwise_and (Vec this) e).
Definition operator_bitwise_or_assign (this : addr) (e : expr) : M unit :=
  assign this (Binary bitwise_or (Vec this) e).
Definition operator_bitwise_xor_assign (this : addr) (e : expr) : M unit :=
  assign this (Binary bitwise_xor (Vec this) e).
Definition operator_shift_left_assign (this : addr) (e : expr) : M unit :=
  assign this (Binary shift_left (Vec this) e).
Definition operator_shift_right_assign (this : addr) (e : expr) : M unit :=
  assign this (Binary shift_right (Vec this) e).

(** The member function that the source declares for each compound
    operator. *)
Inductive compound_token :=
| token_plus_assign | token_minus_assign | token_multiplies_assign
| token_divides_assign | token_modulus_assign | token_and_assign
| token_or_assign | token_xor_assign | token_shift_left_assign
| token_shift_right_assign.

Definition compound_assignment (cop : compound_token) : addr -> expr -> M unit :=
  match cop with
  | token_plus_assign => operator_plus_assign
  | token_minus_assign => operator_minus_assign
  | token_multiplies_assign => operator_multiplies_assign
  | token_divides_assign => operator_divides_assign
  | token_modulus_assign => operator_modulus_assign
  | token_and_assign => operator_bitwise_and_assign
  | token_or_assign => operator_bitwise_or_assign
  | token_xor_assign => operator_bitwise_xor_assign
  | token_shift_left_assign => operator_shift_left_assign
  | token_shift_right_assign => operator_shift_right_assign
  end.

(** *** Assignment of a sparse matrix-vector product *)

(** Modelled from the spec: the sparse matrix, which is declared in a
    file that is not among the source files, with its compressed rows
    (row offsets, column indices, values). *)
Record SpMat := {
  row : list Z;
  col : list Z;
  val : list Z
}.

(** Modelled from the spec: [spmv_expression], declared elsewhere.  A
    top-level expression is the product [A * x] (a proto terminal) or a
    sum whose right operand is such a product.  The left operand of the
    sum is a vector, which [ctx.v = left] assigns by
    [operator=(const vector&)], or an expression, which it assigns by
    [operator=(const Expr&)]. *)
Inductive spmv_left :=
| LeftVector (y : addr)
| LeftExpr (e : expr).

Inductive spmv_expression :=
| Spmv (A : SpMat) (x : addr)
| SpmvPlus (lhs : spmv_left) (A : SpMat) (x : addr).

(** [sizeof(T)], what [sizeof(term)] and [boost::proto::display_expr]
    print, and the member [mul] of the product, which is defined with
    the matrix. *)
Variable sizeof_T : Z.
Variable sizeof_term : spmv_expression -> string.
Variable display_left : spmv_left -> string.
Variable display_product : SpMat -> addr -> string.
Variable mul : SpMat -> addr -> addr -> M unit.

(** [assign_spmv_context::eval], the case of [tag::plus] and the case of
    [tag::terminal]; in the latter the call [spmv.mul(ctx.v)] is
    commented out in the source. *)
Definition assign_spmv_eval (this : addr) (term : spmv_expression) : M unit :=
  match term with
  | SpmvPlus lhs A x =>
      _ ← print_cout ("left: " ++ sizeof_term term ++ " ");
      _ ← print_cout (display_left lhs);
      _ ← print_cout ("right: " ++ sizeof_term term ++ " ");
      _ ← print_cout (display_product A x);
      _ ← match lhs with
          | LeftVector y => copy_assign sizeof_T this y
          | LeftExpr e => assign this e
          end;
      mul A x this
  | Spmv A x =>
      _ ← print_cout ("spmv: " ++ sizeof_term term ++ " ");
      print_cout (display_product A x)
  end.

(** [operator=(const spmv_expression<Expr> &expr)]. *)
Definition assign_spmv (this : addr) (term : spmv_expression) : M unit :=
  assign_spmv_eval this term.

End Assignment.

End Vector.

(** ** vector.hpp: element access and iterators *)

Module Access.
Import Vector.

(** [std::upper_bound(first, last, x) - first] on a sorted range, as the
    algorithm is specified: the position of the first element that is
    greater than [x], the length of the range when there is none. *)
Fixpoint upper_bound (l : list Z) (x : Z) : nat :=
  match l with
  | [] => O
  | y :: l => if x <? y then O else S (upper_bound l x)
  end.

(** The proxy class [element]: the queue and the buffer of one device
    and an index into that buffer. *)
Record element := {
  el_queue : CommandQueue;
  el_buf : Buffer;
  el_index : Z
}.

(** [operator[](index)]:
    [d = upper_bound(part.begin(), part.end(), index) - part.begin() - 1]
    as a [uint], then [element(queue[d], buf[d], index - part[d])].  An
    index [d] outside one of the three [std::vector]s is undefined
    behaviour and has no result. *)
Definition operator_index (v : vector) (index : Z) : option element :=
  let d := Z.to_nat (to_uint (Z.of_nat (upper_bound (part v) index) - 1)) in
  q ← queue v !! d;
  b ← buf v !! d;
  pd ← part v !! d;
  Some {| el_queue := q; el_buf := b; el_index := to_uint (index - pd) |}.

(** [iterator_type]; the reference [vec] is passed along with the
    iterator.  [it_part] is the member [part]. *)
Record iterator_type := {
  pos : Z;
  it_part : Z
}.

(** The private constructor [iterator_type(vec, pos)]. *)
Definition iterator (v : vector) (pos : Z) : iterator_type :=
  {| pos := pos;
     it_part := match part v with
                | [] => 0
                | _ => to_uint (Z.of_nat (upper_bound (part v) pos) - 1)
                end |}.

(** [begin()] and [end()]. *)
Definition begin_ (v : vector) : iterator_type := iterator v 0.
Definition end_ (v : vector) : iterator_type := iterator v (size v).

(** [operator*()]. *)
Definition dereference (v : vector) (it : iterator_type) : option element :=
  let p := Z.to_nat (it_part it) in
  q ← queue v !! p;
  b ← buf v !! p;
  pd ← part v !! p;
  Some {| el_queue := q; el_buf := b; el_index := to_uint (pos it - pd) |}.

(** The loop of [operator++()]:
    [while (part < vec.nparts() && pos >= vec.part[part + 1]) part++].
    Each turn moves [part] up by one, so it makes at most
    [nparts() - part] turns, which is what [turns] starts from. *)
Fixpoint skip_parts (v : vector) (pos p : Z) (turns : nat) : option Z :=
  if negb (p <? nparts v) then Some p
  else
    p1 ← part v !! Z.to_nat (to_uint (p + 1));
    if negb (p1 <=? pos) then Some p
    else
      match turns with
      | O => None
      | S turns => skip_parts v pos (to_uint (p + 1)) turns
      end.

(** [operator++()]. *)
Definition increment (v : vector) (it : iterator_type) : option iterator_type :=
  let pos' := to_uint (pos it + 1) in
  p ← skip_parts v pos' (it_part it) (Z.to_nat (nparts v - it_part it));
  Some {| pos := pos'; it_part := p |}.

(** [ptrdiff_t]: the signed reading of a 32-bit value. *)
Definition to_ptrdiff (z : Z) : Z :=
  let u := to_uint z in
  if u <? 2 ^ 31 then u else u - uint_modulus.

(** [operator+(d)], [operator-(it)] and [operator==]. *)
Definition plus (v : vector) (it : iterator_type) (d : Z) : iterator_type :=
  iterator v (to_uint (pos it + d)).

Definition minus (it1 it2 : iterator_type) : Z :=
  to_ptrdiff (pos it1 - pos it2).

Definition equal (it1 it2 : iterator_type) : bool := pos it1 =? pos it2.

Section Elements.

(** [sizeof(T)]. *)
Variable sizeof_T : Z.

(** [operator T()] of [element]: a blocking read of [sizeof(T)] bytes
    at byte [index * sizeof(T)] into the local [val], the host array
    [val] here; what the call returns is the content of that array
    afterwards. *)
Definition element_read (e : element) (val : nat) : M unit :=
  _ ← emit (EnqueueReadBuffer (el_queue e) (el_buf e) true
              (to_uint (el_index e * sizeof_T)) sizeof_T
              {| block := val; index := 0 |});
  mret tt.

(** [operator=(T val)] of [element]: a blocking write of the parameter
    [val], the host array [val] here. *)
Definition element_write (e : element) (val : nat) : M unit :=
  _ ← emit (EnqueueWriteBuffer (el_queue e) (el_buf e) true
              (to_uint (el_index e * sizeof_T)) sizeof_T
              {| block := val; index := 0 |});
  mret tt.


(** [copy(first, last, result, blocking)] from the host to a device
    range: [result.vec.write_data(result.pos, last - first, &first[0],
    blocking)], returning [result + (last - first)].  [first] and [last]
    point into one host array and [this] is the address of
    [result.vec]. *)
Definition copy_range_to_device (this : addr) (first last : host_ptr)
  (result : iterator_type) (blocking : bool) : M iterator_type :=
  let count := index last - index first in
  v ← load this;
  _ ← write_data sizeof_T this (pos result) (to_uint count) first blocking;
  mret (plus v result count).

End Elements.

(** The free function [swap(x, y)]: [x.swap(y)]. *)
Definition swap_vectors (x y : addr) : M unit := swap x y.

End Access.

(** ** The OpenCL runtime

    What the enqueued transfers do to memory.  This is not code of the
    library: it is the behaviour of in-order command queues that
    vector.hpp relies on.  A command that was enqueued without blocking
    is pending; it has run, after the commands enqueued before it on the
    same queue, by the time a wait for its event returns.  Buffers hold
    elements of type [T]; the byte offsets and sizes of the calls are
    divided by [sizeof(T)]. *)

Module Runtime.
Import Vector.

#[export] Instance cl_device_type_eq_dec : EqDecision cl_device_type.
Proof. solve_decision. Defined.

#[export] Instance Device_eq_dec : EqDecision Device.
Proof. solve_decision. Defined.

#[export] Instance CommandQueue_eq_dec : EqDecision CommandQueue.
Proof. solve_decision. Defined.

Section Memory.
Variable T : Type.
Variable sizeof_T : Z.

(** The contents of the device buffers and of the host arrays. *)
Record memory := {
  device : gmap nat (list T);
  host : gmap nat (list T)
}.

(** [n] elements of [l] from index [i] on, and [l] with the elements
    from index [i] on replaced by [data]. *)
Definition slice (l : list T) (i n : nat) : list T := take n (drop i l).

Definition splice (l : list T) (i : nat) (data : list T) : list T :=
  take i l ++ data ++ drop (i + length data) l.

(** The effect of one command; [None] for a command that is not a
    transfer or that reaches outside a buffer or a host array. *)
Definition exec_transfer (c : cl_call) (m : memory) : option memory :=
  match c with
  | EnqueueWriteBuffer _ (Some b) _ offset bytes ptr =>
      dst ← device m !! b;
      src ← host m !! block ptr;
      let off := Z.to_nat (offset / sizeof_T) in
      let n := Z.to_nat (bytes / sizeof_T) in
      let i := Z.to_nat (index ptr) in
      if decide (0 <= index ptr /\ (i + n <= length src)%nat /\
                 (off + n <= length dst)%nat)
      then Some {| device := <[b := splice dst off (slice src i n)]> (device m);
                   host := host m |}
      else None
  | EnqueueReadBuffer _ (Some b) _ offset bytes ptr =>
      src ← device m !! b;
      dst ← host m !! block ptr;
      let off := Z.to_nat (offset / sizeof_T) in
      let n := Z.to_nat (bytes / sizeof_T) in
      let i := Z.to_nat (index ptr) in
      if decide (0 <= index ptr /\ (i + n <= length dst)%nat /\
                 (off + n <= length src)%nat)
      then Some {| device := device m;
                   host := <[block ptr := splice dst i (slice src off n)]> (host m) |}
      else None
  | EnqueueCopyBuffer _ (Some s) (Some d) src_offset dst_offset bytes =>
      src ← device m !! s;
      dst ← device m !! d;
      let so := Z.to_nat (src_offset / sizeof_T) in
      let do := Z.to_nat (dst_offset / sizeof_T) in
      let n := Z.to_nat (bytes / sizeof_T) in
      if decide ((so + n <= length src)%nat /\ (do + n <= length dst)%nat)
      then Some {| device := <[d := splice dst do (slice src so n)]> (device m);
                   host := host m |}
      else None
  | _ => None
  end.

(** The commands of a list, one after the other. *)
Fixpoint exec_all (cs : list cl_call) (m : memory) : option memory :=
  match cs with
  | [] => Some m
  | c :: cs => m' ← exec_transfer c m; exec_all cs m'
  end.

Definition call_queue (c : cl_call) : option CommandQueue :=
  match c with
  | EnqueueWriteBuffer q _ _ _ _ _ => Some q
  | EnqueueReadBuffer q _ _ _ _ _ => Some q
  | EnqueueCopyBuffer q _ _ _ _ _ => Some q
  | EnqueueNDRangeKernel q _ _ _ _ => Some q
  | _ => None
  end.

Definition call_blocking (c : cl_call) : bool :=
  match c with
  | EnqueueWriteBuffer _ _ blocking _ _ _ => blocking
  | EnqueueReadBuffer _ _ blocking _ _ _ => blocking
  | _ => false
  end.

(** Memory and the pending commands, each with its event, oldest
    first. *)
Record cl_state := {
  mem : memory;
  pending : list (nat * cl_call)
}.

(** Complete the command with event [e]: run the pending commands of
    queue [q] up to it, in order, and keep the others pending. *)
Fixpoint drain (e : nat) (q : option CommandQueue) (pend : list (nat * cl_call))
  (m : memory) : option cl_state :=
  match pend with
  | [] => Some {| mem := m; pending := [] |}
  | (i, c) :: rest =>
      if decide ((i <= e)%nat /\ call_queue c = q) then
        m' ← exec_transfer c m;
        drain e q rest m'
      else
        st ← drain e q rest m;
        Some {| mem := mem st; pending := (i, c) :: pending st |}
  end.

Definition complete (e : nat) (st : cl_state) : option cl_state :=
  match list_find (fun p => p.1 = e) (pending st) with
  | Some (_, (_, c)) => drain e (call_queue c) (pending st) (mem st)
  | None => Some st
  end.

(** One call of the trace, made at position [i]. *)
Definition run_call (i : nat) (c : cl_call) (st : cl_state) : option cl_state :=
  match c with
  | EventWait e => complete e st
  | BuildProgram _ _ => Some st
  | _ =>
      let st' := {| mem := mem st; pending := pending st ++ [(i, c)] |} in
      if call_blocking c then complete i st' else Some st'
  end.

(** The calls of a trace from position [base] on. *)
Fixpoint run_calls (base : nat) (cs : list cl_call) (st : cl_state)
  : option cl_state :=
  match cs with
  | [] => Some st
  | c :: cs => st' ← run_call base c st; run_calls (S base) cs st'
  end.

End Memory.

Arguments device {T} _.
Arguments host {T} _.
Arguments mem {T} _.
Arguments pending {T} _.

End Runtime.

(** * Specification vocabulary *)

Import Vector.

(** What the text of the specification calls ceil(n/D) and the next
    multiple of 16, over the integers. *)
Definition ceil_div (n d : Z) : Z := (n + d - 1) / d.
Definition align16 (x : Z) : Z := 16 * ((x + 15) / 16).

(** Two vectors for the examples: one device with four elements, and two
    devices with sixteen elements each. *)
Definition cpu0 : Device :=
  {| device_id := 0; device_type := CL_DEVICE_TYPE_CPU; max_compute_units := 4 |}.
Definition gpu1 : Device :=
  {| device_id := 1; device_type := CL_DEVICE_TYPE_GPU; max_compute_units := 8 |}.
Definition queue0 : CommandQueue := {| queue_id := 0; qctx := 0; qdev := cpu0 |}.
Definition queue1 : CommandQueue := {| queue_id := 1; qctx := 0; qdev := gpu1 |}.

Definition small_vector : vector :=
  {| queue := [queue0]; part := [0; 4]; buf := [Some 10%nat]; event := [None] |}.
Definition wide_vector : vector :=
  {| queue := [queue0; queue1]; part := [0; 16; 32];
     buf := [Some 20%nat; Some 21%nat]; event := [None; None] |}.

Definition runtime_init (objects : gmap addr vector) : runtime :=
  {| objs := objects; calls := []; cache := fun _ => exdata_init;
     cout := []; cerr := [] |}.

(** *** Host transfers, as the specification describes them

    The part of device [d] is the half-open range [part[d], part[d+1])
    and the transfer is asked for the range [offset, offset + size), both
    over the integers.  Where they meet, they meet in
    [max offset part[d], min (offset + size) part[d+1]). *)
Definition meets (offset size : Z) (v : vector) (d : nat) : option (Z * Z) :=
  match part v !! d, part v !! S d with
  | Some pd, Some pd1 =>
      let start := Z.max offset pd in
      let stop := Z.min (offset + size) pd1 in
      if start <? stop then Some (start, stop) else None
  | _, _ => None
  end.

(** The devices among [ds] whose part meets the range, each with the
    range it shares. *)
Definition hits_on (offset size : Z) (v : vector) (ds : list nat)
  : list (nat * (Z * Z)) :=
  omap (fun d => pair d <$> meets offset size v d) ds.

Definition hits (offset size : Z) (v : vector) : list (nat * (Z * Z)) :=
  hits_on offset size v (seq 0 (length (queue v))).

(** The one transfer that a device with a share [start, stop) is to
    receive: not blocking, from [start - part[d]] in its buffer, from
    [start - offset] in the host array, [stop - start] elements. *)
Definition transfer_call (sizeof_T : Z) (dir : direction) (v : vector)
  (offset : Z) (hostptr : host_ptr) (h : nat * (Z * Z)) : option cl_call :=
  let '(d, (start, stop)) := h in
  q ← queue v !! d;
  b ← buf v !! d;
  pd ← part v !! d;
  Some (enqueue_transfer dir q b false
          (sizeof_T * (start - pd)) (sizeof_T * (stop - start))
          {| block := block hostptr; index := index hostptr + (start - offset) |}).

(** The event list once the transfers numbered from [base] on are
    enqueued. *)
Fixpoint mark_events (base : nat) (hit : list (nat * (Z * Z))) (ev : list Event)
  : list Event :=
  match hit with
  | [] => ev
  | (d, _) :: hit => mark_events (S base) hit (<[d := Some base]> ev)
  end.

(** A vector whose four members fit together: a part boundary more than
    there are queues, a buffer and an event for each queue, and parts
    whose size in bytes a [size_t] can hold. *)
Definition vector_ok (sizeof_T : Z) (v : vector) : Prop :=
  length (part v) = S (length (queue v)) /\
  length (buf v) = length (queue v) /\
  length (event v) = length (queue v) /\
  0 < sizeof_T /\
  (forall d pd, part v !! d = Some pd -> is_uint pd) /\
  (forall d pd pd1, part v !! d = Some pd -> part v !! S d = Some pd1 ->
                    sizeof_T * (pd1 - pd) < 2 ^ 32).

Definition with_events (v : vector) (ev : list Event) : vector :=
  {| queue := queue v; part := part v; buf := buf v; event := ev |}.

Definition with_objs_calls (r : runtime) (o : gmap addr vector)
  (c : list cl_call) : runtime :=
  {| objs := o; calls := c; cache := cache r; cout := cout r; cerr := cerr r |}.

(** The waits of a blocking transfer: one for the event of each device
    that has a share. *)
Definition event_waits (ev : list Event) (hit : list (nat * (Z * Z)))
  : list cl_call :=
  omap (fun h => match ev !! h.1 with
                 | Some (Some e) => Some (EventWait e)
                 | _ => None
                 end) hit.

(** *** The round trip, as the specification describes it

    A partition of [n] elements starts at 0, ends at [n] and does not
    decrease. *)
Definition partition_ok (v : vector) (n : Z) : Prop :=
  part v !! 0%nat = Some 0 /\
  last (part v) = Some n /\
  (forall d pd pd1, part v !! d = Some pd -> part v !! S d = Some pd1 -> pd <= pd1).

(** Every part that is not empty has a buffer of its own, which holds as
    many elements as the part. *)
Definition buffers_ok {T} (v : vector) (m : Runtime.memory T) : Prop :=
  (forall d pd pd1,
      part v !! d = Some pd -> part v !! S d = Some pd1 -> pd < pd1 ->
      exists b content,
        buf v !! d = Some (Some b) /\
        Runtime.device m !! b = Some content /\
        Z.of_nat (length content) = pd1 - pd) /\
  (forall d d' b,
      buf v !! d = Some (Some b) -> buf v !! d' = Some (Some b) -> d = d').

(** A transfer that was enqueued without blocking. *)
Definition pending_transfer (c : cl_call) : Prop :=
  exists dir q b o n p, c = enqueue_transfer dir q b false o n p.

(** Three devices, the middle one with an empty part and no buffer, and
    a memory in which the host array 0 holds five numbers. *)
Definition uneven_vector : vector :=
  {| queue := [queue0; queue1; queue0]; part := [0; 2; 2; 5];
     buf := [Some 30%nat; None; Some 32%nat]; event := [None; None; None] |}.

Definition uneven_memory : Runtime.memory Z :=
  {| Runtime.device := <[30%nat := [9; 9]]> (<[32%nat := [9; 9; 9]]> ∅);
     Runtime.host := <[0%nat := [1; 2; 3; 4; 5]]> (<[1%nat := [0; 0; 0; 0; 0]]> ∅) |}.

(** *** The kernel cache, as the specification describes it

    A cache entry for a shape and a context exists once [compiled] is set
    for them; it consists of the kernel and the work-group size recorded
    for the context. *)
Definition has_entry (r : runtime) (s : shape) (c : cl_context) : Prop :=
  compiled (cache r s) !! c = Some true.

Definition entry_of (r : runtime) (s : shape) (c : cl_context)
  : option Kernel * option Z :=
  (kernel (cache r s) !! c, wgsize (cache r s) !! c).

Definition compiled_in (r : runtime) (s : shape) (c : cl_context) : bool :=
  bool_decide (compiled (cache r s) !! c = Some true).

(** Every entry of [r] is an entry of [r'], with the same kernel and the
    same work-group size. *)
Definition keeps_entries (r r' : runtime) : Prop :=
  forall s c, has_entry r s c ->
              has_entry r' s c /\ entry_of r' s c = entry_of r s c.

(** Every entry has a kernel whose program was built for the context by
    a call of the trace, and a work-group size that is not zero. *)
Definition cache_ok (r : runtime) : Prop :=
  forall s c, has_entry r s c ->
    exists k p w source,
      kernel (cache r s) !! c = Some k /\ kernel_program k = Some p /\
      calls r !! p = Some (BuildProgram c source) /\
      wgsize (cache r s) !! c = Some w /\ 0 < w < 2 ^ 32.

(** The state [r'] is [r] with one more entry, for [s] and [c]. *)
Definition recorded (r r' : runtime) (s : shape) (c : cl_context)
  (k : Kernel) (w : Z) : Prop :=
  objs r' = objs r /\ cout r' = cout r /\ cerr r' = cerr r /\
  (forall s', s' <> s -> cache r' s' = cache r s') /\
  compiled (cache r' s) = <[c := true]> (compiled (cache r s)) /\
  kernel (cache r' s) = <[c := k]> (kernel (cache r s)) /\
  wgsize (cache r' s) = <[c := w]> (wgsize (cache r s)).

(** The contexts that an assignment to the queues [qs] has to compile
    for: those of [qs] for which [have] is not set, each once, in the
    order in which the queues come. *)
Fixpoint to_build (have : cl_context -> bool) (qs : list CommandQueue)
  : list cl_context :=
  match qs with
  | [] => []
  | q :: qs =>
      if have (qctx q) then to_build have qs
      else qctx q :: to_build (fun c => bool_decide (c = qctx q) || have c) qs
  end.

(** [part_size(d)]: [part[d + 1] - part[d]]. *)
Definition part_size (v : vector) (d : nat) : Z :=
  match part v !! S d, part v !! d with
  | Some pd1, Some pd => to_uint (pd1 - pd)
  | _, _ => 0
  end.

(** A kernel launch for device [d] of [v]: on the queue of [d], over
    the part of [d] and its buffer, with the kernel and the work-group
    size that the cache of [r] holds for shape [s] and the context of the
    queue. *)
Definition launch_on (r : runtime) (s : shape) (v : vector) (d : nat)
  (c : cl_call) : Prop :=
  exists q b k args g w,
    queue v !! d = Some q /\ buf v !! d = Some b /\
    c = EnqueueNDRangeKernel q k (ArgSize (part_size v d) :: ArgBuffer b :: args) g w /\
    kernel (cache r s) !! qctx q = Some k /\
    wgsize (cache r s) !! qctx q = Some w.

(** The devices among [ds] whose part is not empty. *)
Definition busy (v : vector) (ds : list nat) : list nat :=
  filter (fun d => part_size v d <> 0) ds.

Fixpoint vectors_of (e : expr) : list addr :=
  match e with
  | Vec x => [x]
  | Scalar _ _ => []
  | Binary _ l r => vectors_of l ++ vectors_of r
  | Function _ arg => vectors_of arg
  end.

(** What an assignment of [e] to [v] needs in order to stay within
    bounds: a part boundary more than queues, a buffer for each queue,
    and, for each vector of the expression, as many buffers as the target
    has queues. *)
Definition ready (r : runtime) (v : vector) (e : expr) : Prop :=
  length (part v) = S (length (queue v)) /\
  length (buf v) = length (queue v) /\
  forall x, x ∈ vectors_of e ->
            exists vx, objs r !! x = Some vx /\
                       (length (queue v) <= length (buf vx))%nat.

(** *** Compound assignment, as the specification describes it *)

(** The operator [op] of the compound operator [op=]. *)
Definition operator_of (cop : compound_token) : binop :=
  match cop with
  | token_plus_assign => plus
  | token_minus_assign => minus
  | token_multiplies_assign => multiplies
  | token_divides_assign => divides
  | token_modulus_assign => modulus
  | token_and_assign => bitwise_and
  | token_or_assign => bitwise_or
  | token_xor_assign => bitwise_xor
  | token_shift_left_assign => shift_left
  | token_shift_right_assign => shift_right
  end.

(** An expression [x + 2] over the vector at address 0, and an OpenCL
    runtime in which every source builds and every device allows 256 work
    items. *)
Definition sum_expr : expr := Binary plus (Vec 0) (Scalar "float" 2).

Definition assign_example : addr -> expr -> M unit :=
  assign (fun _ => "sum"%string) (fun _ => EmptyString) (fun _ => EmptyString)
    (fun _ => EmptyString) EmptyString "float"
    (fun _ _ => true) (fun _ _ => EmptyString) (fun _ _ => 256).

(** *** The sparse product, as the specification describes it

    Entry [i] of [A * x] is the sum of [val[k] * x[col[k]]] over the
    positions [k] of row [i]. *)
Definition row_product (A : SpMat) (xs : list Z) (first count : nat) : Z :=
  foldr Z.add 0
    (zip_with (fun a c => a * default 0 (xs !! Z.to_nat c))
       (take count (drop first (val A))) (take count (drop first (col A)))).

Definition spmv_product (A : SpMat) (xs : list Z) : list Z :=
  zip_with (fun lo hi => row_product A xs (Z.to_nat lo) (Z.to_nat (hi - lo)))
    (row A) (drop 1 (row A)).

Definition identity4 : SpMat :=
  {| row := [0; 1; 2; 3; 4]; col := [0; 1; 2; 3]; val := [1; 1; 1; 1] |}.

Definition ones3 : SpMat :=
  {| row := [0; 3; 6; 9]; col := [0; 1; 2; 0; 1; 2; 0; 1; 2];
     val := [1; 1; 1; 1; 1; 1; 1; 1; 1] |}.

(** The vector [x] at address 0 and the target [y] at address 1, both on
    one device; [x] holds 1, 2, 3, 4 and [y] holds zeros. *)
Definition spmv_x : vector :=
  {| queue := [queue0]; part := [0; 4]; buf := [Some 40%nat]; event := [None] |}.
Definition spmv_y : vector :=
  {| queue := [queue0]; part := [0; 4]; buf := [Some 41%nat]; event := [None] |}.

Definition spmv_runtime : runtime :=
  runtime_init (<[1%nat := spmv_y]> (<[0%nat := spmv_x]> ∅)).

Definition spmv_memory : Runtime.memory Z :=
  {| Runtime.device := <[40%nat := [1; 2; 3; 4]]> (<[41%nat := [0; 0; 0; 0]]> ∅);
     Runtime.host := ∅ |}.

(** The uses of the [partition] object that are a [set]. *)
Definition is_OpSet {CommandQueue : Type} (o : @Util.scheme_op CommandQueue)
  : bool :=
  match o with
  | Util.OpSet _ => true
  | Util.OpCall _ _ => false
  end.

(** Strings are compared as [std::string]s are. *)
#[local] Instance string_eq_dec : EqDecision string := String.string_dec.

(** *** Element access, as a user sees it

    [k] applications of [operator++]. *)
Fixpoint increments (v : vector) (k : nat) (it : Access.iterator_type)
  : option Access.iterator_type :=
  match k with
  | O => Some it
  | S k => it' ← Access.increment v it; increments v k it'
  end.

(** The device vector [v] holds [data]: the buffer of each part that is
    not empty holds the elements of [data] in the range of the part. *)
Definition stores {T} (v : vector) (m : Runtime.memory T) (data : list T)
  : Prop :=
  forall d pd pd1 b,
    part v !! d = Some pd -> part v !! S d = Some pd1 -> pd < pd1 ->
    buf v !! d = Some (Some b) ->
    Runtime.device m !! b
      = Some (Runtime.slice T data (Z.to_nat pd) (Z.to_nat (pd1 - pd))).

(** A memory in which the three-device vector holds five numbers and the
    host has two one-element arrays, for a local [val] each. *)
Definition element_memory : Runtime.memory Z :=
  {| Runtime.device := <[30%nat := [10; 20]]> (<[32%nat := [30; 40; 50]]> ∅);
     Runtime.host := <[7%nat := [0]]> (<[8%nat := [77]]> ∅) |}.

(** *** Copy assignment, as a user sees it

    The copy that [operator=(const vector&)] is to enqueue for device
    [d]: on the queue of [d], from the buffer of the source to the buffer
    of the target, both from the start, as many bytes as the part of the
    target has. *)
Definition copy_call (sizeof_T : Z) (v x : vector) (d : nat) : option cl_call :=
  q ← queue v !! d;
  src ← buf x !! d;
  dst ← buf v !! d;
  Some (EnqueueCopyBuffer q src dst 0 0 (to_uint (part_size v d * sizeof_T))).

(** A second vector over the same three devices with buffers of its
    own, and a memory that holds the buffers of both. *)
Definition uneven_copy : vector :=
  {| queue := [queue0; queue1; queue0]; part := [0; 2; 2; 5];
     buf := [Some 40%nat; None; Some 42%nat]; event := [None; None; None] |}.

Definition copy_memory : Runtime.memory Z :=
  {| Runtime.device :=
       <[30%nat := [10; 20]]> (<[32%nat := [30; 40; 50]]>
         (<[40%nat := [0; 0]]> (<[42%nat := [0; 0; 0]]> ∅)));
     Runtime.host := ∅ |}.

(** The state after the first assignment of the example expression to
    the two-device vector. *)
Definition assigned_runtime : runtime :=
  match assign_example 0 sum_expr (runtime_init (<[0%nat := wide_vector]> ∅)) with
  | Ok _ r => r
  | _ => runtime_init ∅
  end.

(** The same device buffers with a host array of six zeros to read
    into. *)
Definition range_memory : Runtime.memory Z :=
  {| Runtime.device := Runtime.device element_memory;
     Runtime.host := <[0%nat := [0; 0; 0; 0; 0; 0]]> ∅ |}.

(** The same device buffers with a host array of six numbers to write
    from. *)
Definition write_memory : Runtime.memory Z :=
  {| Runtime.device := Runtime.device element_memory;
     Runtime.host := <[0%nat := [1; 2; 3; 4; 5; 6]]> ∅ |}.

(** A queue in a second context, and a vector over one queue of each
    context. *)
Definition queue2 : CommandQueue := {| queue_id := 2; qctx := 1; qdev := gpu1 |}.
Definition mixed_vector : vector :=
  {| queue := [queue0; queue2]; part := [0; 16; 32];
     buf := [Some 20%nat; Some 21%nat]; event := [None; None] |}.

(** A vector as the constructors of the class make it: as many buffers
    and events as queues and, unless it has no queue, one part boundary
    more than queues; the boundaries are [uint] values.  Unlike
    [vector_ok] it says nothing of the size of a part in bytes. *)
Definition vector_shape (v : vector) : Prop :=
  (queue v = [] \/ length (part v) = S (length (queue v))) /\
  length (buf v) = length (queue v) /\
  length (event v) = length (queue v) /\
  (forall d pd, part v !! d = Some pd -> is_uint pd).

(** The end of the range [offset, offset + size) is a [uint], or the
    range starts at or after the end of every part that is not empty. *)
Definition range_end_ok (offset size : Z) (v : vector) : Prop :=
  offset + size < 2 ^ 32 \/
  (forall d pd pd1, (d < length (queue v))%nat ->
     part v !! d = Some pd -> part v !! S d = Some pd1 ->
     pd < pd1 -> pd1 <= offset).

(** One device with [2^29 + 1] elements. *)
Definition huge_vector : vector :=
  {| queue := [queue0]; part := [0; 536870913];
     buf := [Some 10%nat]; event := [None] |}.

(** * Properties *)

(** ** Equal partitioning *)

Lemma align16_ge x : x <= align16 x < x + 16.
Proof.
  unfold align16.
  pose proof (Z.div_mod (x + 15) 16 ltac:(lia)).
  pose proof (Z.mod_pos_bound (x + 15) 16 ltac:(lia)).
  lia.
Qed.

Lemma alignup_16 c :
  0 <= c -> align16 c < 2 ^ 32 -> Util.alignup c 16 = Some (align16 c).
Proof.
  intros Hc Hlt. unfold Util.alignup, align16 in *. simpl (16 =? 0).
  pose proof (Z.div_mod c 16 ltac:(lia)) as Hdm.
  pose proof (Z.mod_pos_bound c 16 ltac:(lia)) as Hm.
  destruct (Z.eqb_spec (c mod 16) 0) as [E|E].
  - f_equal.
    assert ((c + 15) / 16 = c / 16) as ->; [|lia].
    symmetry. apply (Z.div_unique (c + 15) 16 (c / 16) 15); lia.
  - f_equal.
    assert ((c + 15) / 16 = c / 16 + 1) as Hq.
    { symmetry. apply (Z.div_unique (c + 15) 16 (c / 16 + 1) (c mod 16 - 1)); lia. }
    rewrite Hq in *.
    rewrite (to_uint_small (c - c mod 16)) by (unfold is_uint, uint_modulus; lia).
    rewrite to_uint_small by (unfold is_uint, uint_modulus; lia).
    lia.
Qed.

Lemma ceil_div_mul n d : 0 < d -> n <= d * ceil_div n d.
Proof.
  intros Hd. unfold ceil_div.
  pose proof (Z.div_mod (n + d - 1) d ltac:(lia)).
  pose proof (Z.mod_pos_bound (n + d - 1) d Hd).
  lia.
Qed.

Lemma ceil_div_nonneg n d : 0 <= n -> 0 < d -> 0 <= ceil_div n d.
Proof. intros. unfold ceil_div. apply Z.div_pos; lia. Qed.

Lemma vec_set_Some {A} (v : list A) i x :
  (i < length v)%nat -> Util.vec_set v i x = Some (<[i := x]> v).
Proof. intros H. unfold Util.vec_set. by rewrite decide_True. Qed.



(** The loop again, with the sum [part[i] + chunk_size] bounded only
    where the loop computes it: at the entries that it reads. *)
Lemma fill_parts_exact n c :
  0 <= n -> 0 <= c ->
  forall count i (part : list Z),
    (i + count < length part)%nat ->
    part !! i = Some (Z.min n (Z.of_nat i * c)) ->
    (forall j, (i <= j < i + count)%nat ->
               Z.min n (Z.of_nat j * c) + c < 2 ^ 32) ->
    exists part',
      Util.fill_parts n c i count part = Some part' /\
      length part' = length part /\
      (forall j, (j <= i)%nat -> part' !! j = part !! j) /\
      (forall j, (i < j <= i + count)%nat ->
                 part' !! j = Some (Z.min n (Z.of_nat j * c))) /\
      (forall j, (i + count < j)%nat -> part' !! j = part !! j).
Proof.
  intros Hn Hc. induction count as [|count IH]; intros i part Hlen Hi Hsum.
  - exists part. simpl. repeat split; auto. intros j Hj. lia.
  - simpl. rewrite Hi. simpl.
    rewrite vec_set_Some by lia. simpl.
    set (x := Z.min n (to_uint (Z.min n (Z.of_nat i * c) + c))).
    assert (x = Z.min n (Z.of_nat (S i) * c)) as Hx.
    { unfold x. rewrite to_uint_small.
      - rewrite Nat2Z.inj_succ. lia.
      - unfold is_uint, uint_modulus.
        assert (0 <= Z.of_nat i * c) by (apply Z.mul_nonneg_nonneg; lia).
        specialize (Hsum i ltac:(lia)). lia. }
    destruct (IH (S i) (<[S i := x]> part)) as (part' & Hrun & Hl & Hlo & Hmid & Hhi).
    + rewrite length_insert. lia.
    + rewrite list_lookup_insert_eq by lia. by rewrite Hx.
    + intros j Hj. apply Hsum. lia.
    + exists part'. split; [exact Hrun|]. rewrite length_insert in Hl.
      split; [exact Hl|]. repeat split.
      * intros j Hj. rewrite Hlo by lia. apply list_lookup_insert_ne. lia.
      * intros j Hj. destruct (decide (j = S i)) as [->|Hne].
        -- rewrite Hlo by lia. rewrite list_lookup_insert_eq by lia. by rewrite Hx.
        -- apply Hmid. lia.
      * intros j Hj. rewrite Hhi by lia. apply list_lookup_insert_ne. lia.
Qed.

(** For more than one queue the table is the closed form
    [part[j] = min n (j * chunk)] as soon as [n + m - 1] and the last sum
    [part[D-1] + chunk] do not wrap around; the sums before the last are
    smaller, and [alignup] cannot wrap for a quotient by two or more. *)
Lemma partition_equally_exact {CQ} (queue : list CQ) n :
  let D := Z.of_nat (length queue) in
  let chunk := align16 (ceil_div n D) in
  0 <= n -> 1 < D -> D + 1 < 2 ^ 32 ->
  n + D - 1 < 2 ^ 32 -> Z.min n ((D - 1) * chunk) + chunk < 2 ^ 32 ->
  exists part,
    Util.partition_equally n queue = Some part /\
    length part = S (length queue) /\
    forall j, (j <= length queue)%nat ->
              part !! j = Some (Z.min n (Z.of_nat j * chunk)).
Proof.
  intros D chunk Hn HD HD1 Hsum Hchunk.
  assert (0 <= ceil_div n D) as Hc0 by (apply ceil_div_nonneg; lia).
  pose proof (align16_ge (ceil_div n D)) as Hal. fold chunk in Hal.
  assert (ceil_div n D < 2 ^ 31) as Hhalf.
  { unfold ceil_div. apply Z.div_lt_upper_bound; lia. }
  unfold Util.partition_equally. fold D.
  rewrite (to_uint_small D) by (unfold is_uint, uint_modulus; lia).
  rewrite (to_uint_small (D + 1)) by (unfold is_uint, uint_modulus; lia).
  assert (Z.to_nat (D + 1) = S (length queue)) as -> by (unfold D; lia).
  rewrite vec_set_Some by (rewrite length_replicate; lia). simpl.
  assert ((1 <? D) = true) as -> by (apply Z.ltb_lt; lia).
  rewrite (to_uint_small (n + D - 1)) by (unfold is_uint, uint_modulus; lia).
  change ((n + D - 1) / D) with (ceil_div n D).
  rewrite alignup_16 by (fold chunk; lia). simpl. fold chunk.
  assert (Z.to_nat D = length queue) as -> by (unfold D; lia).
  destruct (fill_parts_exact n chunk Hn ltac:(lia) (length queue) 0%nat
              (0 :: replicate (length queue) 0))
    as (part & Hrun & Hl & Hlo & Hmid & _).
  - simpl. rewrite length_replicate. lia.
  - simpl. f_equal. lia.
  - intros j Hj.
    assert (Z.of_nat j * chunk <= (D - 1) * chunk)
      by (apply Z.mul_le_mono_nonneg_r; unfold D; lia).
    lia.
  - exists part. split; [exact Hrun|]. split.
    + rewrite Hl. simpl. by rewrite length_replicate.
    + intros j Hj. destruct j as [|j].
      * rewrite Hlo by lia. simpl. f_equal. lia.
      * apply Hmid. lia.
Qed.

(** C1, as amended: for a single queue, or when neither [n + m - 1] nor
    the last sum [part[D-1] + chunk_size] exceeds the largest [uint], the
    table has [D+1] non-decreasing entries, starts at 0 and ends at [n];
    for one queue it is [[0; n]], and for more each entry is
    [min(n, part[i] + alignup(ceil(n/D), 16))]. *)
Theorem partition_equally_table {CQ} (queue : list CQ) (n : Z) :
  let D := Z.of_nat (length queue) in
  let chunk := align16 (ceil_div n D) in
  0 <= n < 2 ^ 32 ->
  1 <= D < 2 ^ 32 - 1 ->
  D = 1 \/
  (n + D - 1 < 2 ^ 32 /\ Z.min n ((D - 1) * chunk) + chunk < 2 ^ 32) ->
  exists part,
    Util.partition_equally n queue = Some part /\
    length part = S (length queue) /\
    part !! 0%nat = Some 0 /\
    last part = Some n /\
    (forall i a b, part !! i = Some a -> part !! S i = Some b -> a <= b) /\
    (D = 1 -> part = [0; n]) /\
    (1 < D -> forall i a, (i < length queue)%nat -> part !! i = Some a ->
              part !! S i = Some (Z.min n (a + chunk))).
Proof.
  intros D chunk Hn HD Hwrap.
  destruct (decide (D = 1)) as [HD1|HDn].
  - destruct queue as [|q [|q' queue]]; simpl in D; try (unfold D in HD1; simpl in HD1; lia).
    exists [0; n]. repeat split; auto.
    + intros [|[|i]] a b Ha Hb; simpl in *; try discriminate.
      inversion Ha; inversion Hb; subst. lia.
    + lia.
  - destruct Hwrap as [?|[Hsum Hchunk]]; [contradiction|].
    destruct (partition_equally_exact queue n) as (part & Hrun & Hl & Hcl);
      try fold D; try fold chunk; try lia.
    assert (0 <= ceil_div n D) as Hc0 by (apply ceil_div_nonneg; lia).
    pose proof (align16_ge (ceil_div n D)) as Hal. fold chunk in Hal.
    pose proof (ceil_div_mul n D ltac:(lia)) as Hmul.
    assert (forall j : nat, Z.of_nat (S j) * chunk = Z.of_nat j * chunk + chunk) as Hs
      by (intros; lia).
    assert (forall j : nat, 0 <= Z.of_nat j * chunk) as Hp
      by (intros; apply Z.mul_nonneg_nonneg; lia).
    exists part. split; [exact Hrun|]. split; [exact Hl|]. split; [|split; [|split; [|split]]].
    + rewrite Hcl by lia. f_equal. lia.
    + rewrite last_lookup, Hl. simpl. rewrite Hcl by lia. f_equal.
      assert (D * ceil_div n D <= D * chunk) by (apply Z.mul_le_mono_nonneg_l; lia).
      subst chunk D. lia.
    + intros i a b Ha Hb.
      assert (S i <= length queue)%nat as Hi.
      { apply lookup_lt_Some in Hb. lia. }
      rewrite Hcl in Ha, Hb by lia. inversion Ha; inversion Hb; subst.
      specialize (Hs i). specialize (Hp i). subst chunk D. lia.
    + intros ?; contradiction.
    + intros _ i a Hi Ha.
      rewrite Hcl in Ha by lia. inversion Ha; subst.
      rewrite Hcl by lia. f_equal.
      specialize (Hs i). specialize (Hp i). subst chunk D. lia.
Qed.

(** Two queues and a length above [2^31]: the table ends at [n] although
    [n] plus the chunk size exceeds the largest [uint]. *)
Lemma partition_equally_table_witness :
  exists part,
    Util.partition_equally 3000000000 [tt; tt] = Some part /\
    length part = 3%nat /\
    part !! 0%nat = Some 0 /\
    last part = Some 3000000000 /\
    (forall i a b, part !! i = Some a -> part !! S i = Some b -> a <= b) /\
    (2 = 1 -> part = [0; 3000000000]) /\
    (1 < 2 -> forall i a, (i < 2)%nat -> part !! i = Some a ->
              part !! S i = Some (Z.min 3000000000 (a + 1500000000))).
Proof.
  apply (partition_equally_table [tt; tt] 3000000000).
  - lia.
  - simpl. lia.
  - right. vm_compute. split; reflexivity.
Defined.

(** C1 as stated fails at the top of the [uint] range:
    [n + m - 1] wraps to 0, the chunk size is 0 and the table ends at 0
    instead of [n]. *)
Lemma partition_equally_wraps :
  Util.partition_equally 4294967295 [tt; tt] = Some [0; 0; 0] /\
  last [0; 0; 0] <> Some 4294967295.
Proof. split; [vm_compute; reflexivity | discriminate]. Qed.

(** A wrap of [part[i] + chunk_size] makes the table decrease. *)
Lemma partition_equally_decreases :
  Util.partition_equally 4294967294 [tt; tt] = Some [0; 2147483648; 0].
Proof. vm_compute. reflexivity. Qed.

(** ** Work-group size *)

Lemma halves_halves w (k : nat) :
  0 <= w -> w / 2 / 2 ^ Z.of_nat k = w / 2 ^ Z.of_nat (S k).
Proof.
  intros Hw. rewrite Nat2Z.inj_succ, Z.pow_succ_r by lia.
  rewrite Z.div_div by lia. reflexivity.
Qed.

Lemma halves_le w (j k : nat) :
  0 <= w -> (j <= k)%nat -> w / 2 ^ Z.of_nat k <= w / 2 ^ Z.of_nat j.
Proof.
  intros Hw Hjk. apply Z.div_le_compat_l; [exact Hw|]. split.
  - apply Z.pow_pos_nonneg; lia.
  - apply Z.pow_le_mono_r; lia.
Qed.

Lemma pow2_pos (k : nat) : 0 < 2 ^ Z.of_nat k.
Proof. apply Z.pow_pos_nonneg; lia. Qed.

Lemma halves_add w (j k : nat) :
  w / 2 ^ Z.of_nat j / 2 ^ Z.of_nat k = w / 2 ^ Z.of_nat (j + k).
Proof.
  pose proof (pow2_pos j). pose proof (pow2_pos k).
  rewrite Z.div_div by lia.
  rewrite <- Z.pow_add_r by lia. do 2 f_equal. lia.
Qed.

(** The loop stops at the first halving that fits the device. *)
Lemma shrink_spec w r :
  0 <= w ->
  exists k : nat,
    Util.shrink w r = w / 2 ^ Z.of_nat k /\
    Util.shrink w r <= to_uint r /\
    forall j : nat, w / 2 ^ Z.of_nat j <= to_uint r ->
                    w / 2 ^ Z.of_nat j <= Util.shrink w r.
Proof.
  funelim (Util.shrink w r); intros Hw.
  - destruct H as (k & Hk & Hle & Hmax); [apply Z.div_pos; lia|].
    exists (S k). split; [|split].
    + rewrite Hk. apply halves_halves. exact Hw.
    + exact Hle.
    + intros [|j] Hj.
      * simpl in Hj. rewrite Z.div_1_r in Hj. lia.
      * rewrite <- halves_halves in * by exact Hw. apply Hmax. exact Hj.
  - exists 0%nat. simpl. rewrite Z.div_1_r. split; [reflexivity|]. split; [lia|].
    intros j _. pose proof (halves_le wgsz 0 j Hw ltac:(lia)) as Hh.
    simpl in Hh. rewrite Z.div_1_r in Hh. exact Hh.
Qed.

Section WorkgroupProperties.
Context {Kernel Device : Type}.
Variable work_group_info : Kernel -> Device -> Z.
Variable kernel : Kernel.

Let shrink_all (w0 : Z) (device : list Device) : Z :=
  fold_left (fun wgsz d => Util.shrink wgsz (work_group_info kernel d)) device w0.

Lemma shrink_all_spec (device : list Device) : forall w0,
  0 <= w0 ->
  exists k : nat,
    shrink_all w0 device = w0 / 2 ^ Z.of_nat k /\
    (forall d, d ∈ device -> shrink_all w0 device <= to_uint (work_group_info kernel d)) /\
    forall j : nat,
      (forall d, d ∈ device -> w0 / 2 ^ Z.of_nat j <= to_uint (work_group_info kernel d)) ->
      w0 / 2 ^ Z.of_nat j <= shrink_all w0 device.
Proof.
  induction device as [|d device IH]; intros w0 Hw0.
  - exists 0%nat. simpl. rewrite Z.div_1_r. split; [reflexivity|]. split.
    + intros d Hd. inversion Hd.
    + intros j _. pose proof (halves_le w0 0 j Hw0 ltac:(lia)) as Hh.
      simpl in Hh. rewrite Z.div_1_r in Hh. exact Hh.
  - simpl.
    destruct (shrink_spec w0 (work_group_info kernel d) Hw0) as (k1 & Hk1 & Hle1 & Hmax1).
    set (w1 := Util.shrink w0 (work_group_info kernel d)) in *.
    assert (0 <= w1) as Hw1.
    { rewrite Hk1. apply Z.div_pos; [exact Hw0|]. apply Z.pow_pos_nonneg; lia. }
    destruct (IH w1 Hw1) as (k2 & Hk2 & Hle2 & Hmax2).
    assert (shrink_all w1 device <= w1) as Hmono.
    { rewrite Hk2. pose proof (halves_le w1 0 k2 Hw1 ltac:(lia)) as Hh.
      simpl in Hh. rewrite Z.div_1_r in Hh. exact Hh. }
    exists (k1 + k2)%nat. split; [|split].
    + rewrite Hk2, Hk1. apply halves_add.
    + intros d' Hd'. apply elem_of_cons in Hd' as [->|Hd'].
      * lia.
      * apply Hle2. exact Hd'.
    + intros j Hj.
      assert (w0 / 2 ^ Z.of_nat j <= w1) as Hjw1.
      { apply Hmax1. apply Hj. left. }
      destruct (decide (k1 <= j)%nat) as [Hge|Hlt].
      * assert (w0 / 2 ^ Z.of_nat j = w1 / 2 ^ Z.of_nat (j - k1)) as Hrew.
        { rewrite Hk1, halves_add. do 3 f_equal. lia. }
        rewrite Hrew. apply Hmax2. intros d' Hd'. rewrite <- Hrew.
        apply Hj. right. exact Hd'.
      * pose proof (halves_le w0 j k1 Hw0 ltac:(lia)) as Hh. rewrite <- Hk1 in Hh.
        assert (w0 / 2 ^ Z.of_nat j = w1 / 2 ^ Z.of_nat 0) as Hrew.
        { simpl. rewrite Z.div_1_r. lia. }
        rewrite Hrew. apply Hmax2. intros d' Hd'. rewrite <- Hrew.
        apply Hj. right. exact Hd'.
Qed.

(** C9: with every device reporting a positive work-group size (that
    fits a [uint]), [kernel_workgroup_size] is the largest [1024 / 2^k]
    that no device's reported size falls below; it is a power of two, at
    most 1024, and 1024 itself when every device allows 1024. *)
Theorem kernel_workgroup_size_largest (device : list Device) :
  (forall d, d ∈ device -> 0 < work_group_info kernel d < 2 ^ 32) ->
  let wgsz := Util.kernel_workgroup_size work_group_info kernel device in
  (exists k : nat, wgsz = 1024 / 2 ^ Z.of_nat k) /\
  wgsz <= 1024 /\
  (forall d, d ∈ device -> wgsz <= work_group_info kernel d) /\
  (forall k : nat,
      (forall d, d ∈ device -> 1024 / 2 ^ Z.of_nat k <= work_group_info kernel d) ->
      1024 / 2 ^ Z.of_nat k <= wgsz) /\
  (exists e : nat, (e <= 10)%nat /\ wgsz = 2 ^ Z.of_nat e) /\
  ((forall d, d ∈ device -> 1024 <= work_group_info kernel d) -> wgsz = 1024).
Proof.
  intros Hpos wgsz.
  assert (forall d, d ∈ device ->
            to_uint (work_group_info kernel d) = work_group_info kernel d) as Hid.
  { intros d Hd. apply to_uint_small. specialize (Hpos d Hd).
    unfold is_uint, uint_modulus. lia. }
  destruct (shrink_all_spec device 1024 ltac:(lia)) as (k & Hk & Hle & Hmax).
  change (shrink_all 1024 device) with wgsz in *.
  assert (forall j : nat,
      (forall d, d ∈ device -> 1024 / 2 ^ Z.of_nat j <= work_group_info kernel d) ->
      1024 / 2 ^ Z.of_nat j <= wgsz) as Hmax'.
  { intros j Hj. apply Hmax. intros d Hd. rewrite Hid by exact Hd. apply Hj, Hd. }
  assert (1 <= wgsz) as Hone.
  { apply (Hmax' 10%nat). intros d Hd. specialize (Hpos d Hd).
    change (1024 / 2 ^ Z.of_nat 10) with 1. lia. }
  assert (wgsz <= 1024) as Hcap.
  { rewrite Hk. pose proof (halves_le 1024 0 k ltac:(lia) ltac:(lia)) as Hh.
    exact Hh. }
  split; [exists k; exact Hk|]. split; [exact Hcap|]. split; [|split; [exact Hmax'|split]].
  - intros d Hd. rewrite <- Hid by exact Hd. apply Hle, Hd.
  - assert (k <= 10)%nat as Hk10.
    { destruct (decide (k <= 10)%nat) as [?|Hgt]; [assumption|].
      pose proof (halves_le 1024 11 k ltac:(lia) ltac:(lia)) as Hh.
      change (1024 / 2 ^ Z.of_nat 11) with 0 in Hh. lia. }
    exists (10 - k)%nat. split; [lia|]. rewrite Hk.
    do 11 (destruct k as [|k]; [reflexivity|]). lia.
  - intros Hbig. specialize (Hmax' 0%nat). simpl in Hmax'.
    assert (1024 <= wgsz) by (apply Hmax'; intros d Hd; apply Hbig, Hd). lia.
Qed.

End WorkgroupProperties.

(** Three devices, the smallest of which allows 256 work items. *)
Lemma kernel_workgroup_size_largest_witness :
  let wgsz := Util.kernel_workgroup_size (fun (_ : unit) (d : Z) => d) tt
                [256; 2048; 512] in
  (exists k : nat, wgsz = 1024 / 2 ^ Z.of_nat k) /\
  wgsz <= 1024 /\
  (forall d, d ∈ [256; 2048; 512] -> wgsz <= d) /\
  (forall k : nat,
      (forall d, d ∈ [256; 2048; 512] -> 1024 / 2 ^ Z.of_nat k <= d) ->
      1024 / 2 ^ Z.of_nat k <= wgsz) /\
  (exists e : nat, (e <= 10)%nat /\ wgsz = 2 ^ Z.of_nat e) /\
  ((forall d, d ∈ [256; 2048; 512] -> 1024 <= d) -> wgsz = 1024).
Proof.
  apply (kernel_workgroup_size_largest (fun (_ : unit) (d : Z) => d) tt
           [256; 2048; 512]).
  intros d Hd.
  repeat (apply elem_of_cons in Hd as [->|Hd]; [lia|]).
  inversion Hd.
Defined.

(** ** The partitioning policy *)

Section SchemeProperties.
Context {CommandQueue : Type}.
Variable partition_by_vector_perf : @Util.partition_fn CommandQueue.

Abbreviation scheme := (@Util.partitioning_scheme CommandQueue).
Abbreviation run := (Util.scheme_run partition_by_vector_perf).
Abbreviation call := (Util.call partition_by_vector_perf).

Lemma set_when_unset f (s : scheme) :
  Util.is_set s = false ->
  Util.set f s = {| Util.is_set := true; Util.pfun := f; Util.cerr := Util.cerr s |}.
Proof. intros H. unfold Util.set. rewrite H. reflexivity. Qed.

Lemma set_when_set f (s : scheme) :
  Util.is_set s = true ->
  Util.set f s = {| Util.is_set := true; Util.pfun := Util.pfun s;
                    Util.cerr := Util.cerr s ++ [Util.set_warning] |}.
Proof. intros H. unfold Util.set. rewrite H. reflexivity. Qed.

Lemma call_when_set n queue (s : scheme) :
  Util.is_set s = true ->
  call n queue s = (s, f ← Util.pfun s; f n queue).
Proof. intros H. unfold Util.call. rewrite H. reflexivity. Qed.

Lemma step_keeps_policy (s : scheme) o :
  Util.is_set s = true ->
  Util.is_set (Util.scheme_step partition_by_vector_perf s o) = true /\
  Util.pfun (Util.scheme_step partition_by_vector_perf s o) = Util.pfun s.
Proof.
  intros H. destruct o as [f|n queue]; unfold Util.scheme_step.
  - rewrite set_when_set by exact H. auto.
  - rewrite call_when_set by exact H. auto.
Qed.

Lemma run_keeps_policy ops : forall s : scheme,
  Util.is_set s = true ->
  Util.is_set (run ops s) = true /\ Util.pfun (run ops s) = Util.pfun s.
Proof.
  induction ops as [|o ops IH]; intros s H; [auto|].
  destruct (step_keeps_policy s o H) as [H1 H2].
  unfold Util.scheme_run in *. simpl.
  destruct (IH _ H1) as [H3 H4]. split; [exact H3|]. rewrite H4. exact H2.
Qed.

(** C7: a [set] on a state where no policy is active installs its
    argument without a warning; the first use installs
    [partition_by_vector_perf]; once a policy is active, every [set]
    returns normally, appends the warning to [std::cerr] and keeps the
    policy, which also survives any further sets and calls, so that a
    later partition call still runs the original function. *)
Theorem partitioning_scheme_set_once (s : scheme) (f : Util.function_type) :
  (Util.is_set s = false ->
     Util.is_set (Util.set f s) = true /\
     Util.pfun (Util.set f s) = f /\
     Util.cerr (Util.set f s) = Util.cerr s) /\
  (Util.is_set s = false -> forall n queue,
     Util.is_set (fst (call n queue s)) = true /\
     Util.pfun (fst (call n queue s)) = Some partition_by_vector_perf) /\
  (Util.is_set s = true ->
     Util.is_set (Util.set f s) = true /\
     Util.pfun (Util.set f s) = Util.pfun s /\
     Util.cerr (Util.set f s) = Util.cerr s ++ [Util.set_warning] /\
     forall ops n queue,
       Util.pfun (run ops (Util.set f s)) = Util.pfun s /\
       snd (call n queue (run ops (Util.set f s)))
         = (g ← Util.pfun s; g n queue)).
Proof.
  split; [|split].
  - intros H. rewrite set_when_unset by exact H. auto.
  - intros H n queue. unfold Util.call. rewrite H. auto.
  - intros H. rewrite set_when_set by exact H.
    set (s1 := {| Util.is_set := true; Util.pfun := Util.pfun s;
                  Util.cerr := Util.cerr s ++ [Util.set_warning] |}).
    do 3 (split; [reflexivity|]). intros ops n queue.
    destruct (run_keeps_policy ops s1 eq_refl) as [Hs Hp].
    split; [exact Hp|].
    rewrite call_when_set by exact Hs. cbn [snd]. rewrite Hp. reflexivity.
Qed.

End SchemeProperties.

(** A second [set] after [partition_equally] was installed, and a first
    [set] on a fresh scheme. *)
Lemma partitioning_scheme_set_once_witness :
  let pbvp : @Util.partition_fn unit := fun n _ => Some [0; n] in
  let s0 : @Util.partitioning_scheme unit := Util.scheme_init in
  let s1 := Util.set (Some Util.partition_equally) s0 in
  (Util.pfun (Util.set None s0) = None /\
   Util.pfun (fst (Util.call pbvp 7 [tt] s0)) = Some pbvp) /\
  Util.pfun (Util.set (Some pbvp) s1) = Some Util.partition_equally /\
  Util.cerr (Util.set (Some pbvp) s1) = [Util.set_warning] /\
  snd (Util.call pbvp 100 [tt; tt; tt]
         (Util.scheme_run pbvp [Util.OpSet None; Util.OpCall 1 []]
            (Util.set (Some pbvp) s1)))
    = Some [0; 48; 96; 100].
Proof.
  intros pbvp s0 s1.
  destruct (partitioning_scheme_set_once pbvp s0 None) as (Ha & Hb & _).
  destruct (partitioning_scheme_set_once pbvp s1 (Some pbvp)) as (_ & _ & Hc).
  destruct (Ha eq_refl) as (_ & Ha2 & _).
  destruct (Hb eq_refl 7 [tt]) as (_ & Hb2).
  destruct (Hc eq_refl) as (_ & Hc2 & Hc3 & Hc4).
  destruct (Hc4 [Util.OpSet None; Util.OpCall 1 []] 100 [tt; tt; tt]) as (_ & Hc5).
  split; [split; [exact Ha2 | exact Hb2]|].
  split; [exact Hc2|]. split; [exact Hc3|].
  rewrite Hc5. vm_compute. reflexivity.
Defined.

(** ** Moves *)


Lemma vector_eta (v : vector) :
  {| queue := queue v; part := part v; buf := buf v; event := event v |} = v.
Proof. destruct v; reflexivity. Qed.

(** [swap] exchanges the two objects and touches nothing else. *)
Lemma swap_run r this v (a b : vector) :
  objs r !! this = Some a ->
  objs r !! v = Some b ->
  swap this v r =
    Ok tt {| objs := <[v := a]> (<[this := b]> (objs r)); calls := calls r;
             cache := cache r; cout := cout r; cerr := cerr r |}.
Proof.
  intros Ha Hb. unfold swap, mbind, M_bind, load, store. rewrite Ha, Hb. simpl.
  rewrite !vector_eta. reflexivity.
Qed.

(** C5, as amended: a move from [v] hands the queue list, the
    partition, the buffer handles and the events of [v] to the
    destination without a call into the runtime.  After move construction
    [v] is empty; after move assignment [v] holds what the destination
    held before. *)
Theorem move_transfers_ownership r this v (src : vector) :
  this ≠ v ->
  objs r !! v = Some src ->
  (exists r1,
     move_construct this v r = Ok tt r1 /\
     objs r1 !! this = Some src /\
     objs r1 !! v = Some empty_vector /\
     calls r1 = calls r) /\
  (forall dst, objs r !! this = Some dst ->
     exists r2,
       move_assign this v r = Ok tt r2 /\
       objs r2 !! this = Some src /\
       objs r2 !! v = Some dst /\
       calls r2 = calls r).
Proof.
  intros Hne Hv. split.
  - unfold move_construct, mbind, M_bind, store at 1.
    rewrite (swap_run _ this v empty_vector src); simpl.
    + eexists. split; [reflexivity|]. simpl.
      rewrite lookup_insert_eq.
      rewrite lookup_insert_ne by congruence.
      rewrite lookup_insert_eq. auto.
    + apply lookup_insert_eq.
    + rewrite lookup_insert_ne by exact Hne. exact Hv.
  - intros dst Hd. unfold move_assign.
    rewrite (swap_run r this v dst src Hd Hv).
    eexists. split; [reflexivity|]. simpl.
    rewrite lookup_insert_eq.
    rewrite lookup_insert_ne by congruence.
    rewrite lookup_insert_eq. auto.
Qed.


Lemma move_transfers_ownership_witness :
  let r := runtime_init (<[1%nat := wide_vector]> (<[0%nat := small_vector]> ∅)) in
  (exists r1,
     move_construct 2 1 r = Ok tt r1 /\
     objs r1 !! 2%nat = Some wide_vector /\
     objs r1 !! 1%nat = Some empty_vector /\
     calls r1 = calls r) /\
  (forall dst, objs r !! 0%nat = Some dst ->
     exists r2,
       move_assign 0 1 r = Ok tt r2 /\
       objs r2 !! 0%nat = Some wide_vector /\
       objs r2 !! 1%nat = Some dst /\
       calls r2 = calls r).
Proof.
  intros r. split.
  - apply (move_transfers_ownership r 2%nat 1%nat wide_vector); [lia | reflexivity].
  - apply (move_transfers_ownership r 0%nat 1%nat wide_vector); [lia | reflexivity].
Defined.

(** C5 as stated fails for move assignment to a vector that is not
    empty: the moved-from vector is left with the destination's old
    queue list, partition, buffers and events. *)
Lemma move_assign_source_not_empty :
  exists r',
    move_assign 0 1
      (runtime_init (<[1%nat := wide_vector]> (<[0%nat := small_vector]> ∅)))
    = Ok tt r' /\
    objs r' !! 1%nat = Some small_vector /\
    small_vector <> empty_vector /\
    size small_vector = 4.
Proof.
  eexists. split; [vm_compute; reflexivity|].
  split; [reflexivity|]. split; [discriminate | reflexivity].
Qed.

(** ** Copy assignment *)

(** C10: copy assignment of a vector to itself returns at once: no
    call into the runtime, and the whole state is as before. *)
Theorem copy_assign_self sizeof_T (this : addr) (r : runtime) :
  copy_assign sizeof_T this this r = Ok tt r.
Proof.
  unfold copy_assign. destruct (decide (this ≠ this)) as [Hne|_].
  - contradiction.
  - reflexivity.
Qed.

(** Between two distinct vectors the assignment does enqueue one copy
    for each part that is not empty. *)
Example copy_assign_other :
  exists r',
    copy_assign 4 0 1
      (runtime_init (<[1%nat := small_vector]> (<[0%nat := small_vector]> ∅)))
    = Ok tt r' /\
    calls r' = [EnqueueCopyBuffer queue0 (Some 10%nat) (Some 10%nat) 0 0 16].
Proof. eexists. split; vm_compute; reflexivity. Qed.

(** ** Running the monad *)

Lemma bind_ok {A B} (f : A -> M B) (m : M A) r a r' :
  m r = Ok a r' -> (m ≫= f) r = f a r'.
Proof. intros H. unfold mbind, M_bind. rewrite H. reflexivity. Qed.

Lemma at_ok {A} (l : list A) i x r : l !! i = Some x -> at_ l i r = Ok x r.
Proof. intros H. unfold at_. rewrite H. reflexivity. Qed.

Lemma load_ok a v r : objs r !! a = Some v -> load a r = Ok v r.
Proof. intros H. unfold load. rewrite H. reflexivity. Qed.

Lemma runtime_eta r : with_objs_calls r (objs r) (calls r) = r.
Proof. destruct r; reflexivity. Qed.

Lemma to_uint_id z : 0 <= z < 2 ^ 32 -> to_uint z = z.
Proof. intros H. apply to_uint_small. exact H. Qed.

(** ** Host transfers *)

Lemma hits_on_cons offset size v d ds :
  hits_on offset size v (d :: ds) =
    match meets offset size v d with
    | Some h => (d, h) :: hits_on offset size v ds
    | None => hits_on offset size v ds
    end.
Proof. unfold hits_on. simpl. destruct (meets offset size v d); reflexivity. Qed.

Lemma meets_eq offset size v d pd pd1 :
  part v !! d = Some pd -> part v !! S d = Some pd1 ->
  meets offset size v d =
    if Z.max offset pd <? Z.min (offset + size) pd1
    then Some (Z.max offset pd, Z.min (offset + size) pd1) else None.
Proof. intros H1 H2. unfold meets. rewrite H1, H2. reflexivity. Qed.

Lemma transfer_call_eq sizeof_T dir v offset hostptr d start stop q b pd :
  queue v !! d = Some q -> buf v !! d = Some b -> part v !! d = Some pd ->
  transfer_call sizeof_T dir v offset hostptr (d, (start, stop)) =
    Some (enqueue_transfer dir q b false
            (sizeof_T * (start - pd)) (sizeof_T * (stop - start))
            {| block := block hostptr; index := index hostptr + (start - offset) |}).
Proof. intros Hq Hb Hp. unfold transfer_call. rewrite Hq, Hb, Hp. reflexivity. Qed.

Section TransferProperties.
Variable sizeof_T : Z.
Variables (dir : direction) (this : addr) (v : vector).
Variables (offset size : Z) (hostptr : host_ptr).
Hypothesis Hok : vector_ok sizeof_T v.
Hypothesis Hoffset : is_uint offset.
Hypothesis Hsize : is_uint size.
Hypothesis Hend : offset + size < 2 ^ 32.

Lemma part_lookup d :
  (d < length (queue v))%nat ->
  exists pd pd1, part v !! d = Some pd /\ part v !! S d = Some pd1 /\
                 is_uint pd /\ is_uint pd1 /\ sizeof_T * (pd1 - pd) < 2 ^ 32.
Proof.
  intros Hd. destruct Hok as (Hlp & _ & _ & _ & Hu & Hb).
  destruct (lookup_lt_is_Some_2 (part v) d ltac:(lia)) as [pd Hpd].
  destruct (lookup_lt_is_Some_2 (part v) (S d) ltac:(lia)) as [pd1 Hpd1].
  exists pd, pd1. eauto 10.
Qed.

(** The first loop enqueues the expected transfers, in the order of the
    devices, and records the event of each in the vector. *)
Lemma transfer_parts_run ds : forall r ev,
  (forall d, d ∈ ds -> (d < length (queue v))%nat) ->
  objs r !! this = Some (with_events v ev) ->
  length ev = length (queue v) ->
  exists cs,
    Forall2 (fun h c => transfer_call sizeof_T dir v offset hostptr h = Some c)
            (hits_on offset size v ds) cs /\
    transfer_parts sizeof_T dir this v offset size hostptr ds r =
      Ok tt (with_objs_calls r
               (<[this := with_events v
                            (mark_events (length (calls r))
                               (hits_on offset size v ds) ev)]> (objs r))
               (calls r ++ cs)).
Proof.
  induction ds as [|d ds IH]; intros r ev Hds Hobj Hlen.
  - exists []. split; [constructor|]. simpl.
    rewrite insert_id by exact Hobj. rewrite app_nil_r, runtime_eta. reflexivity.
  - destruct (part_lookup d) as (pd & pd1 & Hpd & Hpd1 & Hupd & Hupd1 & Hbytes);
      [apply Hds; left|].
    assert (forall d', d' ∈ ds -> (d' < length (queue v))%nat) as Hds'
      by (intros d' Hd'; apply Hds; right; exact Hd').
    cbn [transfer_parts].
    rewrite (bind_ok _ _ _ _ _ (at_ok _ _ _ r Hpd)).
    rewrite (bind_ok _ _ _ _ _ (at_ok _ _ _ r Hpd1)).
    rewrite (to_uint_id (offset + size))
      by (unfold is_uint, uint_modulus in *; lia).
    rewrite hits_on_cons, (meets_eq _ _ _ _ _ _ Hpd Hpd1).
    destruct (Z.leb_spec (Z.min (offset + size) pd1) (Z.max offset pd)) as [Hle|Hgt].
    + assert ((Z.max offset pd <? Z.min (offset + size) pd1) = false) as ->
        by (apply Z.ltb_ge; exact Hle).
      rewrite (bind_ok _ _ r tt r) by reflexivity.
      apply IH; assumption.
    + assert ((Z.max offset pd <? Z.min (offset + size) pd1) = true) as ->
        by (apply Z.ltb_lt; exact Hgt).
      destruct Hok as (Hlp & Hlb & Hle & Hsz & _ & _).
      assert (d < length (queue v))%nat as Hd by (apply Hds; left).
      destruct (lookup_lt_is_Some_2 (queue v) d Hd) as [q Hq].
      destruct (lookup_lt_is_Some_2 (buf v) d ltac:(lia)) as [b Hb].
      set (start := Z.max offset pd) in *. set (stop := Z.min (offset + size) pd1) in *.
      set (c := enqueue_transfer dir q b false
                  (sizeof_T * (start - pd)) (sizeof_T * (stop - start))
                  {| block := block hostptr; index := index hostptr + (start - offset) |}).
      set (r2 := with_objs_calls r
                   (<[this := with_events v (<[d := Some (length (calls r))]> ev)]> (objs r))
                   (calls r ++ [c])).
      destruct (IH r2 (<[d := Some (length (calls r))]> ev) Hds') as (cs & Hcs & Hrun).
      { unfold r2. simpl. apply lookup_insert_eq. }
      { rewrite length_insert. exact Hlen. }
      exists (c :: cs). split.
      * constructor; [|exact Hcs]. unfold transfer_call.
        rewrite Hq, Hb, Hpd. reflexivity.
      * assert ((_ ← (q0 ← at_ (queue v) d;
                      b0 ← at_ (buf v) d;
                      e ← emit (enqueue_transfer dir q0 b0 false
                                  (to_uint (sizeof_T * to_uint (start - pd)))
                                  (to_uint (sizeof_T * to_uint (stop - start)))
                                  {| block := block hostptr;
                                     index := index hostptr + start - offset |});
                      set_event this d (Some e));
                 transfer_parts sizeof_T dir this v offset size hostptr ds) r
                = transfer_parts sizeof_T dir this v offset size hostptr ds r2) as ->.
        { unfold is_uint, uint_modulus in *.
          assert (0 <= start - pd <= pd1 - pd) by (unfold start, stop in *; lia).
          assert (0 <= stop - start <= pd1 - pd) by (unfold start, stop in *; lia).
          assert (sizeof_T * (start - pd) <= sizeof_T * (pd1 - pd))
            by (apply Z.mul_le_mono_nonneg_l; lia).
          assert (sizeof_T * (stop - start) <= sizeof_T * (pd1 - pd))
            by (apply Z.mul_le_mono_nonneg_l; lia).
          assert (0 <= sizeof_T * (start - pd)) by (apply Z.mul_nonneg_nonneg; lia).
          assert (0 <= sizeof_T * (stop - start)) by (apply Z.mul_nonneg_nonneg; lia).
          rewrite (to_uint_id (start - pd)) by lia.
          rewrite (to_uint_id (stop - start)) by lia.
          rewrite (to_uint_id (sizeof_T * (start - pd))) by lia.
          rewrite (to_uint_id (sizeof_T * (stop - start))) by lia.
          replace (index hostptr + start - offset)
            with (index hostptr + (start - offset)) by lia.
          fold c.
          unfold mbind at 1. unfold M_bind.
          rewrite (bind_ok _ _ _ _ _ (at_ok _ _ _ r Hq)).
          rewrite (bind_ok _ _ _ _ _ (at_ok _ _ _ r Hb)).
          unfold mbind at 1. unfold M_bind. unfold emit at 1.
          unfold set_event.
          erewrite bind_ok; [|apply load_ok; simpl; exact Hobj].
          unfold with_events at 1 2 3 4. cbn [event queue part buf].
          rewrite vec_set_Some by lia.
          unfold store. cbn [objs calls cache cout cerr].
          reflexivity. }
        rewrite Hrun. unfold r2, with_objs_calls. simpl.
        rewrite insert_insert_eq. rewrite length_app. simpl.
        rewrite Nat.add_1_r. rewrite <- app_assoc. reflexivity.
Qed.

(** The second loop waits for the event that the vector holds for each
    device with a share, and for nothing else. *)
Lemma wait_parts_run ds : forall r w,
  (forall d, d ∈ ds -> (d < length (queue v))%nat) ->
  objs r !! this = Some w ->
  (forall d h, d ∈ ds -> meets offset size v d = Some h ->
               exists e, event w !! d = Some (Some e)) ->
  wait_parts this v offset size ds r =
    Ok tt (with_objs_calls r (objs r)
             (calls r ++ event_waits (event w) (hits_on offset size v ds))).
Proof.
  induction ds as [|d ds IH]; intros r w Hds Hobj Hev.
  - simpl. rewrite app_nil_r, runtime_eta. reflexivity.
  - destruct (part_lookup d) as (pd & pd1 & Hpd & Hpd1 & Hupd & Hupd1 & Hbytes);
      [apply Hds; left|].
    assert (forall d', d' ∈ ds -> (d' < length (queue v))%nat) as Hds'
      by (intros d' Hd'; apply Hds; right; exact Hd').
    cbn [wait_parts].
    rewrite (bind_ok _ _ _ _ _ (at_ok _ _ _ r Hpd)).
    rewrite (bind_ok _ _ _ _ _ (at_ok _ _ _ r Hpd1)).
    rewrite (to_uint_id (offset + size))
      by (unfold is_uint, uint_modulus in *; lia).
    rewrite hits_on_cons.
    pose proof (Hev d) as Hevd.
    rewrite (meets_eq _ _ _ _ _ _ Hpd Hpd1) in Hevd |- *.
    destruct (Z.max offset pd <? Z.min (offset + size) pd1).
    + destruct (Hevd _ ltac:(left) eq_refl) as [e He].
      unfold event_waits. cbn [omap list_omap fst]. rewrite He.
      fold (event_waits (event w) (hits_on offset size v ds)).
      set (r1 := with_objs_calls r (objs r) (calls r ++ [EventWait e])).
      assert ((_ ← (w0 ← load this; e0 ← at_ (event w0) d; wait e0);
               wait_parts this v offset size ds) r
              = wait_parts this v offset size ds r1) as ->.
      { unfold mbind at 1. unfold M_bind.
        rewrite (bind_ok _ _ _ _ _ (load_ok _ _ r Hobj)).
        rewrite (bind_ok _ _ _ _ _ (at_ok _ _ _ r He)).
        reflexivity. }
      rewrite (IH r1 w Hds').
      * unfold r1, with_objs_calls. simpl. rewrite <- app_assoc. reflexivity.
      * exact Hobj.
      * intros d' h Hd'. apply Hev. right. exact Hd'.
    + rewrite (bind_ok _ _ r tt r) by reflexivity.
      apply IH; [exact Hds' | exact Hobj |].
      intros d' h Hd'. apply Hev. right. exact Hd'.
Qed.

End TransferProperties.

(** The devices with a share are among those asked about, in the same
    order. *)
Lemma hits_on_fst offset size v ds :
  sublist (map fst (hits_on offset size v ds)) ds.
Proof.
  induction ds as [|d ds IH]; [constructor|].
  rewrite hits_on_cons. destruct (meets offset size v d).
  - simpl. apply sublist_skip. exact IH.
  - apply sublist_cons. exact IH.
Qed.

Lemma hits_on_elem offset size v ds d h :
  (d, h) ∈ hits_on offset size v ds <-> d ∈ ds /\ meets offset size v d = Some h.
Proof.
  unfold hits_on. rewrite list_elem_of_omap. split.
  - intros (d' & Hd' & Hm). destruct (meets offset size v d') as [h'|] eqn:E;
      simpl in Hm; [|discriminate].
    inversion Hm; subst. auto.
  - intros [Hd Hm]. exists d. rewrite Hm. auto.
Qed.

Lemma mark_events_other d : forall hit base ev,
  d ∉ map fst hit -> mark_events base hit ev !! d = ev !! d.
Proof.
  induction hit as [|[d' h] hit IH]; intros base ev Hd; [reflexivity|].
  simpl in Hd. apply not_elem_of_cons in Hd as [Hne Hd].
  cbn [mark_events]. rewrite IH by exact Hd.
  apply list_lookup_insert_ne. congruence.
Qed.

Lemma mark_events_length : forall hit base ev,
  length (mark_events base hit ev) = length ev.
Proof.
  induction hit as [|[d h] hit IH]; intros base ev; [reflexivity|].
  simpl. rewrite IH. apply length_insert.
Qed.

(** With each device hit once, the event of the k-th transfer is kept
    for its device. *)
Lemma mark_events_waits : forall hit base ev,
  NoDup (map fst hit) ->
  (forall d, d ∈ map fst hit -> (d < length ev)%nat) ->
  event_waits (mark_events base hit ev) hit
    = map EventWait (seq base (length hit)).
Proof.
  induction hit as [|[d h] hit IH]; intros base ev Hnd Hlt; [reflexivity|].
  simpl in Hnd. apply NoDup_cons in Hnd as [Hnotin Hnd].
  unfold event_waits. cbn [omap list_omap fst mark_events].
  rewrite mark_events_other by exact Hnotin.
  rewrite list_lookup_insert_eq by (apply Hlt; simpl; left).
  fold (event_waits (mark_events (S base) hit (<[d:=Some base]> ev)) hit).
  rewrite IH.
  - reflexivity.
  - exact Hnd.
  - intros d' Hd'. rewrite length_insert. apply Hlt. simpl. right. exact Hd'.
Qed.

Lemma mark_events_hit : forall hit base ev d,
  NoDup (map fst hit) ->
  (forall d', d' ∈ map fst hit -> (d' < length ev)%nat) ->
  d ∈ map fst hit ->
  exists e, mark_events base hit ev !! d = Some (Some e).
Proof.
  induction hit as [|[d' h] hit IH]; intros base ev d Hnd Hlt Hd.
  - inversion Hd.
  - simpl in Hnd, Hd. apply NoDup_cons in Hnd as [Hnotin Hnd].
    cbn [mark_events].
    destruct (decide (d ∈ map fst hit)) as [Hin|Hout].
    + apply IH; [exact Hnd| |exact Hin].
      intros d'' Hd''. rewrite length_insert. apply Hlt. simpl. right. exact Hd''.
    + apply elem_of_cons in Hd as [->|Hd]; [|contradiction].
      exists base. rewrite mark_events_other by exact Hout.
      apply list_lookup_insert_eq. apply Hlt. simpl. left.
Qed.

Lemma hits_NoDup offset size v : NoDup (map fst (hits offset size v)).
Proof.
  apply (sublist_NoDup _ (seq 0 (length (queue v))));
    [apply NoDup_seq | apply hits_on_fst].
Qed.

Lemma hits_lt offset size v d :
  d ∈ map fst (hits offset size v) -> (d < length (queue v))%nat.
Proof.
  intros Hd.
  pose proof (elem_of_sublist _ _ _ Hd
                (hits_on_fst offset size v (seq 0 (length (queue v))))) as Hin.
  apply elem_of_seq in Hin. lia.
Qed.

Lemma hits_on_empty_range offset v ds : hits_on offset 0 v ds = [].
Proof.
  induction ds as [|d ds IH]; [reflexivity|].
  rewrite hits_on_cons, IH. unfold meets.
  destruct (part v !! d) as [pd|]; [|reflexivity].
  destruct (part v !! S d) as [pd1|]; [|reflexivity].
  cbn zeta.
  assert ((Z.max offset pd <? Z.min (offset + 0) pd1) = false) as ->
    by (apply Z.ltb_ge; lia).
  reflexivity.
Qed.

(** [meets] is the intersection of the two ranges over the integers. *)
Lemma meets_spec offset size v d start stop :
  meets offset size v d = Some (start, stop) <->
  exists pd pd1,
    part v !! d = Some pd /\ part v !! S d = Some pd1 /\
    start = Z.max offset pd /\ stop = Z.min (offset + size) pd1 /\
    exists x, (offset <= x < offset + size) /\ (pd <= x < pd1).
Proof.
  unfold meets. split.
  - destruct (part v !! d) as [pd|]; [|discriminate].
    destruct (part v !! S d) as [pd1|]; [|discriminate]. cbn zeta.
    destruct (Z.ltb_spec (Z.max offset pd) (Z.min (offset + size) pd1)) as [Hlt|Hge];
      [|discriminate].
    intros H. inversion H; subst. exists pd, pd1.
    repeat split; try reflexivity. exists (Z.max offset pd). lia.
  - intros (pd & pd1 & -> & -> & -> & -> & x & Hx1 & Hx2). cbn zeta.
    assert ((Z.max offset pd <? Z.min (offset + size) pd1) = true) as ->
      by (apply Z.ltb_lt; lia).
    reflexivity.
Qed.

(** The shared range of a device holds exactly the indices that lie in
    both ranges. *)
Lemma meets_covers offset size v d pd pd1 start stop :
  part v !! d = Some pd -> part v !! S d = Some pd1 ->
  meets offset size v d = Some (start, stop) ->
  forall x, start <= x < stop <-> (offset <= x < offset + size) /\ (pd <= x < pd1).
Proof.
  intros Hpd Hpd1 Hm x. apply meets_spec in Hm as (pd' & pd1' & H1 & H2 & -> & -> & _).
  rewrite Hpd in H1. rewrite Hpd1 in H2. inversion H1; inversion H2; subst. lia.
Qed.

(** The whole of a transfer: the calls it makes and the events it
    leaves in the vector. *)
Lemma transfer_data_run sizeof_T (dir : direction) this v
  offset size hostptr (blocking : bool) r :
  let method := match dir with
                | HostToDevice => write_data
                | DeviceToHost => read_data
                end in
  let hit := hits offset size v in
  objs r !! this = Some v ->
  vector_ok sizeof_T v ->
  is_uint offset -> is_uint size ->
  offset + size < 2 ^ 32 ->
  exists cs r',
    method sizeof_T this offset size hostptr blocking r = Ok tt r' /\
    calls r' = calls r ++ cs ++
                 (if blocking
                  then map EventWait (seq (length (calls r)) (length hit))
                  else []) /\
    Forall2 (fun h c => transfer_call sizeof_T dir v offset hostptr h = Some c)
            hit cs /\
    NoDup (map fst hit) /\
    (forall d start stop,
        (d, (start, stop)) ∈ hit <->
        (d < length (queue v))%nat /\
        exists pd pd1,
          part v !! d = Some pd /\ part v !! S d = Some pd1 /\
          start = Z.max offset pd /\ stop = Z.min (offset + size) pd1 /\
          exists x, (offset <= x < offset + size) /\ (pd <= x < pd1)) /\
    objs r' = <[this := with_events v
                          (mark_events (length (calls r)) hit (event v))]> (objs r).
Proof.
  intros method hit Hobj Hok Hoff Hsz Hend.
  assert (method sizeof_T = transfer_data sizeof_T dir) as Hm
    by (destruct dir; reflexivity).
  assert (forall d start stop,
            (d, (start, stop)) ∈ hit <->
            (d < length (queue v))%nat /\
            exists pd pd1,
              part v !! d = Some pd /\ part v !! S d = Some pd1 /\
              start = Z.max offset pd /\ stop = Z.min (offset + size) pd1 /\
              exists x, (offset <= x < offset + size) /\ (pd <= x < pd1)) as Hhit.
  { intros d start stop. unfold hit, hits. rewrite hits_on_elem, meets_spec.
    rewrite elem_of_seq. intuition lia. }
  assert (with_events v (event v) = v) as Heta by (destruct v; reflexivity).
  rewrite Hm. unfold transfer_data.
  destruct (Z.eqb_spec size 0) as [->|Hnz].
  - exists [], r. unfold hit, hits in *. rewrite hits_on_empty_range in *.
    split; [reflexivity|]. split; [destruct blocking; simpl; by rewrite app_nil_r|].
    split; [constructor|]. split; [constructor|]. split; [exact Hhit|].
    simpl. rewrite Heta. symmetry. apply insert_id. exact Hobj.
  - rewrite (bind_ok _ _ _ _ _ (load_ok _ _ r Hobj)).
    destruct (transfer_parts_run sizeof_T dir this v offset size hostptr Hok Hoff Hsz Hend
                (seq 0 (length (queue v))) r (event v)) as (cs & Hcs & Hrun).
    { intros d Hd. apply elem_of_seq in Hd. lia. }
    { rewrite Heta. exact Hobj. }
    { destruct Hok as (_ & _ & He & _). exact He. }
    fold (hits offset size v) in Hcs, Hrun. fold hit in Hcs, Hrun.
    rewrite (bind_ok _ _ _ _ _ Hrun).
    assert (forall d, d ∈ map fst hit -> (d < length (event v))%nat) as Hlt.
    { intros d Hd. apply hits_lt in Hd. destruct Hok as (_ & _ & He & _). lia. }
    destruct blocking.
    + set (w := with_events v (mark_events (length (calls r)) hit (event v))).
      set (r1 := with_objs_calls r (<[this := w]> (objs r)) (calls r ++ cs)).
      rewrite (wait_parts_run sizeof_T this v offset size Hok Hoff Hsz Hend
                 (seq 0 (length (queue v))) r1 w).
      * fold (hits offset size v). fold hit.
        assert (event w = mark_events (length (calls r)) hit (event v)) as ->
          by reflexivity.
        rewrite mark_events_waits by (apply hits_NoDup || exact Hlt).
        eexists cs, _. split; [reflexivity|]. simpl.
        rewrite <- app_assoc.
        split; [reflexivity|]. split; [exact Hcs|]. split; [apply hits_NoDup|].
        split; [exact Hhit | reflexivity].
      * intros d Hd. apply elem_of_seq in Hd. lia.
      * unfold r1. simpl. apply lookup_insert_eq.
      * intros d h Hd Hmeet. unfold w. cbn [event with_events].
        apply mark_events_hit; [apply hits_NoDup | exact Hlt |].
        apply list_elem_of_fmap. exists (d, h). split; [reflexivity|].
        unfold hit, hits. apply hits_on_elem. auto.
    + eexists cs, _. split; [reflexivity|]. simpl.
      rewrite app_nil_r.
      split; [reflexivity|]. split; [exact Hcs|]. split; [apply hits_NoDup|].
      split; [exact Hhit | reflexivity].
Qed.

Section TransferExact.
Variable sizeof_T : Z.
Variables (dir : direction) (this : addr) (v : vector).
Variables (offset size : Z) (hostptr : host_ptr).
Hypothesis Hshape : vector_shape v.
Hypothesis Hsizeof : 0 < sizeof_T.
Hypothesis Hoffset : is_uint offset.
Hypothesis Hsize : is_uint size.
Hypothesis Hrange : range_end_ok offset size v.
Hypothesis Hbytes :
  forall d start stop pd,
    (d < length (queue v))%nat ->
    meets offset size v d = Some (start, stop) -> part v !! d = Some pd ->
    sizeof_T * (start - pd) < 2 ^ 32 /\ sizeof_T * (stop - start) < 2 ^ 32.

Lemma part_lookup_shape d :
  (d < length (queue v))%nat ->
  exists pd pd1, part v !! d = Some pd /\ part v !! S d = Some pd1 /\
                 is_uint pd /\ is_uint pd1.
Proof.
  intros Hd. destruct Hshape as ([Hq | Hlp] & _ & _ & Hu).
  { rewrite Hq in Hd. simpl in Hd. lia. }
  destruct (lookup_lt_is_Some_2 (part v) d ltac:(lia)) as [pd Hpd].
  destruct (lookup_lt_is_Some_2 (part v) (S d) ltac:(lia)) as [pd1 Hpd1].
  exists pd, pd1. eauto 10.
Qed.

(** The end of the range as the code computes it, in 32 bits, selects
    the same devices as the end over the integers, and where a device is
    selected the two ends agree. *)
Lemma stop_cases d pd pd1 :
  (d < length (queue v))%nat ->
  part v !! d = Some pd -> part v !! S d = Some pd1 ->
  (Z.max offset pd < Z.min (offset + size) pd1 /\
   Z.min (to_uint (offset + size)) pd1 = Z.min (offset + size) pd1) \/
  (Z.min (offset + size) pd1 <= Z.max offset pd /\
   Z.min (to_uint (offset + size)) pd1 <= Z.max offset pd).
Proof.
  intros Hd Hpd Hpd1.
  destruct Hshape as (_ & _ & _ & Hu).
  pose proof (Hu _ _ Hpd) as Hupd. pose proof (Hu _ _ Hpd1) as Hupd1.
  unfold is_uint, uint_modulus in *.
  destruct (Z_lt_ge_dec (offset + size) (2 ^ 32)) as [Hlt | Hge].
  - rewrite (to_uint_id (offset + size)) by lia. lia.
  - destruct Hrange as [? | Hbeyond]; [lia |].
    assert (to_uint (offset + size) = offset + size - 2 ^ 32) as ->.
    { unfold to_uint, uint_modulus. symmetry.
      apply (Z.mod_unique (offset + size) (2 ^ 32) 1); lia. }
    right. destruct (Z_lt_ge_dec pd pd1) as [Hne | He].
    + pose proof (Hbeyond d pd pd1 Hd Hpd Hpd1 Hne). lia.
    + lia.
Qed.

(** The first loop enqueues the expected transfers, in the order of the
    devices, and records the event of each in the vector. *)
Lemma transfer_parts_exact ds : forall r ev,
  (forall d, d ∈ ds -> (d < length (queue v))%nat) ->
  objs r !! this = Some (with_events v ev) ->
  length ev = length (queue v) ->
  exists cs,
    Forall2 (fun h c => transfer_call sizeof_T dir v offset hostptr h = Some c)
            (hits_on offset size v ds) cs /\
    transfer_parts sizeof_T dir this v offset size hostptr ds r =
      Ok tt (with_objs_calls r
               (<[this := with_events v
                            (mark_events (length (calls r))
                               (hits_on offset size v ds) ev)]> (objs r))
               (calls r ++ cs)).
Proof.
  induction ds as [|d ds IH]; intros r ev Hds Hobj Hlen.
  - exists []. split; [constructor|]. simpl.
    rewrite insert_id by exact Hobj. rewrite app_nil_r, runtime_eta. reflexivity.
  - assert (d < length (queue v))%nat as Hd by (apply Hds; left).
    destruct (part_lookup_shape d Hd) as (pd & pd1 & Hpd & Hpd1 & Hupd & Hupd1).
    assert (forall d', d' ∈ ds -> (d' < length (queue v))%nat) as Hds'
      by (intros d' Hd'; apply Hds; right; exact Hd').
    cbn [transfer_parts].
    rewrite (bind_ok _ _ _ _ _ (at_ok _ _ _ r Hpd)).
    rewrite (bind_ok _ _ _ _ _ (at_ok _ _ _ r Hpd1)).
    rewrite hits_on_cons.
    pose proof (Hbytes d (Z.max offset pd) (Z.min (offset + size) pd1) pd Hd) as Hb.
    rewrite (meets_eq _ _ _ _ _ _ Hpd Hpd1) in Hb |- *.
    destruct (stop_cases d pd pd1 Hd Hpd Hpd1) as [[Hgt Hstop] | [Hle Hlec]].
    + rewrite Hstop.
      assert ((Z.min (offset + size) pd1 <=? Z.max offset pd) = false) as ->
        by (apply Z.leb_gt; exact Hgt).
      assert ((Z.max offset pd <? Z.min (offset + size) pd1) = true) as Hltb
        by (apply Z.ltb_lt; exact Hgt).
      rewrite Hltb in Hb |- *.
      destruct (Hb eq_refl Hpd) as [Hb1 Hb2].
      destruct Hshape as (_ & Hlb & Hle & _).
      destruct (lookup_lt_is_Some_2 (queue v) d Hd) as [q Hq].
      destruct (lookup_lt_is_Some_2 (buf v) d ltac:(lia)) as [b Hbuf].
      set (start := Z.max offset pd) in *. set (stop := Z.min (offset + size) pd1) in *.
      set (c := enqueue_transfer dir q b false
                  (sizeof_T * (start - pd)) (sizeof_T * (stop - start))
                  {| block := block hostptr; index := index hostptr + (start - offset) |}).
      set (r2 := with_objs_calls r
                   (<[this := with_events v (<[d := Some (length (calls r))]> ev)]> (objs r))
                   (calls r ++ [c])).
      destruct (IH r2 (<[d := Some (length (calls r))]> ev) Hds') as (cs & Hcs & Hrun).
      { unfold r2. simpl. apply lookup_insert_eq. }
      { rewrite length_insert. exact Hlen. }
      exists (c :: cs). split.
      * constructor; [|exact Hcs]. unfold transfer_call.
        rewrite Hq, Hbuf, Hpd. reflexivity.
      * assert ((_ ← (q0 ← at_ (queue v) d;
                      b0 ← at_ (buf v) d;
                      e ← emit (enqueue_transfer dir q0 b0 false
                                  (to_uint (sizeof_T * to_uint (start - pd)))
                                  (to_uint (sizeof_T * to_uint (stop - start)))
                                  {| block := block hostptr;
                                     index := index hostptr + start - offset |});
                      set_event this d (Some e));
                 transfer_parts sizeof_T dir this v offset size hostptr ds) r
                = transfer_parts sizeof_T dir this v offset size hostptr ds r2) as ->.
        { unfold is_uint, uint_modulus in *.
          assert (0 <= start - pd < 2 ^ 32) by (unfold start, stop in *; lia).
          assert (0 <= stop - start < 2 ^ 32) by (unfold start, stop in *; lia).
          assert (0 <= sizeof_T * (start - pd)) by (apply Z.mul_nonneg_nonneg; lia).
          assert (0 <= sizeof_T * (stop - start)) by (apply Z.mul_nonneg_nonneg; lia).
          rewrite (to_uint_id (start - pd)) by lia.
          rewrite (to_uint_id (stop - start)) by lia.
          rewrite (to_uint_id (sizeof_T * (start - pd))) by lia.
          rewrite (to_uint_id (sizeof_T * (stop - start))) by lia.
          replace (index hostptr + start - offset)
            with (index hostptr + (start - offset)) by lia.
          fold c.
          unfold mbind at 1. unfold M_bind.
          rewrite (bind_ok _ _ _ _ _ (at_ok _ _ _ r Hq)).
          rewrite (bind_ok _ _ _ _ _ (at_ok _ _ _ r Hbuf)).
          unfold mbind at 1. unfold M_bind. unfold emit at 1.
          unfold set_event.
          erewrite bind_ok; [|apply load_ok; simpl; exact Hobj].
          unfold with_events at 1 2 3 4. cbn [event queue part buf].
          rewrite vec_set_Some by lia.
          unfold store. cbn [objs calls cache cout cerr].
          reflexivity. }
        rewrite Hrun. unfold r2, with_objs_calls. simpl.
        rewrite insert_insert_eq. rewrite length_app. simpl.
        rewrite Nat.add_1_r. rewrite <- app_assoc. reflexivity.
    + assert ((Z.min (to_uint (offset + size)) pd1 <=? Z.max offset pd) = true) as ->
        by (apply Z.leb_le; exact Hlec).
      assert ((Z.max offset pd <? Z.min (offset + size) pd1) = false) as ->
        by (apply Z.ltb_ge; exact Hle).
      rewrite (bind_ok _ _ r tt r) by reflexivity.
      apply IH; assumption.
Qed.

(** The second loop waits for the event that the vector holds for each
    device with a share, and for nothing else. *)
Lemma wait_parts_exact ds : forall r w,
  (forall d, d ∈ ds -> (d < length (queue v))%nat) ->
  objs r !! this = Some w ->
  (forall d h, d ∈ ds -> meets offset size v d = Some h ->
               exists e, event w !! d = Some (Some e)) ->
  wait_parts this v offset size ds r =
    Ok tt (with_objs_calls r (objs r)
             (calls r ++ event_waits (event w) (hits_on offset size v ds))).
Proof.
  induction ds as [|d ds IH]; intros r w Hds Hobj Hev.
  - simpl. rewrite app_nil_r, runtime_eta. reflexivity.
  - assert (d < length (queue v))%nat as Hd by (apply Hds; left).
    destruct (part_lookup_shape d Hd) as (pd & pd1 & Hpd & Hpd1 & Hupd & Hupd1).
    assert (forall d', d' ∈ ds -> (d' < length (queue v))%nat) as Hds'
      by (intros d' Hd'; apply Hds; right; exact Hd').
    cbn [wait_parts].
    rewrite (bind_ok _ _ _ _ _ (at_ok _ _ _ r Hpd)).
    rewrite (bind_ok _ _ _ _ _ (at_ok _ _ _ r Hpd1)).
    rewrite hits_on_cons.
    pose proof (Hev d) as Hevd.
    rewrite (meets_eq _ _ _ _ _ _ Hpd Hpd1) in Hevd |- *.
    destruct (stop_cases d pd pd1 Hd Hpd Hpd1) as [[Hgt Hstop] | [Hle Hlec]].
    + rewrite Hstop.
      assert ((Z.max offset pd <? Z.min (offset + size) pd1) = true) as Hltb
        by (apply Z.ltb_lt; exact Hgt).
      rewrite Hltb in Hevd |- *.
      destruct (Hevd _ ltac:(left) eq_refl) as [e He].
      unfold event_waits. cbn [omap list_omap fst]. rewrite He.
      fold (event_waits (event w) (hits_on offset size v ds)).
      set (r1 := with_objs_calls r (objs r) (calls r ++ [EventWait e])).
      assert ((_ ← (w0 ← load this; e0 ← at_ (event w0) d; wait e0);
               wait_parts this v offset size ds) r
              = wait_parts this v offset size ds r1) as ->.
      { unfold mbind at 1. unfold M_bind.
        rewrite (bind_ok _ _ _ _ _ (load_ok _ _ r Hobj)).
        rewrite (bind_ok _ _ _ _ _ (at_ok _ _ _ r He)).
        reflexivity. }
      rewrite (IH r1 w Hds').
      * unfold r1, with_objs_calls. simpl. rewrite <- app_assoc. reflexivity.
      * exact Hobj.
      * intros d' h Hd'. apply Hev. right. exact Hd'.
    + assert ((Z.max offset pd <? Z.min (to_uint (offset + size)) pd1) = false) as ->
        by (apply Z.ltb_ge; exact Hlec).
      assert ((Z.max offset pd <? Z.min (offset + size) pd1) = false) as ->
        by (apply Z.ltb_ge; exact Hle).
      rewrite (bind_ok _ _ r tt r) by reflexivity.
      apply IH; [exact Hds' | exact Hobj |].
      intros d' h Hd'. apply Hev. right. exact Hd'.
Qed.

End TransferExact.

(** C6, as amended.  On a vector as its constructors make it, for a
    range whose end [offset + size] does not wrap around, or that starts
    where no part that is not empty reaches, and when the byte offset
    and the byte count of every transfer to make fit a [size_t]:
    [write_data] and [read_data] enqueue exactly one transfer for each
    device whose part meets [offset, offset + size), in the order of the
    devices and for nothing else; the transfer is not blocking and covers
    the intersection (from [start - part[d]] in the buffer, from
    [start - offset] in the host array, [stop - start] elements); the
    waits follow only when [blocking] is set, one for the event of each
    of these transfers. *)
Theorem transfer_data_per_device sizeof_T (dir : direction) this v
  offset size hostptr (blocking : bool) r :
  let method := match dir with
                | HostToDevice => write_data
                | DeviceToHost => read_data
                end in
  let hit := hits offset size v in
  objs r !! this = Some v ->
  vector_shape v -> 0 < sizeof_T ->
  is_uint offset -> is_uint size ->
  range_end_ok offset size v ->
  (forall d start stop pd,
      (d, (start, stop)) ∈ hit -> part v !! d = Some pd ->
      sizeof_T * (start - pd) < 2 ^ 32 /\ sizeof_T * (stop - start) < 2 ^ 32) ->
  exists cs r',
    method sizeof_T this offset size hostptr blocking r = Ok tt r' /\
    calls r' = calls r ++ cs ++
                 (if blocking
                  then map EventWait (seq (length (calls r)) (length hit))
                  else []) /\
    Forall2 (fun h c => transfer_call sizeof_T dir v offset hostptr h = Some c)
            hit cs /\
    NoDup (map fst hit) /\
    (forall d start stop,
        (d, (start, stop)) ∈ hit <->
        (d < length (queue v))%nat /\
        exists pd pd1,
          part v !! d = Some pd /\ part v !! S d = Some pd1 /\
          start = Z.max offset pd /\ stop = Z.min (offset + size) pd1 /\
          exists x, (offset <= x < offset + size) /\ (pd <= x < pd1)) /\
    objs r' = <[this := with_events v
                          (mark_events (length (calls r)) hit (event v))]> (objs r).
Proof.
  intros method hit Hobj Hshape Hsizeof Hoff Hsz Hrange Hbytes.
  assert (method sizeof_T = transfer_data sizeof_T dir) as Hm
    by (destruct dir; reflexivity).
  assert (forall d start stop,
            (d, (start, stop)) ∈ hit <->
            (d < length (queue v))%nat /\
            exists pd pd1,
              part v !! d = Some pd /\ part v !! S d = Some pd1 /\
              start = Z.max offset pd /\ stop = Z.min (offset + size) pd1 /\
              exists x, (offset <= x < offset + size) /\ (pd <= x < pd1)) as Hhit.
  { intros d start stop. unfold hit, hits. rewrite hits_on_elem, meets_spec.
    rewrite elem_of_seq. intuition lia. }
  assert (forall d start stop pd,
            (d < length (queue v))%nat ->
            meets offset size v d = Some (start, stop) -> part v !! d = Some pd ->
            sizeof_T * (start - pd) < 2 ^ 32 /\ sizeof_T * (stop - start) < 2 ^ 32)
    as Hbytes'.
  { intros d start stop pd Hd Hmeet. apply Hbytes. unfold hit, hits.
    apply hits_on_elem. split; [apply elem_of_seq; lia | exact Hmeet]. }
  assert (with_events v (event v) = v) as Heta by (destruct v; reflexivity).
  assert (length (event v) = length (queue v)) as Hev
    by (destruct Hshape as (_ & _ & He & _); exact He).
  rewrite Hm. unfold transfer_data.
  destruct (Z.eqb_spec size 0) as [->|Hnz].
  - exists [], r. unfold hit, hits in *. rewrite hits_on_empty_range in *.
    split; [reflexivity|]. split; [destruct blocking; simpl; by rewrite app_nil_r|].
    split; [constructor|]. split; [constructor|]. split; [exact Hhit|].
    simpl. rewrite Heta. symmetry. apply insert_id. exact Hobj.
  - rewrite (bind_ok _ _ _ _ _ (load_ok _ _ r Hobj)).
    destruct (transfer_parts_exact sizeof_T dir this v offset size hostptr
                Hshape Hsizeof Hoff Hsz Hrange Hbytes'
                (seq 0 (length (queue v))) r (event v)) as (cs & Hcs & Hrun).
    { intros d Hd. apply elem_of_seq in Hd. lia. }
    { rewrite Heta. exact Hobj. }
    { exact Hev. }
    fold (hits offset size v) in Hcs, Hrun. fold hit in Hcs, Hrun.
    rewrite (bind_ok _ _ _ _ _ Hrun).
    assert (forall d, d ∈ map fst hit -> (d < length (event v))%nat) as Hlt.
    { intros d Hd. apply hits_lt in Hd. lia. }
    destruct blocking.
    + set (w := with_events v (mark_events (length (calls r)) hit (event v))).
      set (r1 := with_objs_calls r (<[this := w]> (objs r)) (calls r ++ cs)).
      rewrite (wait_parts_exact this v offset size Hshape Hoff Hsz Hrange
                 (seq 0 (length (queue v))) r1 w).
      * fold (hits offset size v). fold hit.
        assert (event w = mark_events (length (calls r)) hit (event v)) as ->
          by reflexivity.
        rewrite mark_events_waits by (apply hits_NoDup || exact Hlt).
        eexists cs, _. split; [reflexivity|]. simpl.
        rewrite <- app_assoc.
        split; [reflexivity|]. split; [exact Hcs|]. split; [apply hits_NoDup|].
        split; [exact Hhit | reflexivity].
      * intros d Hd. apply elem_of_seq in Hd. lia.
      * unfold r1. simpl. apply lookup_insert_eq.
      * intros d h Hd Hmeet. unfold w. cbn [event with_events].
        apply mark_events_hit; [apply hits_NoDup | exact Hlt |].
        apply list_elem_of_fmap. exists (d, h). split; [reflexivity|].
        unfold hit, hits. apply hits_on_elem. auto.
    + eexists cs, _. split; [reflexivity|]. simpl.
      rewrite app_nil_r.
      split; [reflexivity|]. split; [exact Hcs|]. split; [apply hits_NoDup|].
      split; [exact Hhit | reflexivity].
Qed.

Lemma wide_vector_ok : vector_ok 4 wide_vector.
Proof.
  unfold vector_ok. simpl.
  do 3 (split; [reflexivity|]). split; [lia|]. split.
  - intros [|[|[|d]]] pd H; simpl in H; try discriminate H;
      inversion H; unfold is_uint, uint_modulus; lia.
  - intros [|[|[|d]]] pd pd1 H1 H2; simpl in H1, H2; try discriminate H2;
      inversion H1; inversion H2; lia.
Defined.

Lemma wide_vector_shape : vector_shape wide_vector.
Proof.
  unfold vector_shape. simpl.
  split; [right; reflexivity |]. do 2 (split; [reflexivity |]).
  intros [|[|[|d]]] pd H; simpl in H; try discriminate H;
    inversion H; unfold is_uint, uint_modulus; lia.
Defined.

(** Ten elements from index 10 on of a vector split [0, 16), [16, 32):
    six go to the first device and four to the second. *)
Lemma transfer_data_per_device_witness :
  let r := runtime_init (<[0%nat := wide_vector]> ∅) in
  let ptr := {| block := 0; index := 0 |} in
  let hit := hits 10 10 wide_vector in
  exists cs r',
    write_data 4 0 10 10 ptr true r = Ok tt r' /\
    calls r' = calls r ++ cs ++
                 map EventWait (seq (length (calls r)) (length hit)) /\
    Forall2 (fun h c => transfer_call 4 HostToDevice wide_vector 10 ptr h = Some c)
            hit cs /\
    NoDup (map fst hit) /\
    (forall d start stop,
        (d, (start, stop)) ∈ hit <->
        (d < length (queue wide_vector))%nat /\
        exists pd pd1,
          part wide_vector !! d = Some pd /\ part wide_vector !! S d = Some pd1 /\
          start = Z.max 10 pd /\ stop = Z.min (10 + 10) pd1 /\
          exists x, (10 <= x < 10 + 10) /\ (pd <= x < pd1)) /\
    objs r' = <[0%nat := with_events wide_vector
                            (mark_events (length (calls r)) hit (event wide_vector))]>
                (objs r).
Proof.
  intros r ptr hit.
  apply (transfer_data_per_device 4 HostToDevice 0%nat wide_vector 10 10 ptr true r).
  - reflexivity.
  - exact wide_vector_shape.
  - lia.
  - unfold is_uint, uint_modulus. lia.
  - unfold is_uint, uint_modulus. lia.
  - left. lia.
  - intros d start stop pd Hin Hpd.
    change (hits 10 10 wide_vector)
      with [(0%nat, (10, 16)); (1%nat, (16, 20))] in Hin.
    apply elem_of_cons in Hin as [Heq | Hin];
      [| apply list_elem_of_singleton in Hin as Heq];
      inversion Heq; subst; simpl in Hpd; inversion Hpd; lia.
Defined.

Example write_data_trace :
  exists r',
    write_data 4 0 10 10 {| block := 0; index := 0 |} true
      (runtime_init (<[0%nat := wide_vector]> ∅)) = Ok tt r' /\
    calls r' =
      [EnqueueWriteBuffer queue0 (Some 20%nat) false 40 24 {| block := 0; index := 0 |};
       EnqueueWriteBuffer queue1 (Some 21%nat) false 0 16 {| block := 0; index := 6 |};
       EventWait 0; EventWait 1] /\
    (event <$> objs r' !! 0%nat) = Some [Some 0%nat; Some 1%nat].
Proof. eexists. split; [vm_compute; reflexivity|]. split; reflexivity. Qed.

(** C6 as stated fails when [offset + size] wraps around: elements 1 to
    3 of the only part lie in the range asked for, yet no transfer is
    enqueued. *)
Lemma write_data_range_wraps :
  let r := runtime_init (<[0%nat := small_vector]> ∅) in
  write_data 4 0 1 4294967295 {| block := 0; index := 0 |} false r = Ok tt r /\
  calls r = [] /\
  part small_vector !! 0%nat = Some 0 /\
  part small_vector !! 1%nat = Some 4 /\
  (1 <= 1 < 1 + 4294967295) /\ (0 <= 1 < 4).
Proof.
  split; [vm_compute; reflexivity|]. repeat split; lia.
Qed.

(** The bound on the bytes is needed as well.  A part of [2^29 + 1]
    elements of eight bytes: the byte offset of element [2^29] wraps to 0,
    so that the transfer of that one element goes to the start of the
    buffer. *)
Example write_data_offset_wraps :
  let r := runtime_init (<[0%nat := huge_vector]> ∅) in
  let ptr := {| block := 0; index := 0 |} in
  hits 536870912 1 huge_vector = [(0%nat, (536870912, 536870913))] /\
  transfer_call 8 HostToDevice huge_vector 536870912 ptr
    (0%nat, (536870912, 536870913))
  = Some (EnqueueWriteBuffer queue0 (Some 10%nat) false 4294967296 8 ptr) /\
  exists r',
    write_data 8 0 536870912 1 ptr false r = Ok tt r' /\
    calls r' = [EnqueueWriteBuffer queue0 (Some 10%nat) false 0 8 ptr].
Proof.
  intros r ptr. split; [reflexivity |]. split; [reflexivity |].
  eexists. split; vm_compute; reflexivity.
Qed.

(** ** The runtime: enqueue, then wait *)

Import Runtime.

Section RuntimeProperties.
Context {T : Type}.
Variable sizeof_T : Z.

Abbreviation exec_all := (Runtime.exec_all T sizeof_T).
Abbreviation exec_transfer := (Runtime.exec_transfer T sizeof_T).
Abbreviation run_calls := (Runtime.run_calls T sizeof_T).
Abbreviation run_call := (Runtime.run_call T sizeof_T).
Abbreviation complete := (Runtime.complete T sizeof_T).
Abbreviation drain := (Runtime.drain T sizeof_T).
Abbreviation state := (Runtime.Build_cl_state T).

Lemma run_calls_app cs1 : forall cs2 base st,
  run_calls base (cs1 ++ cs2) st =
    (st' ← run_calls base cs1 st; run_calls (base + length cs1) cs2 st').
Proof.
  induction cs1 as [|c cs1 IH]; intros cs2 base st.
  - simpl. rewrite Nat.add_0_r. reflexivity.
  - simpl. destruct (run_call base c st) as [st'|]; simpl; [|reflexivity].
    rewrite IH. replace (S base + length cs1)%nat with (base + S (length cs1))%nat by lia.
    reflexivity.
Qed.

Lemma run_enqueue cs : forall base m pend,
  Forall pending_transfer cs ->
  run_calls base cs (state m pend) =
    Some (state m (pend ++ zip (seq base (length cs)) cs)).
Proof.
  induction cs as [|c cs IH]; intros base m pend Hcs.
  - simpl. rewrite app_nil_r. reflexivity.
  - apply Forall_cons in Hcs as [(dir & q & b & o & n & p & ->) Hcs].
    cbn [Runtime.run_calls length seq zip zip_with].
    assert (run_call base (enqueue_transfer dir q b false o n p) (state m pend)
            = Some (state m (pend ++ [(base, enqueue_transfer dir q b false o n p)]))) as ->
      by (destruct dir; reflexivity).
    simpl. rewrite IH by exact Hcs. rewrite <- app_assoc. reflexivity.
Qed.

Lemma drain_later e q pend : forall m,
  (forall i c, (i, c) ∈ pend -> (e < i)%nat) ->
  drain e q pend m = Some (state m pend).
Proof.
  induction pend as [|[i c] pend IH]; intros m Hlater; [reflexivity|].
  cbn [Runtime.drain].
  rewrite decide_False.
  - rewrite IH; [reflexivity|]. intros i' c' Hin. apply (Hlater i' c'). right. exact Hin.
  - intros [Hle _]. specialize (Hlater i c ltac:(left)). lia.
Qed.

Lemma zip_seq_later base (cs : list cl_call) e i c :
  (e < base)%nat -> (i, c) ∈ zip (seq base (length cs)) cs -> (e < i)%nat.
Proof.
  intros Hlt Hin. apply elem_of_zip_l in Hin. apply elem_of_seq in Hin. lia.
Qed.

(** Waiting for the events of the pending commands, oldest first, runs
    them one after the other. *)
Lemma run_waits cs : forall base base' m,
  run_calls base' (map EventWait (seq base (length cs)))
    (state m (zip (seq base (length cs)) cs))
  = (m' ← exec_all cs m; Some (state m' [])).
Proof.
  induction cs as [|c cs IH]; intros base base' m; [reflexivity|].
  cbn [length seq map zip zip_with Runtime.run_calls Runtime.exec_all].
  cbn [Runtime.run_call]. unfold Runtime.complete. cbn [pending mem list_find fst].
  rewrite decide_True by reflexivity. cbn [fmap option_fmap option_map snd].
  cbn [Runtime.drain]. rewrite decide_True by (split; [lia|reflexivity]).
  destruct (exec_transfer c m) as [m1|]; [|reflexivity].
  cbn [mbind option_bind].
  rewrite drain_later by (intros i c'; apply zip_seq_later; lia).
  cbn [mbind option_bind]. apply IH.
Qed.

(** A batch of transfers followed by the waits for all of them, on an
    idle runtime, has the effect of the transfers in order. *)
Lemma run_batch cs base m :
  Forall pending_transfer cs ->
  run_calls base (cs ++ map EventWait (seq base (length cs))) (state m [])
  = (m' ← exec_all cs m; Some (state m' [])).
Proof.
  intros Hcs. rewrite run_calls_app, run_enqueue by exact Hcs.
  cbn [mbind option_bind app]. apply run_waits.
Qed.

(** Without the waits the transfers stay pending and memory is as
    before. *)
Lemma run_no_wait cs base m :
  Forall pending_transfer cs ->
  run_calls base cs (state m []) = Some (state m (zip (seq base (length cs)) cs)).
Proof. intros Hcs. apply (run_enqueue cs base m [] Hcs). Qed.

End RuntimeProperties.

(** ** Slices of lists *)

Section Slices.
Context {T : Type}.
Implicit Types l data : list T.

Lemma slice_length l i n :
  (i + n <= length l)%nat -> length (Runtime.slice T l i n) = n.
Proof.
  intros H. unfold Runtime.slice. rewrite length_take, length_drop. lia.
Qed.

Lemma slice_full l : Runtime.slice T l 0 (length l) = l.
Proof. unfold Runtime.slice. rewrite drop_0. apply firstn_all. Qed.

Lemma splice_full l data :
  length data = length l -> Runtime.splice T l 0 data = data.
Proof.
  intros H. unfold Runtime.splice. rewrite take_0. simpl.
  rewrite H, drop_all. apply app_nil_r.
Qed.

(** Writing the next [k] elements of [data] after a prefix of [data]
    gives a longer prefix of [data]. *)
Lemma splice_prefix data out0 a k :
  length out0 = length data ->
  (a + k <= length data)%nat ->
  Runtime.splice T (take a data ++ drop a out0) a (Runtime.slice T data a k)
  = take (a + k) data ++ drop (a + k) out0.
Proof.
  intros Hlen Hak. unfold Runtime.splice.
  rewrite slice_length by exact Hak.
  assert (length (take a data) = a) as Hta by (rewrite length_take; lia).
  rewrite take_app_length' by (symmetry; exact Hta).
  rewrite drop_app_ge by lia. rewrite Hta.
  rewrite drop_drop. replace (a + (a + k - a))%nat with (a + k)%nat by lia.
  unfold Runtime.slice. rewrite app_assoc, take_take_drop. reflexivity.
Qed.

End Slices.

(** ** The round trip through the device *)

Section RoundTrip.
Context {T : Type}.
Variable sizeof_T : Z.
Variable v : vector.
Variable n : Z.
Variable data : list T.
Hypothesis Hok : vector_ok sizeof_T v.
Hypothesis Hpart : partition_ok v n.
Hypothesis Hdata : Z.of_nat (length data) = n.

Abbreviation mem_of := (Runtime.memory T).
Abbreviation slice_of := (Runtime.slice T).

Lemma part_mono k : forall d a b,
  part v !! d = Some a -> part v !! (d + k)%nat = Some b -> a <= b.
Proof.
  destruct Hpart as (_ & _ & Hmono).
  induction k as [|k IH]; intros d a b Ha Hb.
  - rewrite Nat.add_0_r in Hb. rewrite Ha in Hb. inversion Hb. lia.
  - replace (d + S k)%nat with (S (d + k)) in Hb by lia.
    destruct (lookup_lt_is_Some_2 (part v) (d + k)) as [c Hc].
    { apply lookup_lt_Some in Hb. lia. }
    specialize (IH d a c Ha Hc). specialize (Hmono _ _ _ Hc Hb). lia.
Qed.

Lemma part_bounds d pd : part v !! d = Some pd -> 0 <= pd <= n.
Proof.
  intros Hd. destruct Hpart as (H0 & Hlast & _).
  destruct Hok as (Hlen & _).
  pose proof (lookup_lt_Some _ _ _ Hd) as Hlt.
  rewrite last_lookup, Hlen in Hlast. simpl in Hlast.
  split.
  - apply (part_mono d 0%nat 0 pd H0). simpl. exact Hd.
  - apply (part_mono (length (queue v) - d) d pd n Hd).
    replace (d + (length (queue v) - d))%nat with (length (queue v)) by lia.
    exact Hlast.
Qed.

Lemma meets_whole d pd pd1 :
  part v !! d = Some pd -> part v !! S d = Some pd1 ->
  meets 0 n v d = if pd <? pd1 then Some (pd, pd1) else None.
Proof.
  intros Hd Hd1. rewrite (meets_eq _ _ _ _ _ _ Hd Hd1).
  pose proof (part_bounds _ _ Hd). pose proof (part_bounds _ _ Hd1).
  rewrite Z.max_r, Z.min_r by lia. reflexivity.
Qed.

Lemma bytes_elems k : sizeof_T * k / sizeof_T = k.
Proof.
  destruct Hok as (_ & _ & _ & Hs & _).
  rewrite Z.mul_comm. apply Z.div_mul. lia.
Qed.

(** Buffers stay well-formed when one of them gets new contents of the
    same length. *)
Lemma buffers_ok_insert (m : mem_of) b content new :
  buffers_ok v m ->
  Runtime.device m !! b = Some content ->
  length new = length content ->
  buffers_ok v {| Runtime.device := <[b := new]> (Runtime.device m);
                  Runtime.host := Runtime.host m |}.
Proof.
  intros [Hall Hinj] Hb Hlen. split; [|exact Hinj].
  intros d pd pd1 Hd Hd1 Hlt.
  destruct (Hall d pd pd1 Hd Hd1 Hlt) as (b' & content' & Hbuf & Hdev & Hl).
  exists b'. simpl. destruct (decide (b = b')) as [->|Hne].
  - exists new. rewrite lookup_insert_eq. rewrite Hdev in Hb. inversion Hb; subst.
    split; [exact Hbuf|]. split; [reflexivity|]. lia.
  - exists content'. rewrite lookup_insert_ne by exact Hne. auto.
Qed.

(** The scatter: after the writes of the devices [d0, d0 + k), each of
    their buffers holds its slice of the host data. *)
Lemma exec_writes (hin : nat) k : forall d0 cs (m : mem_of),
  Forall2 (fun h c => transfer_call sizeof_T HostToDevice v 0
                        {| block := hin; index := 0 |} h = Some c)
          (hits_on 0 n v (seq d0 k)) cs ->
  (d0 + k <= length (queue v))%nat ->
  Runtime.host m !! hin = Some data ->
  buffers_ok v m ->
  exists m',
    Runtime.exec_all T sizeof_T cs m = Some m' /\
    Runtime.host m' = Runtime.host m /\
    buffers_ok v m' /\
    (forall b, (forall d, (d0 <= d < d0 + k)%nat -> buf v !! d <> Some (Some b)) ->
               Runtime.device m' !! b = Runtime.device m !! b) /\
    (forall d pd pd1 b,
        (d0 <= d < d0 + k)%nat ->
        part v !! d = Some pd -> part v !! S d = Some pd1 -> pd < pd1 ->
        buf v !! d = Some (Some b) ->
        Runtime.device m' !! b
          = Some (slice_of data (Z.to_nat pd) (Z.to_nat (pd1 - pd)))).
Proof.
  induction k as [|k IH]; intros d0 cs m Hcs Hk Hin Hbuf.
  - simpl in Hcs. apply Forall2_nil_inv_l in Hcs as ->. exists m. simpl.
    split; [reflexivity|]. split; [reflexivity|]. split; [exact Hbuf|].
    split; [reflexivity|]. intros; lia.
  - cbn [seq] in Hcs. rewrite hits_on_cons in Hcs.
    destruct (part_lookup sizeof_T v Hok d0 ltac:(lia))
      as (pd & pd1 & Hd & Hd1 & Hu & Hu1 & Hbytes).
    rewrite (meets_whole _ _ _ Hd Hd1) in Hcs.
    pose proof (part_bounds _ _ Hd) as Hb0. pose proof (part_bounds _ _ Hd1) as Hb1.
    destruct (Z.ltb_spec pd pd1) as [Hlt|Hge].
    + apply Forall2_cons_inv_l in Hcs as (c & cs' & Hc & Hcs' & ->).
      destruct Hbuf as [Hall Hinj].
      destruct (Hall d0 pd pd1 Hd Hd1 Hlt) as (b & content & Hb & Hdev & Hl).
      destruct (lookup_lt_is_Some_2 (queue v) d0 ltac:(lia)) as [q Hq].
      rewrite (transfer_call_eq _ _ _ _ _ _ _ _ _ _ _ Hq Hb Hd) in Hc.
      inversion Hc; subst c. clear Hc.
      set (new := slice_of data (Z.to_nat pd) (Z.to_nat (pd1 - pd))).
      assert (length new = length content) as Hnew.
      { unfold new. rewrite slice_length; lia. }
      set (m1 := {| Runtime.device := <[b := new]> (Runtime.device m);
                    Runtime.host := Runtime.host m |}).
      assert (Runtime.exec_transfer T sizeof_T
                (EnqueueWriteBuffer q (Some b) false (sizeof_T * (pd - pd))
                   (sizeof_T * (pd1 - pd))
                   {| block := hin; index := 0 + (pd - 0) |}) m = Some m1) as Hexec.
      { cbn [Runtime.exec_transfer]. rewrite Hdev. simpl mbind. cbn [block index].
        rewrite Hin. simpl mbind. rewrite !bytes_elems.
        replace (0 + (pd - 0)) with pd by lia.
        rewrite decide_True by (split; [lia|split; lia]).
        rewrite Z.sub_diag. change (Z.to_nat 0) with 0%nat.
        rewrite splice_full by exact Hnew. reflexivity. }
      destruct (IH (S d0) cs' m1 Hcs' ltac:(lia) Hin) as (m' & Hrun & Hhost & Hbuf' & Hframe & Hsl).
      { apply (buffers_ok_insert m b content new); [split; assumption | exact Hdev | exact Hnew]. }
      exists m'. cbn [Runtime.exec_all enqueue_transfer block index].
      rewrite Hexec. simpl mbind.
      split; [exact Hrun|]. split; [exact Hhost|]. split; [exact Hbuf'|]. split.
      * intros b' Hb'. rewrite Hframe by (intros d Hdr; apply Hb'; lia).
        simpl. apply lookup_insert_ne. intros ->. apply (Hb' d0); [lia | exact Hb].
      * intros d pd' pd1' b' Hdr Hpd' Hpd1' Hlt' Hb'.
        destruct (decide (d = d0)) as [->|Hne].
        -- rewrite Hd in Hpd'. rewrite Hd1 in Hpd1'. rewrite Hb in Hb'.
           inversion Hpd'; inversion Hpd1'; inversion Hb'; subst.
           rewrite Hframe.
           ++ simpl. apply lookup_insert_eq.
           ++ intros d Hdr' Hbd. specialize (Hinj _ _ _ Hbd Hb). lia.
        -- apply (Hsl d pd' pd1' b'); try assumption. lia.
    + destruct (IH (S d0) cs m Hcs ltac:(lia) Hin Hbuf) as (m' & Hrun & Hhost & Hbuf' & Hframe & Hsl).
      exists m'. split; [exact Hrun|]. split; [exact Hhost|]. split; [exact Hbuf'|]. split.
      * intros b' Hb'. apply Hframe. intros d Hdr. apply Hb'. lia.
      * intros d pd' pd1' b' Hdr Hpd' Hpd1' Hlt' Hb'.
        destruct (decide (d = d0)) as [->|Hne].
        -- rewrite Hd in Hpd'. rewrite Hd1 in Hpd1'.
           inversion Hpd'; inversion Hpd1'; subst. lia.
        -- apply (Hsl d pd' pd1' b'); try assumption. lia.
Qed.

Lemma buffers_ok_device (m m1 : mem_of) :
  Runtime.device m1 = Runtime.device m -> buffers_ok v m -> buffers_ok v m1.
Proof. intros E [Hall Hinj]. split; [|exact Hinj]. rewrite E. exact Hall. Qed.

Variable out0 : list T.
Hypothesis Hout0 : length out0 = length data.

(** The gather: after the reads of the devices [d0, d0 + k), the host
    array holds the host data up to the end of the last of these parts. *)
Lemma exec_reads (hout : nat) k : forall d0 cs (m : mem_of) pd0,
  Forall2 (fun h c => transfer_call sizeof_T DeviceToHost v 0
                        {| block := hout; index := 0 |} h = Some c)
          (hits_on 0 n v (seq d0 k)) cs ->
  (d0 + k <= length (queue v))%nat ->
  part v !! d0 = Some pd0 ->
  Runtime.host m !! hout
    = Some (take (Z.to_nat pd0) data ++ drop (Z.to_nat pd0) out0) ->
  buffers_ok v m ->
  (forall d pd pd1 b,
      part v !! d = Some pd -> part v !! S d = Some pd1 -> pd < pd1 ->
      buf v !! d = Some (Some b) ->
      Runtime.device m !! b
        = Some (slice_of data (Z.to_nat pd) (Z.to_nat (pd1 - pd)))) ->
  exists m' pdk,
    Runtime.exec_all T sizeof_T cs m = Some m' /\
    part v !! (d0 + k)%nat = Some pdk /\
    Runtime.host m' !! hout
      = Some (take (Z.to_nat pdk) data ++ drop (Z.to_nat pdk) out0) /\
    Runtime.device m' = Runtime.device m.
Proof.
  induction k as [|k IH]; intros d0 cs m pd0 Hcs Hk Hd0 Hhost Hbuf Hsl.
  - simpl in Hcs. apply Forall2_nil_inv_l in Hcs as ->. exists m, pd0. simpl.
    rewrite Nat.add_0_r. auto.
  - cbn [seq] in Hcs. rewrite hits_on_cons in Hcs.
    destruct (part_lookup sizeof_T v Hok d0 ltac:(lia))
      as (pd & pd1 & Hd & Hd1 & Hu & Hu1 & Hbytes).
    rewrite Hd0 in Hd. inversion Hd as [E]. clear Hd. rename Hd0 into Hd.
    rewrite <- E in *. clear E pd.
    rewrite (meets_whole _ _ _ Hd Hd1) in Hcs.
    pose proof (part_bounds _ _ Hd) as Hb0. pose proof (part_bounds _ _ Hd1) as Hb1.
    replace (d0 + S k)%nat with (S d0 + k)%nat by lia.
    destruct (Z.ltb_spec pd0 pd1) as [Hlt|Hge].
    + apply Forall2_cons_inv_l in Hcs as (c & cs' & Hc & Hcs' & ->).
      destruct Hbuf as [Hall Hinj].
      destruct (Hall d0 pd0 pd1 Hd Hd1 Hlt) as (b & content & Hb & Hdev & Hl).
      destruct (lookup_lt_is_Some_2 (queue v) d0 ltac:(lia)) as [q Hq].
      rewrite (transfer_call_eq _ _ _ _ _ _ _ _ _ _ _ Hq Hb Hd) in Hc.
      inversion Hc as [Ec]. clear Hc.
      pose proof (Hsl d0 pd0 pd1 b Hd Hd1 Hlt Hb) as Hsrc.
      set (src := slice_of data (Z.to_nat pd0) (Z.to_nat (pd1 - pd0))) in *.
      assert (length src = Z.to_nat (pd1 - pd0)) as Hsrclen
        by (unfold src; rewrite slice_length; lia).
      set (out := take (Z.to_nat pd0) data ++ drop (Z.to_nat pd0) out0) in *.
      assert (length out = length data) as Houtlen.
      { unfold out. rewrite length_app, length_take, length_drop. lia. }
      set (m1 := {| Runtime.device := Runtime.device m;
                    Runtime.host :=
                      <[hout := take (Z.to_nat pd1) data ++ drop (Z.to_nat pd1) out0]>
                        (Runtime.host m) |}).
      assert (Runtime.exec_transfer T sizeof_T
                (EnqueueReadBuffer q (Some b) false (sizeof_T * (pd0 - pd0))
                   (sizeof_T * (pd1 - pd0))
                   {| block := hout; index := 0 + (pd0 - 0) |}) m = Some m1) as Hexec.
      { cbn [Runtime.exec_transfer]. rewrite Hsrc. simpl mbind. cbn [block index].
        rewrite Hhost. simpl mbind. rewrite !bytes_elems.
        replace (0 + (pd0 - 0)) with pd0 by lia.
        rewrite decide_True by (split; [lia|split; lia]).
        rewrite Z.sub_diag. change (Z.to_nat 0) with 0%nat.
        rewrite <- Hsrclen, slice_full. unfold m1. do 3 f_equal.
        unfold out, src. rewrite splice_prefix by (exact Hout0 || lia).
        replace (Z.to_nat pd0 + Z.to_nat (pd1 - pd0))%nat with (Z.to_nat pd1) by lia.
        reflexivity. }
      destruct (IH (S d0) cs' m1 pd1 Hcs' ltac:(lia) Hd1) as (m' & pdk & Hrun & Hpk & Hh & Hdv).
      { unfold m1. simpl. apply lookup_insert_eq. }
      { apply (buffers_ok_device m); [reflexivity | split; assumption]. }
      { exact Hsl. }
      exists m', pdk. cbn [Runtime.exec_all enqueue_transfer block index].
      rewrite Hexec. simpl mbind. auto.
    + assert (pd1 = pd0) as -> by (destruct Hpart as (_ & _ & Hm); specialize (Hm _ _ _ Hd Hd1); lia).
      apply (IH (S d0) cs m pd0 Hcs ltac:(lia) Hd1 Hhost Hbuf Hsl).
Qed.

Lemma vector_ok_with_events ev :
  length ev = length (queue v) -> vector_ok sizeof_T (with_events v ev).
Proof.
  intros Hev. destruct Hok as (H1 & H2 & H3 & H4 & H5 & H6).
  unfold vector_ok, with_events. simpl. auto 10.
Qed.

Lemma transfer_calls_pending dir offset hostptr hit cs :
  Forall2 (fun h c => transfer_call sizeof_T dir v offset hostptr h = Some c) hit cs ->
  Forall pending_transfer cs.
Proof.
  induction 1 as [|[d [start stop]] c hit cs Hc _ IH]; constructor; [|exact IH].
  unfold transfer_call in Hc.
  destruct (queue v !! d) as [q|]; [|discriminate].
  destruct (buf v !! d) as [b|]; [|discriminate].
  destruct (part v !! d) as [pd|]; [|discriminate].
  inversion Hc. unfold pending_transfer. eauto 10.
Qed.

Lemma size_is_n : size v = n.
Proof. destruct Hpart as (_ & Hlast & _). unfold size. rewrite Hlast. reflexivity. Qed.

Lemma n_is_uint : is_uint n.
Proof.
  destruct Hpart as (_ & Hlast & _). destruct Hok as (_ & _ & _ & _ & Hu & _).
  rewrite last_lookup in Hlast. apply (Hu _ _ Hlast).
Qed.

(** C3: writing the host vector [data] to a device vector of the same
    length with [copy] and reading it back with [copy] leaves [data] in
    the host array that was read into, whatever the partition and
    whatever the array held before.  The calls that the two copies make
    are run by the in-order queues of the runtime, starting idle. *)
Theorem copy_round_trip (this : addr) (hin hout : nat) (r : runtime) (m : mem_of) :
  objs r !! this = Some v ->
  buffers_ok v m ->
  Runtime.host m !! hin = Some data ->
  Runtime.host m !! hout = Some out0 ->
  exists r1 r2 trace st,
    copy_to_device sizeof_T hin this true r = Ok tt r1 /\
    copy_to_host sizeof_T this hout true r1 = Ok tt r2 /\
    calls r2 = calls r ++ trace /\
    Runtime.run_calls T sizeof_T (length (calls r)) trace
      (Runtime.Build_cl_state T m []) = Some st /\
    Runtime.pending st = [] /\
    Runtime.host (Runtime.mem st) !! hout = Some data.
Proof.
  intros Hobj Hbuf Hin Hout.
  pose proof n_is_uint as Hn. pose proof size_is_n as Hsize.
  assert (0 + n < 2 ^ 32) as Hend by (unfold is_uint, uint_modulus in Hn; lia).
  assert (is_uint 0) as H0 by (unfold is_uint, uint_modulus; lia).
  (* the write *)
  destruct (transfer_data_run sizeof_T HostToDevice this v 0 n
              {| block := hin; index := 0 |} true r Hobj Hok H0 Hn Hend)
    as (cs_w & r1 & Hrun_w & Hcalls_w & Hcs_w & _ & _ & Hobjs_w).
  set (hit := hits 0 n v) in *.
  set (ev1 := mark_events (length (calls r)) hit (event v)) in *.
  assert (objs r1 !! this = Some (with_events v ev1)) as Hobj1
    by (rewrite Hobjs_w; apply lookup_insert_eq).
  assert (length ev1 = length (queue v)) as Hev1.
  { unfold ev1. rewrite mark_events_length. destruct Hok as (_ & _ & He & _). exact He. }
  (* the read *)
  destruct (transfer_data_run sizeof_T DeviceToHost this (with_events v ev1) 0 n
              {| block := hout; index := 0 |} true r1 Hobj1
              (vector_ok_with_events ev1 Hev1) H0 Hn Hend)
    as (cs_r & r2 & Hrun_r & Hcalls_r & Hcs_r & _ & _ & _).
  change (hits 0 n (with_events v ev1)) with hit in Hcalls_r, Hcs_r.
  assert (Forall2 (fun h c => transfer_call sizeof_T DeviceToHost v 0
                                {| block := hout; index := 0 |} h = Some c) hit cs_r)
    as Hcs_r' by exact Hcs_r.
  clear Hcs_r.
  pose proof (Forall2_length _ _ _ Hcs_w) as Hlw.
  pose proof (Forall2_length _ _ _ Hcs_r') as Hlr.
  (* the memory after the two batches *)
  destruct (exec_writes hin (length (queue v)) 0%nat cs_w m Hcs_w ltac:(lia) Hin Hbuf)
    as (m1 & Hex_w & Hhost1 & Hbuf1 & _ & Hsl).
  destruct (exec_reads hout (length (queue v)) 0%nat cs_r m1 0 Hcs_r' ltac:(lia))
    as (m2 & pdk & Hex_r & Hpk & Hhost2 & _).
  { destruct Hpart as (Hp0 & _). exact Hp0. }
  { rewrite Hhost1. simpl. rewrite drop_0. exact Hout. }
  { exact Hbuf1. }
  { intros d pd pd1 b Hd Hd1 Hlt Hb. apply (Hsl d pd pd1 b); try assumption.
    apply lookup_lt_Some in Hb. destruct Hok as (_ & Hlb & _). lia. }
  assert (pdk = n) as ->.
  { destruct Hpart as (_ & Hlast & _). destruct Hok as (Hlen & _).
    rewrite last_lookup, Hlen in Hlast. simpl in Hlast, Hpk. congruence. }
  rewrite take_ge, drop_ge in Hhost2 by lia. rewrite app_nil_r in Hhost2.
  exists r1, r2,
    ((cs_w ++ map EventWait (seq (length (calls r)) (length hit)))
       ++ (cs_r ++ map EventWait (seq (length (calls r1)) (length hit)))),
    (Runtime.Build_cl_state T m2 []).
  split.
  { unfold copy_to_device. rewrite (bind_ok _ _ _ _ _ (load_ok _ _ r Hobj)).
    rewrite Hsize. exact Hrun_w. }
  split.
  { unfold copy_to_host. rewrite (bind_ok _ _ _ _ _ (load_ok _ _ r1 Hobj1)).
    change (size (with_events v ev1)) with (size v). rewrite Hsize. exact Hrun_r. }
  split.
  { rewrite Hcalls_r, Hcalls_w. rewrite <- !app_assoc. reflexivity. }
  split; [|split; [reflexivity | exact Hhost2]].
  rewrite run_calls_app. rewrite Hlw.
  rewrite run_batch by (eapply transfer_calls_pending; exact Hcs_w).
  rewrite Hex_w. simpl mbind.
  replace (length (calls r) + length (cs_w ++ map EventWait (seq (length (calls r)) (length cs_w))))%nat
    with (length (calls r1))
    by (rewrite Hcalls_w, <- Hlw, !length_app; reflexivity).
  rewrite <- Hlw, Hlr.
  rewrite run_batch by (eapply transfer_calls_pending; exact Hcs_r').
  rewrite Hex_r. reflexivity.
Qed.

End RoundTrip.

Lemma uneven_vector_ok : vector_ok 4 uneven_vector.
Proof.
  unfold vector_ok. simpl.
  do 3 (split; [reflexivity|]). split; [lia|]. split.
  - intros [|[|[|[|d]]]] pd H; simpl in H; try discriminate H;
      inversion H; unfold is_uint, uint_modulus; lia.
  - intros [|[|[|[|d]]]] pd pd1 H1 H2; simpl in H1, H2; try discriminate H2;
      inversion H1; inversion H2; lia.
Defined.

Lemma uneven_partition_ok : partition_ok uneven_vector 5.
Proof.
  unfold partition_ok. simpl. do 2 (split; [reflexivity|]).
  intros [|[|[|[|d]]]] pd pd1 H1 H2; simpl in H1, H2; try discriminate H2;
    inversion H1; inversion H2; lia.
Defined.

Lemma uneven_buffers_ok : buffers_ok uneven_vector uneven_memory.
Proof.
  split.
  - intros [|[|[|[|d]]]] pd pd1 H1 H2 Hlt; simpl in H1, H2; try discriminate H2;
      inversion H1; inversion H2; subst; try lia.
    + exists 30%nat, [9; 9]. repeat split; reflexivity.
    + exists 32%nat, [9; 9; 9]. repeat split; reflexivity.
  - intros [|[|[|d]]] [|[|[|d']]] b H1 H2; simpl in H1, H2;
      try discriminate H1; try discriminate H2; try reflexivity;
      inversion H1; inversion H2; subst; discriminate.
Defined.

(** Five numbers through three devices, one of them with nothing to
    hold. *)
Lemma copy_round_trip_witness :
  let r := runtime_init (<[0%nat := uneven_vector]> ∅) in
  exists r1 r2 trace st,
    copy_to_device 4 0 0 true r = Ok tt r1 /\
    copy_to_host 4 0 1 true r1 = Ok tt r2 /\
    calls r2 = calls r ++ trace /\
    Runtime.run_calls Z 4 (length (calls r)) trace
      (Runtime.Build_cl_state Z uneven_memory []) = Some st /\
    Runtime.pending st = [] /\
    Runtime.host (Runtime.mem st) !! 1%nat = Some [1; 2; 3; 4; 5].
Proof.
  intros r.
  apply (copy_round_trip 4 uneven_vector 5 [1; 2; 3; 4; 5]
           uneven_vector_ok uneven_partition_ok eq_refl
           [0; 0; 0; 0; 0] eq_refl 0%nat 0%nat 1%nat r uneven_memory).
  - reflexivity.
  - exact uneven_buffers_ok.
  - reflexivity.
  - reflexivity.
Defined.

(** The same run, computed; and the same read without blocking, after
    which the host array is not yet filled. *)
Example round_trip_computed :
  exists r1 r2,
    copy_to_device 4 0 0 true (runtime_init (<[0%nat := uneven_vector]> ∅)) = Ok tt r1 /\
    copy_to_host 4 0 1 true r1 = Ok tt r2 /\
    calls r2 =
      [EnqueueWriteBuffer queue0 (Some 30%nat) false 0 8 {| block := 0; index := 0 |};
       EnqueueWriteBuffer queue0 (Some 32%nat) false 0 12 {| block := 0; index := 2 |};
       EventWait 0; EventWait 1;
       EnqueueReadBuffer queue0 (Some 30%nat) false 0 8 {| block := 1; index := 0 |};
       EnqueueReadBuffer queue0 (Some 32%nat) false 0 12 {| block := 1; index := 2 |};
       EventWait 4; EventWait 5] /\
    (Runtime.host ∘ Runtime.mem <$>
       Runtime.run_calls Z 4 0 (calls r2) (Runtime.Build_cl_state Z uneven_memory []))
      = Some (<[1%nat := [1; 2; 3; 4; 5]]> (Runtime.host uneven_memory)).
Proof.
  do 2 eexists. split; [vm_compute; reflexivity|].
  split; [vm_compute; reflexivity|]. split; vm_compute; reflexivity.
Qed.

Example copy_without_blocking :
  exists r1 r2 st,
    copy_to_device 4 0 0 true (runtime_init (<[0%nat := uneven_vector]> ∅)) = Ok tt r1 /\
    copy_to_host 4 0 1 false r1 = Ok tt r2 /\
    Runtime.run_calls Z 4 0 (calls r2) (Runtime.Build_cl_state Z uneven_memory [])
      = Some st /\
    Runtime.host (Runtime.mem st) !! 1%nat = Some [0; 0; 0; 0; 0] /\
    length (Runtime.pending st) = 2%nat.
Proof.
  do 3 eexists. split; [vm_compute; reflexivity|].
  split; [vm_compute; reflexivity|]. split; [vm_compute; reflexivity|].
  split; reflexivity.
Qed.

(** ** Compound assignment *)

Section CompoundProperties.
Variables kernel_name_of user_functions_of parameters_of body_of : expr -> string.
Variables standard_kernel_header type_name_T : string.
Variable builds : cl_context -> string -> bool.
Variable build_log : cl_context -> string -> string.
Variable work_group_info : Kernel -> Device -> Z.

Abbreviation assign_expr :=
  (assign kernel_name_of user_functions_of parameters_of body_of
     standard_kernel_header type_name_T builds build_log work_group_info).
Abbreviation compound :=
  (compound_assignment kernel_name_of user_functions_of parameters_of body_of
     standard_kernel_header type_name_T builds build_log work_group_info).

(** C8: for each of the ten compound operators, [x op= e] is the
    assignment [x = x op e]: the same outcome from every state of the
    runtime. *)
Theorem compound_assignment_is_assignment (cop : compound_token)
  (x : addr) (e : expr) (r : runtime) :
  compound cop x e r = assign_expr x (Binary (operator_of cop) (Vec x) e) r.
Proof. destruct cop; reflexivity. Qed.

End CompoundProperties.

(** ** The kernel cache *)

Lemma cache_with_cache_eq r s x : cache (with_cache r s x) s = x.
Proof. unfold with_cache. cbn [cache]. rewrite decide_True by reflexivity. reflexivity. Qed.

Lemma cache_with_cache_ne r s s' x : s' <> s -> cache (with_cache r s x) s' = cache r s'.
Proof. intros H. unfold with_cache. cbn [cache]. rewrite decide_False by exact H. reflexivity. Qed.

Lemma keeps_entries_refl r : keeps_entries r r.
Proof. intros s c H. auto. Qed.

Lemma keeps_entries_trans r1 r2 r3 :
  keeps_entries r1 r2 -> keeps_entries r2 r3 -> keeps_entries r1 r3.
Proof.
  intros H12 H23 s c H. destruct (H12 s c H) as [H2 E2].
  destruct (H23 s c H2) as [H3 E3]. split; [exact H3|]. congruence.
Qed.

Lemma to_build_ext (f g : cl_context -> bool) qs :
  (forall c, f c = g c) -> to_build f qs = to_build g qs.
Proof.
  revert f g. induction qs as [|q qs IH]; intros f g Hfg; [reflexivity|].
  simpl. rewrite (Hfg (qctx q)). destruct (g (qctx q)).
  - apply IH. exact Hfg.
  - f_equal. apply IH. intros c. rewrite Hfg. reflexivity.
Qed.

Lemma to_build_elem qs : forall (have : cl_context -> bool) c,
  c ∈ to_build have qs <-> have c = false /\ c ∈ map qctx qs.
Proof.
  induction qs as [|q qs IH]; intros have c.
  - simpl. split; [intros H; inversion H | intros [_ H]; inversion H].
  - simpl. destruct (have (qctx q)) eqn:E.
    + rewrite IH. rewrite elem_of_cons. split.
      * intros [H1 H2]. auto.
      * intros [H1 [->|H2]]; [congruence | auto].
    + rewrite !elem_of_cons, IH. split.
      * intros [->|[H1 H2]]; [auto|].
        apply orb_false_iff in H1 as [_ H1]. auto.
      * intros [H1 [->|H2]]; [auto|].
        destruct (decide (c = qctx q)) as [->|Hne]; [auto|].
        right. split; [|exact H2]. rewrite bool_decide_eq_false_2 by exact Hne.
        exact H1.
Qed.



Section CacheProperties.
Variables kernel_name_of user_functions_of parameters_of body_of : expr -> string.
Variables standard_kernel_header type_name_T : string.
Variable builds : cl_context -> string -> bool.
Variable build_log : cl_context -> string -> string.
Variable work_group_info : Kernel -> Device -> Z.

Abbreviation source_of :=
  (kernel_source kernel_name_of user_functions_of parameters_of body_of
     standard_kernel_header type_name_T).
Abbreviation compile_one :=
  (compile_for kernel_name_of user_functions_of parameters_of body_of
     standard_kernel_header type_name_T builds build_log work_group_info).
Abbreviation compile_queues :=
  (compile_all kernel_name_of user_functions_of parameters_of body_of
     standard_kernel_header type_name_T builds build_log work_group_info).
Abbreviation assign_to :=
  (assign kernel_name_of user_functions_of parameters_of body_of
     standard_kernel_header type_name_T builds build_log work_group_info).

Lemma compile_for_hit e q r :
  has_entry r (shape_of e) (qctx q) -> compile_one e q r = Ok tt r.
Proof.
  intros H. unfold compile_for, mbind, M_bind, index_compiled.
  unfold has_entry in H. rewrite H. reflexivity.
Qed.

Lemma compile_for_miss e q r :
  ~ has_entry r (shape_of e) (qctx q) ->
  builds (qctx q) (source_of e) = true ->
  let k := {| kernel_program := Some (length (calls r));
              kernel_name := kernel_name_of e |} in
  exists r',
    compile_one e q r = Ok tt r' /\
    calls r' = calls r ++ [BuildProgram (qctx q) (source_of e)] /\
    recorded r r' (shape_of e) (qctx q) k
      (Util.kernel_workgroup_size work_group_info k [qdev q]).
Proof.
  intros Hno Hb k. unfold has_entry in Hno.
  unfold compile_for, mbind, M_bind, index_compiled.
  set (s := shape_of e) in *. set (c := qctx q) in *.
  set (src := source_of e) in *.
  destruct (compiled (cache r s) !! c) as [[|]|] eqn:E; [contradiction| |].
  - cbn [negb]. unfold build_sources, mbind, M_bind, emit. rewrite Hb.
    unfold mret, M_ret, set_kernel, set_compiled, index_kernel, set_wgsize.
    rewrite !cache_with_cache_eq. cbn [kernel compiled wgsize calls objs cout cerr with_cache].
    rewrite lookup_insert_eq.
    eexists. split; [reflexivity|]. split; [reflexivity|].
    unfold recorded. cbn [objs cout cerr].
    do 3 (split; [reflexivity|]). split.
    + intros s' Hne. rewrite !cache_with_cache_ne by exact Hne. reflexivity.
    + rewrite !cache_with_cache_eq. cbn [kernel compiled wgsize]. auto.
  - cbn [negb]. unfold build_sources, mbind, M_bind, emit.
    cbn [calls objs cout cerr with_cache]. rewrite Hb.
    unfold mret, M_ret, set_kernel, set_compiled, index_kernel, set_wgsize.
    rewrite !cache_with_cache_eq. cbn [kernel compiled wgsize calls objs cout cerr with_cache].
    rewrite lookup_insert_eq.
    eexists. split; [reflexivity|]. split; [reflexivity|].
    unfold recorded. cbn [objs cout cerr].
    do 3 (split; [reflexivity|]). split.
    + intros s' Hne. rewrite !cache_with_cache_ne by exact Hne.
      cbn [cache]. apply cache_with_cache_ne. exact Hne.
    + rewrite !cache_with_cache_eq. cbn [kernel compiled wgsize cache].
      rewrite ?cache_with_cache_eq. cbn [kernel compiled wgsize].
      rewrite insert_insert_eq. auto.
Qed.

Lemma compile_for_fail e q r :
  ~ has_entry r (shape_of e) (qctx q) ->
  builds (qctx q) (source_of e) = false ->
  exists r',
    compile_one e q r = Throw (cl_Error CL_BUILD_PROGRAM_FAILURE) r' /\
    calls r' = calls r ++ [BuildProgram (qctx q) (source_of e)] /\
    objs r' = objs r /\
    cerr r' = cerr r ++ [build_log (qctx q) (source_of e)] /\
    (forall s' c', compiled (cache r' s') !! c' = Some true <->
                   compiled (cache r s') !! c' = Some true) /\
    (forall s', kernel (cache r' s') = kernel (cache r s') /\
                wgsize (cache r' s') = wgsize (cache r s')).
Proof.
  intros Hno Hb. unfold has_entry in Hno.
  unfold compile_for, mbind, M_bind, index_compiled.
  set (s := shape_of e) in *. set (c := qctx q) in *.
  set (src := source_of e) in *.
  destruct (compiled (cache r s) !! c) as [[|]|] eqn:E; [contradiction| |].
  - cbn [negb]. unfold build_sources, mbind, M_bind, emit. rewrite Hb.
    unfold print_cerr, throw. cbn [calls objs cout cerr cache].
    eexists. split; [reflexivity|]. cbn [calls objs cout cerr cache]. auto 10.
  - cbn [negb]. unfold build_sources, mbind, M_bind, emit.
    cbn [calls objs cout cerr with_cache]. rewrite Hb.
    unfold print_cerr, throw. cbn [calls objs cout cerr cache].
    eexists. split; [reflexivity|]. cbn [calls objs cout cerr cache].
    do 3 (split; [reflexivity|]). split.
    + intros s' c'. destruct (decide (s' = s)) as [->|Hne];
        [|rewrite cache_with_cache_ne by exact Hne; reflexivity].
      rewrite cache_with_cache_eq.
      cbn [compiled]. destruct (decide (c' = c)) as [->|Hc].
      * rewrite lookup_insert_eq, E. split; discriminate.
      * rewrite lookup_insert_ne by congruence. reflexivity.
    + intros s'. destruct (decide (s' = s)) as [->|Hne];
        [rewrite cache_with_cache_eq | rewrite cache_with_cache_ne by exact Hne]; auto.
Qed.

Hypothesis Hpos : forall k d, 0 < work_group_info k d < 2 ^ 32.

Lemma kernel_workgroup_size_single k d :
  0 < Util.kernel_workgroup_size work_group_info k [d] < 2 ^ 32.
Proof.
  unfold Util.kernel_workgroup_size. cbn [fold_left].
  destruct (shrink_spec 1024 (work_group_info k d) ltac:(lia)) as (j & Hj & _ & Hmax).
  specialize (Hmax 10%nat). change (1024 / 2 ^ Z.of_nat 10) with 1 in Hmax.
  pose proof (Hpos k d).
  rewrite to_uint_id in Hmax by lia.
  pose proof (halves_le 1024 0 j ltac:(lia) ltac:(lia)) as Hh.
  change (1024 / 2 ^ Z.of_nat 0) with 1024 in Hh. rewrite <- Hj in Hh. lia.
Qed.

Lemma recorded_keeps r r' s c k w :
  ~ has_entry r s c -> recorded r r' s c k w -> keeps_entries r r'.
Proof.
  intros Hno (_ & _ & _ & Hother & Hc & Hk & Hw) s' c' H.
  unfold has_entry, entry_of in *.
  destruct (decide (s' = s)) as [->|Hne].
  - assert (c <> c') as Hcc by (intros ->; contradiction).
    rewrite Hc, Hk, Hw. rewrite !lookup_insert_ne by exact Hcc. auto.
  - rewrite Hother by exact Hne. auto.
Qed.

Lemma recorded_new r r' s c k w s' c' :
  recorded r r' s c k w -> has_entry r' s' c' ->
  has_entry r s' c' \/ (s' = s /\ c' = c).
Proof.
  intros (_ & _ & _ & Hother & Hc & _) H. unfold has_entry in *.
  destruct (decide (s' = s)) as [->|Hne].
  - destruct (decide (c = c')) as [->|Hcc]; [auto|].
    rewrite Hc, lookup_insert_ne in H by exact Hcc. auto.
  - rewrite Hother in H by exact Hne. auto.
Qed.

Lemma recorded_entry r r' s c k w : recorded r r' s c k w -> has_entry r' s c.
Proof.
  intros (_ & _ & _ & _ & Hc & _). unfold has_entry. rewrite Hc.
  apply lookup_insert_eq.
Qed.

Lemma recorded_cache_ok r r' s c k w source :
  cache_ok r ->
  recorded r r' s c k w ->
  calls r' = calls r ++ [BuildProgram c source] ->
  kernel_program k = Some (length (calls r)) ->
  0 < w < 2 ^ 32 ->
  cache_ok r'.
Proof.
  intros Hok Hrec Hcalls Hk Hw s' c' H.
  destruct (recorded_new _ _ _ _ _ _ _ _ Hrec H) as [Hold|[-> ->]].
  - destruct (Hok s' c' Hold) as (k0 & p0 & w0 & src0 & Hk0 & Hp0 & Hb0 & Hw0 & Hr0).
    assert (~ (s' = s /\ c' = c) \/ (s' = s /\ c' = c)) as [Hne|[-> ->]]
      by (destruct (decide (s' = s)); destruct (decide (c' = c)); tauto).
    + exists k0, p0, w0, src0.
      destruct Hrec as (_ & _ & _ & Hother & Hc & Hkk & Hww).
      rewrite Hcalls. rewrite lookup_app_l by (apply lookup_lt_Some in Hb0; exact Hb0).
      destruct (decide (s' = s)) as [->|Hs].
      * assert (c <> c') as Hcc by (intros ->; apply Hne; auto).
        rewrite Hkk, Hww. rewrite !lookup_insert_ne by exact Hcc. auto.
      * rewrite Hother by exact Hs. auto.
    + destruct Hrec as (_ & _ & _ & _ & _ & Hkk & Hww).
      exists k, (length (calls r)), w, source. rewrite Hkk, Hww, !lookup_insert_eq.
      rewrite Hcalls, list_lookup_middle by reflexivity. auto.
  - destruct Hrec as (_ & _ & _ & _ & _ & Hkk & Hww).
    exists k, (length (calls r)), w, source. rewrite Hkk, Hww, !lookup_insert_eq.
    rewrite Hcalls, list_lookup_middle by reflexivity. auto.
Qed.

Lemma bind_throw {A B} (f : A -> M B) (m : M A) r x r' :
  m r = Throw x r' -> (m ≫= f) r = Throw x r'.
Proof. intros H. unfold mbind, M_bind. rewrite H. reflexivity. Qed.

Lemma compiled_in_recorded r r' s c k w c' :
  recorded r r' s c k w ->
  compiled_in r' s c' = bool_decide (c' = c) || compiled_in r s c'.
Proof.
  intros (_ & _ & _ & _ & Hc & _). unfold compiled_in. rewrite Hc.
  destruct (decide (c' = c)) as [->|Hne].
  - rewrite lookup_insert_eq. rewrite !bool_decide_eq_true_2 by reflexivity. reflexivity.
  - rewrite lookup_insert_ne by congruence.
    rewrite (bool_decide_eq_false_2 (c' = c)) by exact Hne. reflexivity.
Qed.

(** The first loop: it builds for the contexts that lack an entry, each
    once and in order, until a build fails; what was in the cache stays,
    and each successful build adds an entry. *)
Lemma compile_all_run e : forall qs r,
  cache_ok r ->
  exists r' built,
    calls r' = calls r ++ map (fun c => BuildProgram c (source_of e)) built /\
    built `prefix_of` to_build (compiled_in r (shape_of e)) qs /\
    objs r' = objs r /\ cache_ok r' /\ keeps_entries r r' /\
    (forall s' c', has_entry r' s' c' ->
                   has_entry r s' c' \/ (s' = shape_of e /\ c' ∈ built)) /\
    ((compile_queues e qs r = Ok tt r' /\
      built = to_build (compiled_in r (shape_of e)) qs /\
      (forall q, q ∈ qs -> has_entry r' (shape_of e) (qctx q))) \/
     (compile_queues e qs r = Throw (cl_Error CL_BUILD_PROGRAM_FAILURE) r' /\
      exists c, c ∈ built /\ builds c (source_of e) = false)).
Proof.
  induction qs as [|q qs IH]; intros r Hok.
  - exists r, []. simpl. rewrite app_nil_r.
    split; [reflexivity|]. split; [reflexivity|]. split; [reflexivity|].
    split; [exact Hok|]. split; [apply keeps_entries_refl|]. split; [auto|].
    left. split; [reflexivity|]. split; [reflexivity|]. intros q Hq. inversion Hq.
  - cbn [compile_all to_build].
    destruct (compiled_in r (shape_of e) (qctx q)) eqn:Ein.
    + assert (has_entry r (shape_of e) (qctx q)) as Hhas
        by (unfold compiled_in in Ein; apply bool_decide_eq_true in Ein; exact Ein).
      rewrite (bind_ok _ _ _ _ _ (compile_for_hit e q r Hhas)).
      destruct (IH r Hok) as (r' & built & Hcalls & Hpre & Hobjs & Hok' & Hkeep & Hnew & Hres).
      exists r', built. do 6 (split; [assumption|]).
      destruct Hres as [(Hrun & Hb & Hall)|Hrun]; [left|right; exact Hrun].
      split; [exact Hrun|]. split; [exact Hb|].
      intros q' Hq'. apply elem_of_cons in Hq' as [->|Hq']; [|apply Hall, Hq'].
      apply Hkeep, Hhas.
    + assert (~ has_entry r (shape_of e) (qctx q)) as Hno.
      { unfold compiled_in in Ein. apply bool_decide_eq_false in Ein. exact Ein. }
      destruct (builds (qctx q) (source_of e)) eqn:Eb.
      * destruct (compile_for_miss e q r Hno Eb) as (r1 & Hrun1 & Hcalls1 & Hrec).
        pose proof (recorded_cache_ok _ _ _ _ _ _ _ Hok Hrec Hcalls1 eq_refl
                      (kernel_workgroup_size_single _ _)) as Hok1.
        rewrite (bind_ok _ _ _ _ _ Hrun1).
        destruct (IH r1 Hok1)
          as (r' & built & Hcalls & Hpre & Hobjs & Hok' & Hkeep & Hnew & Hres).
        rewrite (to_build_ext _ _ qs (fun c => compiled_in_recorded _ _ _ _ _ _ c Hrec))
          in Hpre, Hres.
        exists r', (qctx q :: built).
        split; [rewrite Hcalls, Hcalls1, <- app_assoc; reflexivity|].
        split; [apply prefix_cons; exact Hpre|].
        split; [destruct Hrec as (Ho & _); congruence|].
        split; [exact Hok'|].
        split; [eapply keeps_entries_trans; [eapply recorded_keeps; eassumption | exact Hkeep]|].
        split.
        { intros s' c' H. destruct (Hnew s' c' H) as [H1|[-> Hin]].
          - destruct (recorded_new _ _ _ _ _ _ _ _ Hrec H1) as [?|[-> ->]]; [auto|].
            right. split; [reflexivity | left].
          - right. split; [reflexivity | right; exact Hin]. }
        destruct Hres as [(Hrun & Hb & Hall)|(Hrun & c & Hin & Hf)];
          [left|right; split; [exact Hrun|]; exists c; split; [right; exact Hin | exact Hf]].
        split; [exact Hrun|]. split; [rewrite Hb; reflexivity|].
        intros q' Hq'. apply elem_of_cons in Hq' as [->|Hq']; [|apply Hall, Hq'].
        apply Hkeep. eapply recorded_entry. exact Hrec.
      * destruct (compile_for_fail e q r Hno Eb)
          as (r1 & Hrun1 & Hcalls1 & Hobjs1 & _ & Hcomp & Hkw).
        exists r1, [qctx q].
        split; [exact Hcalls1|]. split; [apply prefix_cons, prefix_nil|].
        split; [exact Hobjs1|].
        assert (keeps_entries r r1) as Hkeep.
        { intros s' c' H. unfold has_entry, entry_of in *.
          destruct (Hkw s') as [-> ->]. split; [apply Hcomp; exact H | reflexivity]. }
        split.
        { intros s' c' H. apply Hcomp in H.
          destruct (Hok s' c' H) as (k0 & p0 & w0 & src0 & Hk0 & Hp0 & Hb0 & Hw0 & Hr0).
          exists k0, p0, w0, src0. destruct (Hkw s') as [-> ->].
          rewrite Hcalls1, lookup_app_l by (apply lookup_lt_Some in Hb0; exact Hb0).
          auto. }
        split; [exact Hkeep|].
        split; [intros s' c' H; left; apply Hcomp; exact H|].
        right. split; [apply bind_throw; exact Hrun1|].
        exists (qctx q). split; [left | exact Eb].
Qed.

Lemma index_wgsize_hit r s c w :
  wgsize (cache r s) !! c = Some w -> index_wgsize s c r = Ok w r.
Proof. intros H. unfold index_wgsize. rewrite H. reflexivity. Qed.

Lemma index_kernel_hit r s c k :
  kernel (cache r s) !! c = Some k -> index_kernel s c r = Ok k r.
Proof. intros H. unfold index_kernel. rewrite H. reflexivity. Qed.

Lemma alignup_Some n m : m <> 0 -> exists g, Util.alignup n m = Some g.
Proof.
  intros Hm. unfold Util.alignup.
  destruct (Z.eqb_spec m 0) as [?|_]; [contradiction|].
  destruct (n mod m =? 0); eauto.
Qed.

Lemma terminal_args_ok (v : vector) d r e :
  (forall x, x ∈ vectors_of e ->
             exists vx, objs r !! x = Some vx /\
                        (length (queue v) <= length (buf vx))%nat) ->
  (d < length (queue v))%nat ->
  exists args, terminal_args e d r = Ok args r.
Proof.
  intros Hvec Hd. induction e as [x|ty value|op l IHl r' IHr|name arg IH].
  - destruct (Hvec x ltac:(simpl; left)) as (vx & Hx & Hlen).
    destruct (lookup_lt_is_Some_2 (buf vx) d ltac:(lia)) as [b Hb].
    exists [ArgBuffer b]. cbn [terminal_args].
    rewrite (bind_ok _ _ _ _ _ (load_ok _ _ r Hx)).
    rewrite (bind_ok _ _ _ _ _ (at_ok _ _ _ r Hb)). reflexivity.
  - eexists. reflexivity.
  - destruct IHl as [al Hl];
      [intros x Hx; apply Hvec; simpl; apply elem_of_app; left; exact Hx|].
    destruct IHr as [ar Hr];
      [intros x Hx; apply Hvec; simpl; apply elem_of_app; right; exact Hx|].
    exists (al ++ ar). cbn [terminal_args].
    rewrite (bind_ok _ _ _ _ _ Hl), (bind_ok _ _ _ _ _ Hr). reflexivity.
  - apply IH. exact Hvec.
Qed.

Lemma cache_ok_extend r ls :
  cache_ok r -> cache_ok (with_objs_calls r (objs r) (calls r ++ ls)).
Proof.
  intros Hok s c H. destruct (Hok s c H) as (k & p & w & src & Hk & Hp & Hb & Hw & Hr).
  exists k, p, w, src. cbn [with_objs_calls cache calls].
  rewrite lookup_app_l by (apply lookup_lt_Some in Hb; exact Hb). auto.
Qed.

(** The second loop, for one device: nothing for an empty part, else one
    launch with the cached kernel and work-group size. *)
Lemma launch_for_run v e d r :
  ready r v e -> cache_ok r ->
  (forall q, q ∈ queue v -> has_entry r (shape_of e) (qctx q)) ->
  (d < length (queue v))%nat ->
  (part_size v d = 0 /\ launch_for v e d r = Ok tt r) \/
  (part_size v d <> 0 /\
   exists c, launch_on r (shape_of e) v d c /\
             launch_for v e d r = Ok tt (with_objs_calls r (objs r) (calls r ++ [c]))).
Proof.
  intros (Hlp & Hlb & Hvec) Hok Hent Hd.
  destruct (lookup_lt_is_Some_2 (part v) (S d) ltac:(lia)) as [pd1 Hpd1].
  destruct (lookup_lt_is_Some_2 (part v) d ltac:(lia)) as [pd Hpd].
  destruct (lookup_lt_is_Some_2 (queue v) d Hd) as [q Hq].
  destruct (lookup_lt_is_Some_2 (buf v) d ltac:(lia)) as [b Hb].
  assert (part_size v d = to_uint (pd1 - pd)) as Hps
    by (unfold part_size; rewrite Hpd1, Hpd; reflexivity).
  unfold launch_for.
  rewrite (bind_ok _ _ _ _ _ (at_ok _ _ _ r Hpd1)).
  rewrite (bind_ok _ _ _ _ _ (at_ok _ _ _ r Hpd)).
  rewrite <- Hps.
  destruct (Z.eqb_spec (part_size v d) 0) as [Hz|Hnz]; [left; auto|].
  right. split; [exact Hnz|].
  rewrite (bind_ok _ _ _ _ _ (at_ok _ _ _ r Hq)).
  assert (q ∈ queue v) as Hqin by (apply list_elem_of_lookup; eauto).
  destruct (Hok _ _ (Hent q Hqin)) as (k & p & w & src & Hk & Hp & _ & Hw & Hr).
  assert (exists g,
    (match device_type (qdev q) with
     | CL_DEVICE_TYPE_CPU =>
         w0 ← index_wgsize (shape_of e) (qctx q);
         match Util.alignup (part_size v d) w0 with
         | Some g => mret g
         | None => undefined
         end
     | _ =>
         w0 ← index_wgsize (shape_of e) (qctx q);
         mret (to_uint (to_uint (max_compute_units (qdev q) * w0) * 4))
     end) r = Ok g r) as [g Hg].
  { destruct (device_type (qdev q));
      rewrite (bind_ok _ _ _ _ _ (index_wgsize_hit _ _ _ _ Hw)).
    - destruct (alignup_Some (part_size v d) w ltac:(lia)) as [g Hg].
      rewrite Hg. eexists. reflexivity.
    - eexists. reflexivity.
    - eexists. reflexivity. }
  rewrite (bind_ok _ _ _ _ _ Hg).
  rewrite (bind_ok _ _ _ _ _ (at_ok _ _ _ r Hb)).
  destruct (terminal_args_ok v d r e Hvec Hd) as [args Hargs].
  rewrite (bind_ok _ _ _ _ _ Hargs).
  rewrite (bind_ok _ _ _ _ _ (index_kernel_hit _ _ _ _ Hk)).
  rewrite (bind_ok _ _ _ _ _ (index_wgsize_hit _ _ _ _ Hw)).
  rewrite Hp.
  exists (EnqueueNDRangeKernel q k (ArgSize (part_size v d) :: ArgBuffer b :: args) g w).
  split; [|reflexivity].
  exists q, b, k, args, g, w. auto.
Qed.

Lemma launch_all_run v e ds : forall r,
  ready r v e -> cache_ok r ->
  (forall q, q ∈ queue v -> has_entry r (shape_of e) (qctx q)) ->
  (forall d, d ∈ ds -> (d < length (queue v))%nat) ->
  exists ls,
    Forall2 (launch_on r (shape_of e) v) (busy v ds) ls /\
    launch_all v e ds r = Ok tt (with_objs_calls r (objs r) (calls r ++ ls)).
Proof.
  induction ds as [|d ds IH]; intros r Hready Hok Hent Hds.
  - exists []. split; [constructor|]. simpl. rewrite app_nil_r, runtime_eta. reflexivity.
  - cbn [launch_all]. unfold busy. rewrite filter_cons. fold (busy v ds).
    assert (forall d', d' ∈ ds -> (d' < length (queue v))%nat) as Hds'
      by (intros d' Hd'; apply Hds; right; exact Hd').
    destruct (launch_for_run v e d r Hready Hok Hent (Hds d ltac:(left)))
      as [[Hz Hrun]|(Hnz & c & Hc & Hrun)].
    + rewrite decide_False by (intros H; apply H; exact Hz).
      rewrite (bind_ok _ _ _ _ _ Hrun). apply IH; assumption.
    + rewrite decide_True by exact Hnz.
      rewrite (bind_ok _ _ _ _ _ Hrun).
      set (r1 := with_objs_calls r (objs r) (calls r ++ [c])).
      destruct (IH r1) as (ls & Hls & Hrun').
      * exact Hready.
      * apply cache_ok_extend. exact Hok.
      * exact Hent.
      * exact Hds'.
      * exists (c :: ls). split; [constructor; [exact Hc | exact Hls]|].
        rewrite Hrun'. unfold r1, with_objs_calls. cbn [objs calls cache cout cerr].
        rewrite <- app_assoc. reflexivity.
Qed.

Lemma ready_objs r r' v e : objs r' = objs r -> ready r v e -> ready r' v e.
Proof. intros E (H1 & H2 & H3). unfold ready. rewrite E. auto. Qed.

(** One assignment: the builds, then the launches. *)
Lemma assign_run r this v e :
  objs r !! this = Some v -> ready r v e -> cache_ok r ->
  exists r' built launches,
    calls r' = calls r ++ map (fun c => BuildProgram c (source_of e)) built ++ launches /\
    built `prefix_of` to_build (compiled_in r (shape_of e)) (queue v) /\
    objs r' = objs r /\ cache_ok r' /\ keeps_entries r r' /\
    (forall s' c', has_entry r' s' c' ->
                   has_entry r s' c' \/ (s' = shape_of e /\ c' ∈ built)) /\
    ((assign_to this e r = Ok tt r' /\
      built = to_build (compiled_in r (shape_of e)) (queue v) /\
      (forall q, q ∈ queue v -> has_entry r' (shape_of e) (qctx q)) /\
      Forall2 (launch_on r' (shape_of e) v) (busy v (seq 0 (length (queue v)))) launches) \/
     (assign_to this e r = Throw (cl_Error CL_BUILD_PROGRAM_FAILURE) r' /\
      launches = [] /\
      exists c, c ∈ built /\ builds c (source_of e) = false)).
Proof.
  intros Hobj Hready Hok. unfold assign.
  rewrite (bind_ok _ _ _ _ _ (load_ok _ _ r Hobj)).
  destruct (compile_all_run e (queue v) r Hok)
    as (r1 & built & Hcalls & Hpre & Hobjs & Hok1 & Hkeep & Hnew & Hres).
  destruct Hres as [(Hrun & Hb & Hall)|(Hrun & Hfail)].
  - rewrite (bind_ok _ _ _ _ _ Hrun).
    destruct (launch_all_run v e (seq 0 (length (queue v))) r1
                (ready_objs _ _ _ _ Hobjs Hready) Hok1 Hall)
      as (ls & Hls & Hrun').
    { intros d Hd. apply elem_of_seq in Hd. lia. }
    exists (with_objs_calls r1 (objs r1) (calls r1 ++ ls)), built, ls.
    split; [cbn [with_objs_calls calls]; rewrite Hcalls, <- app_assoc; reflexivity|].
    split; [exact Hpre|]. split; [exact Hobjs|].
    split; [apply cache_ok_extend; exact Hok1|].
    split; [exact Hkeep|]. split; [exact Hnew|].
    left. split; [exact Hrun'|]. split; [exact Hb|]. split; [exact Hall | exact Hls].
  - exists r1, built, []. rewrite app_nil_r.
    do 6 (split; [assumption|]). right.
    split; [apply bind_throw; exact Hrun|]. split; [reflexivity | exact Hfail].
Qed.


End CacheProperties.

Lemma runtime_init_cache_ok objects : cache_ok (runtime_init objects).
Proof.
  intros s c H. unfold has_entry, runtime_init in H. simpl in H.
  rewrite lookup_empty in H. discriminate.
Defined.

Lemma sum_expr_ready :
  ready (runtime_init (<[0%nat := wide_vector]> ∅)) wide_vector sum_expr.
Proof.
  split; [reflexivity|]. split; [reflexivity|].
  intros x Hx. simpl in Hx. apply elem_of_cons in Hx as [->|Hx].
  - exists wide_vector. split; [reflexivity | simpl; lia].
  - simpl in Hx. apply elem_of_nil in Hx. contradiction.
Defined.


(** The same assignment made twice: one build and two launches for each
    of the two devices. *)
Example assign_twice :
  exists r1 r2 source k,
    assign_example 0 sum_expr (runtime_init (<[0%nat := wide_vector]> ∅)) = Ok tt r1 /\
    assign_example 0 sum_expr r1 = Ok tt r2 /\
    k = {| kernel_program := Some 0%nat; kernel_name := "sum" |} /\
    calls r2 =
      [BuildProgram 0 source;
       EnqueueNDRangeKernel queue0 k
         [ArgSize 16; ArgBuffer (Some 20%nat); ArgBuffer (Some 20%nat);
          ArgScalar "float" 2] 256 256;
       EnqueueNDRangeKernel queue1 k
         [ArgSize 16; ArgBuffer (Some 21%nat); ArgBuffer (Some 21%nat);
          ArgScalar "float" 2] 8192 256;
       EnqueueNDRangeKernel queue0 k
         [ArgSize 16; ArgBuffer (Some 20%nat); ArgBuffer (Some 20%nat);
          ArgScalar "float" 2] 256 256;
       EnqueueNDRangeKernel queue1 k
         [ArgSize 16; ArgBuffer (Some 21%nat); ArgBuffer (Some 21%nat);
          ArgScalar "float" 2] 8192 256].
Proof.
  do 4 eexists. split; [vm_compute; reflexivity|].
  split; [vm_compute; reflexivity|]. split; [reflexivity|].
  vm_compute. reflexivity.
Qed.

(** ** Assignment of a sparse product *)

Section SpmvProperties.
Variables kernel_name_of user_functions_of parameters_of body_of : expr -> string.
Variables standard_kernel_header type_name_T : string.
Variable builds : cl_context -> string -> bool.
Variable build_log : cl_context -> string -> string.
Variable work_group_info : Kernel -> Device -> Z.
Variable sizeof_T : Z.
Variable sizeof_term : spmv_expression -> string.
Variable display_left : spmv_left -> string.
Variable display_product : SpMat -> addr -> string.
Variable mul : SpMat -> addr -> addr -> M unit.

Abbreviation assign_product :=
  (assign_spmv kernel_name_of user_functions_of parameters_of body_of
     standard_kernel_header type_name_T builds build_log work_group_info
     sizeof_T sizeof_term display_left display_product mul).

(** The assignment of a product prints the expression and does nothing
    else: no vector is touched and no call is made. *)
Lemma assign_spmv_product_run this A x r :
  assign_product this (Spmv A x) r =
    Ok tt {| objs := objs r; calls := calls r; cache := cache r;
             cout := cout r ++ [("spmv: " ++ sizeof_term (Spmv A x) ++ " ")%string;
                                display_product A x];
             cerr := cerr r |}.
Proof.
  unfold assign_spmv, assign_spmv_eval, mbind, M_bind, print_cout.
  cbn [objs calls cache cout cerr]. rewrite <- app_assoc. reflexivity.
Qed.

(** C4, at the failing input: the assignment [y = A * x] with the 4x4
    identity [A], [x = [1, 2, 3, 4]] and [y] holding zeros returns
    without a call into the runtime, so that [y] still holds zeros, while
    the product is [[1, 2, 3, 4]] (and [[6, 6, 6]] for the all-ones 3x3
    matrix and [[1, 2, 3]]). *)
Theorem spmv_identity_not_evaluated :
  exists r',
    assign_product 1 (Spmv identity4 0) spmv_runtime = Ok tt r' /\
    objs r' = objs spmv_runtime /\
    calls r' = [] /\
    Runtime.run_calls Z 4 0 (calls r') (Runtime.Build_cl_state Z spmv_memory [])
      = Some (Runtime.Build_cl_state Z spmv_memory []) /\
    Runtime.device spmv_memory !! 40%nat = Some [1; 2; 3; 4] /\
    Runtime.device spmv_memory !! 41%nat = Some [0; 0; 0; 0] /\
    spmv_product identity4 [1; 2; 3; 4] = [1; 2; 3; 4] /\
    spmv_product ones3 [1; 2; 3] = [6; 6; 6].
Proof.
  rewrite assign_spmv_product_run. eexists. split; [reflexivity|].
  cbn [objs calls]. repeat split; reflexivity.
Qed.

End SpmvProperties.

(** * Further properties of util.hpp *)

(** ** nextpow2 *)

(** After or-ing in the shift by a window [w], a bit is set exactly when
    the original value has a set bit within [2 w] positions above it. *)
Lemma smear_window (y a w : Z) :
  0 < w ->
  (forall i, 0 <= i ->
     Z.testbit a i = true <->
     exists j, 0 <= j < w /\ Z.testbit y (i + j) = true) ->
  forall i, 0 <= i ->
    Z.testbit (Bits.smear a w) i = true <->
    exists j, 0 <= j < 2 * w /\ Z.testbit y (i + j) = true.
Proof.
  intros Hw Ha i Hi. unfold Bits.smear.
  rewrite Z.lor_spec, Z.shiftr_spec by lia.
  rewrite orb_true_iff, (Ha i Hi), (Ha (i + w)) by lia. split.
  - intros [[j [Hj Hb]] | [j [Hj Hb]]].
    + exists j. split; [lia | exact Hb].
    + exists (w + j). split; [lia |].
      replace (i + (w + j)) with (i + w + j) by lia. exact Hb.
  - intros [j [Hj Hb]]. destruct (Z_lt_dec j w) as [Hlt | Hge].
    + left. exists j. split; [lia | exact Hb].
    + right. exists (j - w). split; [lia |].
      replace (i + w + (j - w)) with (i + j) by lia. exact Hb.
Qed.

Lemma smear_all (y : Z) :
  forall i, 0 <= i ->
    Z.testbit
      (Bits.smear (Bits.smear (Bits.smear (Bits.smear (Bits.smear y 1) 2) 4) 8)
         16) i = true <->
    exists j, 0 <= j < 32 /\ Z.testbit y (i + j) = true.
Proof.
  apply (smear_window y _ 16); [lia |].
  apply (smear_window y _ 8); [lia |].
  apply (smear_window y _ 4); [lia |].
  apply (smear_window y _ 2); [lia |].
  apply (smear_window y _ 1); [lia |].
  intros i Hi. split.
  - intros Hb. exists 0. split; [lia |].
    replace (i + 0) with i by lia. exact Hb.
  - intros [j [Hj Hb]]. replace (i + j) with i in Hb by lia. exact Hb.
Qed.

(** The five or-shifts fill every bit below the highest set one. *)
Lemma smear_ones (y : Z) :
  0 < y < 2 ^ 32 ->
  Bits.smear (Bits.smear (Bits.smear (Bits.smear (Bits.smear y 1) 2) 4) 8) 16
  = Z.ones (Z.log2 y + 1).
Proof.
  intros Hy.
  assert (Hlog : 0 <= Z.log2 y < 32).
  { split; [apply Z.log2_nonneg |]. apply Z.log2_lt_pow2; lia. }
  apply Z.bits_inj'. intros i Hi.
  apply eq_true_iff_eq. rewrite smear_all by exact Hi. split.
  - intros [j [Hj Hb]].
    destruct (Z_lt_dec (Z.log2 y) (i + j)) as [Hhigh | Hlow].
    + rewrite Z.bits_above_log2 in Hb by lia. discriminate.
    + apply Z.ones_spec_low. lia.
  - intros Hb. destruct (Z_lt_dec i (Z.log2 y + 1)) as [Hlt | Hge].
    + exists (Z.log2 y - i). split; [lia |].
      replace (i + (Z.log2 y - i)) with (Z.log2 y) by lia.
      apply Z.bit_log2. lia.
    + rewrite Z.ones_spec_high in Hb by lia. discriminate.
Qed.

Lemma smear_zero :
  Bits.smear (Bits.smear (Bits.smear (Bits.smear (Bits.smear 0 1) 2) 4) 8) 16
  = 0.
Proof. reflexivity. Qed.

(** X1.  For [1 <= x <= 2^31], [nextpow2] returns the least power of two
    that is at least [x]: a power of two [2^e] with [x <= 2^e < 2 x]. *)
Theorem nextpow2_least_power (x : Z) :
  1 <= x <= 2 ^ 31 ->
  exists e, 0 <= e /\ Bits.nextpow2 x = 2 ^ e /\ x <= 2 ^ e < 2 * x.
Proof.
  intros Hx. destruct (Z.eq_dec x 1) as [-> | Hne].
  - exists 0. split; [lia |]. split; [reflexivity | lia].
  - unfold Bits.nextpow2. cbv zeta.
    rewrite (to_uint_small (x - 1)) by (unfold is_uint, uint_modulus; lia).
    assert (Hy : 0 < x - 1 < 2 ^ 32) by lia.
    rewrite (smear_ones _ Hy), Z.ones_equiv.
    pose proof (Z.log2_spec (x - 1) (proj1 Hy)) as [Hlo Hhi].
    pose proof (Z.log2_nonneg (x - 1)) as Hnn.
    assert (Hle : Z.log2 (x - 1) < 31) by (apply Z.log2_lt_pow2; lia).
    assert (Hpow : 2 ^ (Z.log2 (x - 1) + 1) <= 2 ^ 31)
      by (apply Z.pow_le_mono_r; lia).
    replace (Z.succ (Z.log2 (x - 1))) with (Z.log2 (x - 1) + 1) in Hhi by lia.
    assert (Hdbl : 2 ^ (Z.log2 (x - 1) + 1) = 2 * 2 ^ Z.log2 (x - 1))
      by (rewrite Z.pow_add_r by lia; lia).
    exists (Z.log2 (x - 1) + 1).
    replace (Z.pred (2 ^ (Z.log2 (x - 1) + 1)) + 1)
      with (2 ^ (Z.log2 (x - 1) + 1)) by lia.
    rewrite to_uint_small by (unfold is_uint, uint_modulus; lia).
    repeat split; lia.
Qed.

Lemma nextpow2_least_power_witness :
  1 <= 37 <= 2 ^ 31 /\
  exists e, 0 <= e /\ Bits.nextpow2 37 = 2 ^ e /\ 37 <= 2 ^ e < 2 * 37.
Proof. split; [lia | apply (nextpow2_least_power 37); lia]. Defined.

(** X2.  Outside that range the increment wraps: [nextpow2] returns [0]
    for [0] and for every [x] above [2^31]. *)
Theorem nextpow2_wraps_to_zero (x : Z) :
  x = 0 \/ 2 ^ 31 < x < 2 ^ 32 -> Bits.nextpow2 x = 0.
Proof.
  intros Hx. unfold Bits.nextpow2. cbv zeta.
  assert (Hy : 2 ^ 31 <= to_uint (x - 1) < 2 ^ 32).
  { destruct Hx as [-> | Hx]; [vm_compute; split; [discriminate | reflexivity] |].
    rewrite to_uint_small by (unfold is_uint, uint_modulus; lia). lia. }
  rewrite smear_ones by lia.
  assert (Hlog : Z.log2 (to_uint (x - 1)) = 31).
  { apply Z.log2_unique; [lia |]. simpl Z.add. lia. }
  rewrite Hlog. reflexivity.
Qed.

Lemma nextpow2_wraps_to_zero_witness :
  (0 = 0 \/ 2 ^ 31 < 0 < 2 ^ 32) /\ Bits.nextpow2 0 = 0.
Proof.
  split; [left; reflexivity | apply (nextpow2_wraps_to_zero 0); left; reflexivity].
Defined.

(** ** alignup *)

Lemma alignup_multiple (n m : Z) :
  0 <= n -> 0 < m -> n + m <= 2 ^ 32 ->
  exists r,
    Util.alignup n m = Some r /\
    Z.divide m r /\ n <= r < n + m /\
    forall r', Z.divide m r' -> n <= r' -> r <= r'.
Proof.
  intros Hn Hm Hsum. unfold Util.alignup.
  assert ((m =? 0) = false) as -> by (apply Z.eqb_neq; lia).
  pose proof (Z.div_mod n m ltac:(lia)) as Hdm.
  pose proof (Z.mod_pos_bound n m Hm) as Hmod.
  pose proof (Z.mod_le n m Hn Hm) as Hmle.
  assert (Hleast : forall q r', Z.divide m r' -> q * m < n + m -> n <= r' ->
                                q * m <= r').
  { intros q r' [b ->] Hq Hb. apply Z.mul_le_mono_nonneg_r; [lia |].
    assert (q < b + 1) by (apply (Z.mul_lt_mono_pos_r m); lia). lia. }
  destruct (Z.eqb_spec (n mod m) 0) as [E | E].
  - exists n. split; [reflexivity |]. split; [| split; [lia |]].
    + exists (n / m). lia.
    + intros r' _ Hr'. exact Hr'.
  - exists (m * (n / m + 1)).
    rewrite (to_uint_small (n - n mod m)) by (unfold is_uint, uint_modulus; lia).
    rewrite to_uint_small by (unfold is_uint, uint_modulus; lia).
    split; [f_equal; lia |]. split; [| split; [lia |]].
    + exists (n / m + 1). lia.
    + intros r' Hdiv Hr'. rewrite Z.mul_comm. apply Hleast; [exact Hdiv | lia | exact Hr'].
Qed.


(** X3.  For a positive [m] and no wrap-around ([n + m <= 2^32]),
    [alignup n m] is the least multiple of [m] that is at least [n]. *)
Theorem alignup_least_multiple (n m : Z) :
  0 <= n -> 0 < m -> n + m <= 2 ^ 32 ->
  exists r,
    Util.alignup n m = Some r /\
    Z.divide m r /\ n <= r < n + m /\
    forall r', Z.divide m r' -> n <= r' -> r <= r'.
Proof. exact (alignup_multiple n m). Qed.

Lemma alignup_least_multiple_witness :
  exists r,
    Util.alignup 37 12 = Some r /\
    Z.divide 12 r /\ 37 <= r < 37 + 12 /\
    forall r', Z.divide 12 r' -> 37 <= r' -> r <= r'.
Proof. apply (alignup_least_multiple 37 12); lia. Defined.

(** ** partition_equally: alignment of the parts *)



(** ** kernel_workgroup_size: a device that reports zero *)

(** X5.  Whatever the devices report, the result never exceeds a
    device's reported size (as a [uint]); so one device reporting [0]
    makes [kernel_workgroup_size] return [0]. *)
Theorem kernel_workgroup_size_zero_report {Kernel Device : Type}
    (work_group_info : Kernel -> Device -> Z) (kernel : Kernel)
    (device : list Device) (d : Device) :
  d ∈ device ->
  let wgsz := Util.kernel_workgroup_size work_group_info kernel device in
  0 <= wgsz <= to_uint (work_group_info kernel d) /\
  (to_uint (work_group_info kernel d) = 0 -> wgsz = 0).
Proof.
  intros Hd wgsz.
  destruct (shrink_all_spec work_group_info kernel device 1024 ltac:(lia))
    as (k & Hk & Hle & _).
  change (fold_left _ device 1024) with wgsz in Hk, Hle.
  assert (0 <= wgsz) as H0.
  { rewrite Hk. apply Z.div_pos; [lia | apply pow2_pos]. }
  specialize (Hle d Hd). split; [lia |]. intros Hz. lia.
Qed.

Lemma kernel_workgroup_size_zero_report_witness :
  let wgsz := Util.kernel_workgroup_size (fun (_ : unit) (d : Z) => d) tt
                [256; 0; 512] in
  0 <= wgsz <= to_uint 0 /\ (to_uint 0 = 0 -> wgsz = 0).
Proof.
  apply (kernel_workgroup_size_zero_report (fun (_ : unit) (d : Z) => d) tt
           [256; 0; 512] 0).
  apply elem_of_cons. right. apply elem_of_cons. left. reflexivity.
Defined.

(** ** The partitioning policy: warnings *)

Lemma scheme_run_warnings {CommandQueue : Type}
    (partition_by_vector_perf : @Util.partition_fn CommandQueue)
    (ops : list Util.scheme_op) :
  forall s,
    Util.is_set s = true ->
    Util.cerr (Util.scheme_run partition_by_vector_perf ops s)
    = Util.cerr s
      ++ replicate (length (List.filter is_OpSet ops)) Util.set_warning.
Proof.
  unfold Util.scheme_run.
  induction ops as [| o ops IH]; intros s Hset.
  - simpl. rewrite app_nil_r. reflexivity.
  - cbn [fold_left List.filter]. destruct o as [f | n queue]; cbn [is_OpSet].
    + rewrite IH.
      * unfold Util.scheme_step, Util.set. rewrite Hset. cbn.
        rewrite <- app_assoc. reflexivity.
      * unfold Util.scheme_step, Util.set. rewrite Hset. reflexivity.
    + rewrite IH.
      * unfold Util.scheme_step, Util.call. rewrite Hset. reflexivity.
      * unfold Util.scheme_step, Util.call. rewrite Hset. exact Hset.
Qed.

(** X6.  Starting from the static initial state, the first use of the
    global [partition] object never warns; after it every further [set]
    appends exactly one warning to [std::cerr], and calls print
    nothing. *)
Theorem partitioning_scheme_warnings {CommandQueue : Type}
    (partition_by_vector_perf : @Util.partition_fn CommandQueue)
    (o : Util.scheme_op) (ops : list Util.scheme_op) :
  Util.cerr
    (Util.scheme_run partition_by_vector_perf (o :: ops) Util.scheme_init)
  = replicate (length (List.filter is_OpSet ops)) Util.set_warning.
Proof.
  unfold Util.scheme_run. cbn [fold_left].
  fold (Util.scheme_run partition_by_vector_perf ops
          (Util.scheme_step partition_by_vector_perf Util.scheme_init o)).
  rewrite scheme_run_warnings; destruct o; reflexivity.
Qed.

(** ** Error descriptions *)

Lemma known_codes_elem (code : Z) :
  code ∈ ErrorText.known_codes <-> -14 <= code <= 0 \/ -64 <= code <= -30.
Proof.
  unfold ErrorText.known_codes. rewrite list_elem_of_fmap. split.
  - intros [k [-> Hk]]. apply elem_of_app in Hk as [Hk | Hk];
      apply elem_of_seq in Hk; lia.
  - intros Hc. exists (Z.to_nat (- code)). split; [lia |].
    apply elem_of_app. rewrite !elem_of_seq. lia.
Qed.

(** X7.  Every error code with a [case] of its own (0 to -14 and -30 to
    -64) has a description other than the default, no two of them share
    one, and every other code is described as an unknown error. *)
Theorem description_known_codes :
  (forall code, ErrorText.description code <> "Unknown error"%string <->
                code ∈ ErrorText.known_codes) /\
  (forall c1 c2, c1 ∈ ErrorText.known_codes -> c2 ∈ ErrorText.known_codes ->
                 ErrorText.description c1 = ErrorText.description c2 ->
                 c1 = c2).
Proof.
  assert (Hnodup : NoDup ("Unknown error"%string
                          :: map ErrorText.description ErrorText.known_codes)).
  { apply (bool_decide_unpack _). vm_compute. exact I. }
  apply NoDup_cons in Hnodup as [Hnotin Hnodup]. split.
  - intros code. split.
    + intros Hne. apply known_codes_elem.
      destruct (Z_le_dec (-14) code), (Z_le_dec code 0),
        (Z_le_dec (-64) code), (Z_le_dec code (-30)); try lia; exfalso;
        apply Hne.
      all: destruct code as [| p | p]; try lia; try reflexivity.
      all: do 7 (try (destruct p as [p | p |]; try lia; try reflexivity)).
    + intros Hin Heq. apply Hnotin. rewrite <- Heq.
      apply list_elem_of_fmap. exists code. split; [reflexivity | exact Hin].
  - intros c1 c2 H1 H2 Heq.
    apply list_elem_of_lookup in H1 as [i Hi], H2 as [j Hj].
    assert (i = j) as ->.
    { apply (NoDup_lookup _ i j (ErrorText.description c1) Hnodup).
      - rewrite list_lookup_fmap, Hi. reflexivity.
      - rewrite list_lookup_fmap, Hj, Heq. reflexivity. }
    congruence.
Qed.

(** * Element access and iterators *)

Import Access.

(** What the scan of [upper_bound] finds: everything before the
    position is at most [x], and the element at the position, if there is
    one, is greater. *)
Lemma upper_bound_spec (l : list Z) (x : Z) :
  (upper_bound l x <= length l)%nat /\
  (forall i y, (i < upper_bound l x)%nat -> l !! i = Some y -> y <= x) /\
  (forall y, l !! upper_bound l x = Some y -> x < y).
Proof.
  induction l as [| a l (IHlen & IHlo & IHhi)]; simpl.
  - split; [lia |]. split; [intros; lia | intros; discriminate].
  - destruct (Z.ltb_spec x a) as [Hlt | Hge].
    + split; [lia |]. split; [intros; lia |].
      intros y Hy. simpl in Hy. inversion Hy. subst. exact Hlt.
    + split; [lia |]. split.
      * intros [| i] y Hi Hy; simpl in Hy.
        -- inversion Hy. subst. exact Hge.
        -- apply (IHlo i y); [lia | exact Hy].
      * intros y Hy. simpl in Hy. apply IHhi. exact Hy.
Qed.

Section AccessProperties.
Variable v : vector.
Variable n : Z.
Hypothesis Hlen : length (part v) = S (length (queue v)).
Hypothesis Hbuf : length (buf v) = length (queue v).
Hypothesis Hpart : partition_ok v n.
Hypothesis Hn : n < 2 ^ 32.
Hypothesis HD : Z.of_nat (length (queue v)) < 2 ^ 32.

Let D := length (queue v).

Lemma part_last : part v !! D = Some n.
Proof.
  destruct Hpart as (_ & Hlast & _). rewrite last_lookup, Hlen in Hlast.
  exact Hlast.
Qed.

Lemma part_sorted k : forall d a b,
  part v !! d = Some a -> part v !! (d + k)%nat = Some b -> a <= b.
Proof.
  destruct Hpart as (_ & _ & Hmono).
  induction k as [| k IH]; intros d a b Ha Hb.
  - rewrite Nat.add_0_r in Hb. rewrite Ha in Hb. inversion Hb. lia.
  - replace (d + S k)%nat with (S (d + k)) in Hb by lia.
    destruct (lookup_lt_is_Some_2 (part v) (d + k)) as [c Hc].
    { apply lookup_lt_Some in Hb. lia. }
    specialize (IH d a c Ha Hc). specialize (Hmono _ _ _ Hc Hb). lia.
Qed.

(** Inside the vector the scan stops at a part boundary after the first
    and not after the last. *)
Lemma upper_bound_inside (x : Z) :
  0 <= x < n ->
  exists d pd pd1,
    upper_bound (part v) x = S d /\ (d < D)%nat /\
    part v !! d = Some pd /\ part v !! S d = Some pd1 /\ pd <= x < pd1.
Proof.
  intros Hx. destruct (upper_bound_spec (part v) x) as (Hle & Hlo & Hhi).
  destruct Hpart as (H0 & _ & _). pose proof part_last as HlastD.
  destruct (upper_bound (part v) x) as [| d] eqn:Ek.
  - specialize (Hhi 0 H0). lia.
  - assert (d < D)%nat as Hd.
    { destruct (decide (d < D)%nat) as [? | Hge]; [assumption |].
      assert (D < S d)%nat as HDk by lia.
      specialize (Hlo D n HDk HlastD). lia. }
    destruct (lookup_lt_is_Some_2 (part v) d ltac:(lia)) as [pd Hpd].
    destruct (lookup_lt_is_Some_2 (part v) (S d) ltac:(fold D in Hlen; lia))
      as [pd1 Hpd1].
    exists d, pd, pd1. split; [reflexivity |]. split; [exact Hd |].
    split; [exact Hpd |]. split; [exact Hpd1 |]. split.
    + apply (Hlo d pd); [lia | exact Hpd].
    + apply Hhi. exact Hpd1.
Qed.

(** At the end of the vector and beyond it the scan runs through the
    whole table. *)
Lemma upper_bound_outside (x : Z) :
  n <= x -> upper_bound (part v) x = S D.
Proof.
  intros Hx. destruct (upper_bound_spec (part v) x) as (Hle & _ & Hhi).
  fold D in Hlen. rewrite Hlen in Hle.
  destruct (decide (upper_bound (part v) x = S D)) as [? | Hne]; [assumption |].
  assert (upper_bound (part v) x <= D)%nat as Hk by lia.
  destruct (lookup_lt_is_Some_2 (part v) (upper_bound (part v) x)
              ltac:(lia)) as [y Hy].
  specialize (Hhi y Hy).
  pose proof (part_sorted (D - upper_bound (part v) x) _ y n Hy) as Hs.
  replace (upper_bound (part v) x + (D - upper_bound (part v) x))%nat
    with D in Hs by lia.
  specialize (Hs part_last). lia.
Qed.

Lemma to_uint_device (d : nat) :
  (d <= D)%nat -> Z.to_nat (to_uint (Z.of_nat (S d) - 1)) = d.
Proof.
  intros Hd. rewrite to_uint_small; [lia |].
  unfold is_uint, uint_modulus. fold D in HD. lia.
Qed.

Lemma operator_index_inside (index : Z) :
  0 <= index < n ->
  exists d q b pd pd1,
    operator_index v index
    = Some {| el_queue := q; el_buf := b; el_index := index - pd |} /\
    queue v !! d = Some q /\ buf v !! d = Some b /\
    part v !! d = Some pd /\ part v !! S d = Some pd1 /\
    pd <= index < pd1.
Proof.
  intros Hx.
  destruct (upper_bound_inside index Hx) as (d & pd & pd1 & Ek & Hd & Hpd & Hpd1 & Hr).
  destruct (lookup_lt_is_Some_2 (queue v) d Hd) as [q Hq].
  destruct (lookup_lt_is_Some_2 (buf v) d ltac:(fold D in Hbuf; lia)) as [b Hb].
  exists d, q, b, pd, pd1. unfold operator_index.
  rewrite Ek. rewrite (to_uint_device d) by (apply Nat.lt_le_incl, Hd).
  rewrite Hq, Hb, Hpd. simpl.
  assert (0 <= pd) as Hpd0.
  { destruct Hpart as (H0 & _). apply (part_sorted d 0%nat 0 pd H0 Hpd). }
  rewrite to_uint_small by (unfold is_uint, uint_modulus; lia).
  auto 10.
Qed.

(** X8.  For an index inside the vector, [operator[]] selects the device
    whose part holds the index, with its queue and buffer, and the
    position of the element in that part. *)
Theorem operator_index_in_part (index : Z) :
  0 <= index < n ->
  exists d q b pd pd1,
    operator_index v index
    = Some {| el_queue := q; el_buf := b; el_index := index - pd |} /\
    queue v !! d = Some q /\ buf v !! d = Some b /\
    part v !! d = Some pd /\ part v !! S d = Some pd1 /\
    pd <= index < pd1.
Proof. exact (operator_index_inside index). Qed.

(** X9.  An index at the end of the vector or beyond it has no element:
    the device number computed is the number of queues, and [queue[d]]
    is read past the end. *)
Theorem operator_index_out_of_range (index : Z) :
  n <= index -> operator_index v index = None.
Proof.
  intros Hx. unfold operator_index.
  rewrite (upper_bound_outside index Hx), (to_uint_device D) by apply Nat.le_refl.
  rewrite (lookup_ge_None_2 (queue v) D) by (unfold D; lia). reflexivity.
Qed.

(** ** Iterators *)

Lemma skip_parts_eq (x p : Z) (turns : nat) :
  skip_parts v x p turns =
    if negb (p <? nparts v) then Some p
    else
      p1 ← part v !! Z.to_nat (to_uint (p + 1));
      if negb (p1 <=? x) then Some p
      else
        match turns with
        | O => None
        | S turns => skip_parts v x (to_uint (p + 1)) turns
        end.
Proof. destruct turns; reflexivity. Qed.

Lemma nparts_D : nparts v = Z.of_nat D.
Proof.
  unfold nparts. apply to_uint_small. unfold is_uint, uint_modulus.
  fold D in HD. fold D. lia.
Qed.

(** The loop of [operator++] stops at the device that the constructor
    computes for the same position. *)
Lemma skip_parts_spec (x : Z) : forall turns p,
  (p < upper_bound (part v) x)%nat ->
  (p + turns = D)%nat ->
  skip_parts v x (Z.of_nat p) turns
  = Some (Z.of_nat (upper_bound (part v) x - 1)).
Proof.
  destruct (upper_bound_spec (part v) x) as (Hle & Hlo & Hhi).
  fold D in Hlen. rewrite Hlen in Hle.
  induction turns as [| turns IH]; intros p Hp Hsum;
    rewrite skip_parts_eq, nparts_D.
  - assert ((Z.of_nat p <? Z.of_nat D) = false) as -> by (apply Z.ltb_ge; lia).
    simpl. do 2 f_equal. lia.
  - assert ((Z.of_nat p <? Z.of_nat D) = true) as -> by (apply Z.ltb_lt; lia).
    cbn [negb].
    assert (to_uint (Z.of_nat p + 1) = Z.of_nat (S p)) as ->.
    { rewrite to_uint_small; [lia |]. unfold is_uint, uint_modulus.
      fold D in HD. lia. }
    rewrite Nat2Z.id.
    destruct (lookup_lt_is_Some_2 (part v) (S p) ltac:(lia)) as [p1 Hp1].
    rewrite Hp1. simpl.
    destruct (Z.leb_spec p1 x) as [Hle1 | Hgt1]; cbn [negb].
    + apply IH; [| lia].
      destruct (decide (S p < upper_bound (part v) x)%nat) as [? | Hge];
        [assumption |].
      assert (upper_bound (part v) x = S p) as Ek by lia.
      rewrite Ek in Hhi. specialize (Hhi p1 Hp1). lia.
    + destruct (decide (S p < upper_bound (part v) x)%nat) as [Hlt | Hge].
      * specialize (Hlo (S p) p1 Hlt Hp1). lia.
      * do 2 f_equal. lia.
Qed.

Lemma upper_bound_mono (x y : Z) :
  x <= y -> (upper_bound (part v) x <= upper_bound (part v) y)%nat.
Proof.
  intros Hxy.
  destruct (upper_bound_spec (part v) x) as (Hlex & Hlox & _).
  destruct (upper_bound_spec (part v) y) as (Hley & _ & Hhiy).
  destruct (decide (upper_bound (part v) x <= upper_bound (part v) y)%nat)
    as [? | Hgt]; [assumption |].
  destruct (lookup_lt_is_Some_2 (part v) (upper_bound (part v) y) ltac:(lia))
    as [z Hz].
  specialize (Hhiy z Hz).
  specialize (Hlox (upper_bound (part v) y) z ltac:(lia) Hz). lia.
Qed.

Lemma part_not_empty : part v <> [].
Proof. intros E. rewrite E in Hlen. discriminate. Qed.

Lemma iterator_eq (x : Z) :
  iterator v x
  = {| pos := x;
       it_part := to_uint (Z.of_nat (upper_bound (part v) x) - 1) |}.
Proof.
  pose proof part_not_empty as Hne. unfold iterator.
  destruct (part v); [congruence | reflexivity].
Qed.

Lemma iterator_part (x : Z) :
  0 <= x ->
  it_part (iterator v x) = Z.of_nat (upper_bound (part v) x - 1).
Proof.
  intros Hx. rewrite iterator_eq. cbn [it_part].
  destruct (upper_bound_spec (part v) x) as (Hle & _ & Hhi).
  fold D in Hlen. rewrite Hlen in Hle.
  assert (1 <= upper_bound (part v) x)%nat.
  { destruct (upper_bound (part v) x) eqn:Ek; [| lia].
    destruct Hpart as (H0 & _). specialize (Hhi 0 H0). lia. }
  rewrite to_uint_small; [lia |]. unfold is_uint, uint_modulus.
  fold D in HD. lia.
Qed.

(** One [operator++] on the iterator of a position inside the vector
    gives the iterator of the next position. *)
Lemma increment_iterator (x : Z) :
  0 <= x < n -> increment v (iterator v x) = Some (iterator v (x + 1)).
Proof.
  intros Hx. unfold increment.
  assert (to_uint (pos (iterator v x) + 1) = x + 1) as Hpos.
  { cbn [pos iterator]. apply to_uint_small. unfold is_uint, uint_modulus. lia. }
  rewrite Hpos, (iterator_part x) by lia. rewrite nparts_D.
  destruct (upper_bound_inside x Hx) as (d & pd & pd1 & Ek & Hd & _).
  pose proof (upper_bound_mono x (x + 1) ltac:(lia)) as Hmono.
  rewrite Ek in *. replace (S d - 1)%nat with d by lia.
  replace (Z.to_nat (Z.of_nat D - Z.of_nat d)) with (D - d)%nat by lia.
  rewrite (skip_parts_spec (x + 1)) by lia. simpl.
  f_equal. pose proof (iterator_part (x + 1) ltac:(lia)) as Hp.
  rewrite iterator_eq in Hp |- *. cbn [it_part] in Hp. rewrite Hp.
  reflexivity.
Qed.

(** X10.  Walking from [begin()] with [operator++] visits the iterator
    of every position in turn, each dereferencing to the element that
    [operator[]] gives for the position, and reaches [end()] after
    [size()] steps. *)
Theorem iterator_walk (k : nat) :
  Z.of_nat k <= n ->
  increments v k (begin_ v) = Some (iterator v (Z.of_nat k)) /\
  dereference v (iterator v (Z.of_nat k)) = operator_index v (Z.of_nat k) /\
  increments v (Z.to_nat n) (begin_ v) = Some (end_ v).
Proof.
  assert (Hwalk : forall j x : nat,
             Z.of_nat x + Z.of_nat j <= n ->
             increments v j (iterator v (Z.of_nat x))
             = Some (iterator v (Z.of_nat (x + j)))).
  { induction j as [| j IH]; intros x Hj.
    - simpl. rewrite Nat.add_0_r. reflexivity.
    - cbn [increments]. rewrite increment_iterator by lia. simpl.
      replace (Z.of_nat x + 1) with (Z.of_nat (S x)) by lia.
      rewrite IH by lia. do 2 f_equal. lia. }
  assert (0 <= n) as Hn0.
  { destruct Hpart as (H0 & _). apply (part_sorted D 0%nat 0 n H0 part_last). }
  intros Hk. split; [| split].
  - apply (Hwalk k 0%nat). lia.
  - rewrite iterator_eq. reflexivity.
  - unfold begin_. change 0 with (Z.of_nat 0).
    rewrite (Hwalk (Z.to_nat n) 0%nat) by lia.
    unfold end_, size. destruct Hpart as (_ & Hlast & _). rewrite Hlast.
    do 2 f_equal. lia.
Qed.

End AccessProperties.

Lemma operator_index_in_part_witness :
  exists d q b pd pd1,
    operator_index uneven_vector 3
    = Some {| el_queue := q; el_buf := b; el_index := 3 - pd |} /\
    queue uneven_vector !! d = Some q /\ buf uneven_vector !! d = Some b /\
    part uneven_vector !! d = Some pd /\ part uneven_vector !! S d = Some pd1 /\
    pd <= 3 < pd1.
Proof.
  apply (operator_index_in_part uneven_vector 5);
    first [reflexivity | exact uneven_partition_ok | simpl; lia].
Defined.

Lemma operator_index_out_of_range_witness :
  operator_index uneven_vector 5 = None.
Proof.
  apply (operator_index_out_of_range uneven_vector 5);
    first [reflexivity | exact uneven_partition_ok | simpl; lia].
Defined.

Lemma iterator_walk_witness :
  increments uneven_vector 2 (begin_ uneven_vector)
  = Some (iterator uneven_vector (Z.of_nat 2)) /\
  dereference uneven_vector (iterator uneven_vector (Z.of_nat 2))
  = operator_index uneven_vector (Z.of_nat 2) /\
  increments uneven_vector (Z.to_nat 5) (begin_ uneven_vector)
  = Some (end_ uneven_vector).
Proof.
  apply (iterator_walk uneven_vector 5);
    first [reflexivity | exact uneven_partition_ok | simpl; lia].
Defined.

(** * Single elements through the runtime *)

Section ListFacts.
Context {T : Type}.
Implicit Types l data : list T.

Lemma slice_lookup data a len i :
  (i < len)%nat -> Runtime.slice T data a len !! i = data !! (a + i)%nat.
Proof.
  intros Hi. unfold Runtime.slice.
  rewrite lookup_take_lt by exact Hi. apply lookup_drop.
Qed.

Lemma slice_one l i x :
  l !! i = Some x -> Runtime.slice T l i 1 = [x].
Proof.
  intros Hx. unfold Runtime.slice.
  rewrite (drop_S l x i Hx). reflexivity.
Qed.

Lemma splice_one l i x :
  (i < length l)%nat -> Runtime.splice T l i [x] = <[i := x]> l.
Proof.
  intros Hi. unfold Runtime.splice. simpl.
  rewrite insert_take_drop by exact Hi.
  replace (i + 1)%nat with (S i) by lia. reflexivity.
Qed.

(** A slice of a list with one element replaced. *)
Lemma slice_insert data a len i x :
  Runtime.slice T (<[i := x]> data) a len
  = if decide (a <= i < a + len)%nat
    then <[(i - a)%nat := x]> (Runtime.slice T data a len)
    else Runtime.slice T data a len.
Proof.
  unfold Runtime.slice. destruct (decide (a <= i < a + len)%nat) as [Hin | Hout].
  - rewrite drop_insert_ge by lia. rewrite take_insert_lt by lia. reflexivity.
  - destruct (decide (i < a)%nat) as [Hlt | Hge].
    + rewrite drop_insert_lt by lia. reflexivity.
    + rewrite drop_insert_ge by lia. rewrite take_insert_ge by lia. reflexivity.
Qed.

End ListFacts.

Section BlockingCalls.
Context {T : Type}.
Variable sizeof_T : Z.

(** A blocking transfer on an idle runtime has run when the call
    returns. *)
Lemma run_blocking (dir : direction) q b o k p (base : nat)
    (m : Runtime.memory T) :
  Runtime.run_calls T sizeof_T base [enqueue_transfer dir q b true o k p]
    (Runtime.Build_cl_state T m [])
  = (m' ← Runtime.exec_transfer T sizeof_T (enqueue_transfer dir q b true o k p) m;
     Some (Runtime.Build_cl_state T m' [])).
Proof.
  destruct dir; cbn [Runtime.run_calls Runtime.run_call enqueue_transfer
                     Runtime.call_blocking Runtime.pending Runtime.mem app];
    unfold Runtime.complete; cbn [Runtime.pending Runtime.mem list_find fst];
    rewrite decide_True by reflexivity;
    cbn [fmap option_fmap option_map snd Runtime.drain Runtime.call_queue];
    rewrite decide_True by (split; [lia | reflexivity]);
    match goal with
    | |- context [Runtime.exec_transfer T sizeof_T ?c m] =>
        destruct (Runtime.exec_transfer T sizeof_T c m) as [m1 |]
    end; reflexivity.
Qed.

End BlockingCalls.

Section ElementProperties.
Context {T : Type}.
Variable sizeof_T : Z.
Variable v : vector.
Variable n : Z.
Hypothesis Hok : vector_ok sizeof_T v.
Hypothesis Hpart : partition_ok v n.
Hypothesis HD : Z.of_nat (length (queue v)) < 2 ^ 32.

(** The element of an index inside the vector, and the buffer that it
    points into. *)
Lemma element_of_index (idx : Z) (m : Runtime.memory T) :
  0 <= idx < n ->
  buffers_ok v m ->
  exists d q b pd pd1 content,
    operator_index v idx
    = Some {| el_queue := q; el_buf := Some b; el_index := idx - pd |} /\
    part v !! d = Some pd /\ part v !! S d = Some pd1 /\
    0 <= pd /\ pd <= idx < pd1 /\ pd1 <= n /\
    buf v !! d = Some (Some b) /\
    Runtime.device m !! b = Some content /\
    Z.of_nat (length content) = pd1 - pd /\
    to_uint ((idx - pd) * sizeof_T) / sizeof_T = idx - pd /\
    sizeof_T / sizeof_T = 1.
Proof.
  intros Hx [Hall _].
  destruct Hok as (Hlen & Hbuf & _ & Hs & Hu & Hbytes).
  pose proof (n_is_uint sizeof_T v n Hok Hpart) as [_ Hn].
  destruct (operator_index_inside v n Hlen Hbuf Hpart Hn HD idx Hx)
    as (d & q & b0 & pd & pd1 & Hop & Hq & Hb0 & Hpd & Hpd1 & Hr).
  destruct (Hall d pd pd1 Hpd Hpd1 ltac:(lia)) as (b & content & Hb & Hdev & Hl).
  rewrite Hb0 in Hb. inversion Hb. subst b0.
  assert (0 <= pd) as Hpd0.
  { destruct Hpart as (H0 & _). apply (part_sorted v n Hlen Hbuf Hpart d 0%nat 0 pd H0 Hpd). }
  assert (pd1 <= n) as Hpd1n.
  { apply (part_sorted v n Hlen Hbuf Hpart (length (queue v) - S d) (S d) pd1 n Hpd1).
    assert (S d <= length (queue v))%nat
      by (apply lookup_lt_Some in Hpd1; lia).
    replace (S d + (length (queue v) - S d))%nat with (length (queue v)) by lia.
    apply (part_last v n Hlen Hpart). }
  specialize (Hbytes d pd pd1 Hpd Hpd1).
  exists d, q, b, pd, pd1, content.
  repeat (split; [first [assumption | lia] |]). split.
  - rewrite to_uint_small; [apply Z.div_mul; lia |].
    unfold is_uint, uint_modulus. split; [apply Z.mul_nonneg_nonneg; lia |].
    assert ((idx - pd) * sizeof_T < (pd1 - pd) * sizeof_T)
      by (apply Z.mul_lt_mono_pos_r; lia).
    lia.
  - apply Z.div_same. lia.
Qed.

(** Reading one element: the call that [operator T()] makes and what
    it leaves in the local it reads into. *)
Lemma element_read_run (idx : Z) (x y : T) (val : nat) (data : list T)
    (m : Runtime.memory T) (r : runtime) :
  0 <= idx < n ->
  data !! Z.to_nat idx = Some x ->
  buffers_ok v m -> stores v m data ->
  Runtime.host m !! val = Some [y] ->
  exists e c st,
    operator_index v idx = Some e /\
    element_read sizeof_T e val r
    = Ok tt (with_objs_calls r (objs r) (calls r ++ [c])) /\
    Runtime.run_calls T sizeof_T (length (calls r)) [c]
      (Runtime.Build_cl_state T m []) = Some st /\
    Runtime.pending st = [] /\
    Runtime.host (Runtime.mem st) !! val = Some [x] /\
    Runtime.device (Runtime.mem st) = Runtime.device m.
Proof.
  intros Hx Hdata Hbuf Hst Hval.
  destruct (element_of_index idx m Hx Hbuf)
    as (d & q & b & pd & pd1 & content & Hop & Hpd & Hpd1 & Hpd0 & Hr & Hpd1n
        & Hb & Hdev & Hl & Hoff & Hone).
  pose proof (Hst d pd pd1 b Hpd Hpd1 ltac:(lia) Hb) as Hsl.
  rewrite Hdev in Hsl. inversion Hsl as [Ec]. clear Hsl.
  eexists _, _, _. split; [exact Hop |]. split; [reflexivity |].
  cbn [el_queue el_buf el_index].
  rewrite (run_blocking sizeof_T DeviceToHost).
  cbn [enqueue_transfer Runtime.exec_transfer block index].
  rewrite Hdev. simpl mbind. rewrite Hval. simpl mbind.
  rewrite Hoff, Hone.
  rewrite decide_True by (cbn [length]; split; [lia | split; lia]).
  simpl mbind. cbn [Runtime.pending Runtime.mem Runtime.host Runtime.device].
  split; [reflexivity |]. split; [reflexivity |]. split; [| reflexivity].
  cbn [Runtime.mem Runtime.host]. rewrite lookup_insert_eq. f_equal.
  assert (content !! Z.to_nat (idx - pd) = Some x) as Hcx.
  { rewrite Ec, slice_lookup by lia.
    replace (Z.to_nat pd + Z.to_nat (idx - pd))%nat with (Z.to_nat idx) by lia.
    exact Hdata. }
  change (Z.to_nat 1) with 1%nat. rewrite (slice_one _ _ _ Hcx). reflexivity.
Qed.

(** Writing one element: the call that [operator=(T)] makes and what the
    vector holds afterwards. *)
Lemma element_write_run (idx : Z) (x : T) (val : nat) (data : list T)
    (m : Runtime.memory T) (r : runtime) :
  Z.of_nat (length data) = n ->
  0 <= idx < n ->
  buffers_ok v m -> stores v m data ->
  Runtime.host m !! val = Some [x] ->
  exists e c st,
    operator_index v idx = Some e /\
    element_write sizeof_T e val r
    = Ok tt (with_objs_calls r (objs r) (calls r ++ [c])) /\
    Runtime.run_calls T sizeof_T (length (calls r)) [c]
      (Runtime.Build_cl_state T m []) = Some st /\
    Runtime.pending st = [] /\
    Runtime.host (Runtime.mem st) = Runtime.host m /\
    buffers_ok v (Runtime.mem st) /\
    stores v (Runtime.mem st) (<[Z.to_nat idx := x]> data).
Proof.
  intros Hdata Hx Hbuf Hst Hval.
  destruct Hok as (Hlen & Hlbuf & _).
  destruct (element_of_index idx m Hx Hbuf)
    as (d & q & b & pd & pd1 & content & Hop & Hpd & Hpd1 & Hpd0 & Hr & Hpd1n
        & Hb & Hdev & Hl & Hoff & Hone).
  pose proof (Hst d pd pd1 b Hpd Hpd1 ltac:(lia) Hb) as Hsl.
  rewrite Hdev in Hsl. inversion Hsl as [Ec]. clear Hsl.
  eexists _, _, _. split; [exact Hop |]. split; [reflexivity |].
  cbn [el_queue el_buf el_index].
  rewrite (run_blocking sizeof_T HostToDevice).
  cbn [enqueue_transfer Runtime.exec_transfer block index].
  rewrite Hdev. simpl mbind. rewrite Hval. simpl mbind.
  rewrite Hoff, Hone.
  rewrite decide_True by (cbn [length]; split; [lia | split; lia]).
  simpl mbind. cbn [Runtime.pending Runtime.mem Runtime.host Runtime.device].
  change (Z.to_nat 1) with 1%nat. change (Z.to_nat 0) with 0%nat.
  rewrite (slice_one [x] 0%nat x eq_refl).
  rewrite splice_one by lia.
  split; [reflexivity |]. split; [reflexivity |]. split; [reflexivity |].
  cbn [Runtime.mem]. split.
  - apply (buffers_ok_insert v n data Hpart Hdata m b content); 
      [exact Hbuf | exact Hdev | apply length_insert].
  - intros d' pd' pd1' b' Hpd' Hpd1' Hlt' Hb'. cbn [Runtime.device].
    rewrite slice_insert.
    destruct (decide (d' = d)) as [-> | Hne].
    + rewrite Hpd in Hpd'. rewrite Hpd1 in Hpd1'. rewrite Hb in Hb'.
      inversion Hpd'; inversion Hpd1'; inversion Hb'; subst pd' pd1' b'.
      rewrite lookup_insert_eq, decide_True by lia.
      rewrite <- Ec. do 2 f_equal. lia.
    + assert (b' <> b) as Hbne.
      { intros ->. destruct Hbuf as [_ Hinj]. apply Hne.
        apply (Hinj d' d b Hb' Hb). }
      rewrite lookup_insert_ne by (intros E; apply Hbne; symmetry; exact E).
      rewrite decide_False; [apply (Hst d' pd' pd1' b'); assumption |].
      assert (pd1' <= pd \/ pd1 <= pd') as Hdisj.
      { destruct (decide (d' < d)%nat) as [Hlt | Hge].
        - left. apply (part_sorted v n Hlen Hlbuf Hpart (d - S d') (S d') pd1' pd Hpd1').
          replace (S d' + (d - S d'))%nat with d by lia. exact Hpd.
        - right. apply (part_sorted v n Hlen Hlbuf Hpart (d' - S d) (S d) pd1 pd' Hpd1).
          replace (S d + (d' - S d))%nat with d' by lia. exact Hpd'. }
      assert (0 <= pd').
      { destruct Hpart as (H0 & _).
        apply (part_sorted v n Hlen Hlbuf Hpart d' 0%nat 0 pd' H0 Hpd'). }
      lia.
Qed.

End ElementProperties.

Section ElementTheorems.
Context {T : Type}.
Variable sizeof_T : Z.
Variable v : vector.
Variable n : Z.
Variable data : list T.
Hypothesis Hok : vector_ok sizeof_T v.
Hypothesis Hpart : partition_ok v n.
Hypothesis HD : Z.of_nat (length (queue v)) < 2 ^ 32.
Hypothesis Hdata : Z.of_nat (length data) = n.

(** X11.  Reading [v[idx]] makes one blocking read on the queue of the
    device that holds the index; on a vector that holds [data] it leaves
    the element [data[idx]] in the local that is returned, and it
    changes no buffer. *)
Theorem element_read_ith (idx : Z) (x y : T) (val : nat)
    (m : Runtime.memory T) (r : runtime) :
  0 <= idx < n ->
  data !! Z.to_nat idx = Some x ->
  buffers_ok v m -> stores v m data ->
  Runtime.host m !! val = Some [y] ->
  exists e c st,
    operator_index v idx = Some e /\
    element_read sizeof_T e val r
    = Ok tt (with_objs_calls r (objs r) (calls r ++ [c])) /\
    Runtime.run_calls T sizeof_T (length (calls r)) [c]
      (Runtime.Build_cl_state T m []) = Some st /\
    Runtime.pending st = [] /\
    Runtime.host (Runtime.mem st) !! val = Some [x] /\
    Runtime.device (Runtime.mem st) = Runtime.device m.
Proof. exact (element_read_run sizeof_T v n Hok Hpart HD idx x y val data m r). Qed.

(** X12.  Writing [v[idx] = x] makes one blocking write; afterwards the
    vector holds [data] with the element at [idx] replaced by [x], and
    nothing else has changed. *)
Theorem element_write_ith (idx : Z) (x : T) (val : nat)
    (m : Runtime.memory T) (r : runtime) :
  0 <= idx < n ->
  buffers_ok v m -> stores v m data ->
  Runtime.host m !! val = Some [x] ->
  exists e c st,
    operator_index v idx = Some e /\
    element_write sizeof_T e val r
    = Ok tt (with_objs_calls r (objs r) (calls r ++ [c])) /\
    Runtime.run_calls T sizeof_T (length (calls r)) [c]
      (Runtime.Build_cl_state T m []) = Some st /\
    Runtime.pending st = [] /\
    Runtime.host (Runtime.mem st) = Runtime.host m /\
    buffers_ok v (Runtime.mem st) /\
    stores v (Runtime.mem st) (<[Z.to_nat idx := x]> data).
Proof.
  exact (element_write_run sizeof_T v n Hok Hpart HD idx x val data m r Hdata).
Qed.

(** X13.  An element written through [operator[]] is the element read
    back from the same index, and a read from any other index is not
    affected by the write. *)
Theorem element_write_then_read (i j : Z) (x y xj : T) (val out : nat)
    (m : Runtime.memory T) (r : runtime) :
  0 <= i < n -> 0 <= j < n ->
  data !! Z.to_nat j = Some xj ->
  buffers_ok v m -> stores v m data ->
  Runtime.host m !! val = Some [x] ->
  Runtime.host m !! out = Some [y] ->
  exists ei ej c1 c2 r1 r2 st,
    operator_index v i = Some ei /\
    operator_index v j = Some ej /\
    element_write sizeof_T ei val r = Ok tt r1 /\
    element_read sizeof_T ej out r1 = Ok tt r2 /\
    calls r2 = calls r ++ [c1; c2] /\
    Runtime.run_calls T sizeof_T (length (calls r)) [c1; c2]
      (Runtime.Build_cl_state T m []) = Some st /\
    Runtime.host (Runtime.mem st) !! out
    = Some [if decide (i = j) then x else xj].
Proof.
  intros Hi Hj Hxj Hbuf Hst Hval Hout.
  destruct (element_write_run sizeof_T v n Hok Hpart HD i x val data m r
              Hdata Hi Hbuf Hst Hval)
    as (ei & c1 & st1 & Hei & Hw & Hrun1 & Hp1 & Hh1 & Hbuf1 & Hst1).
  set (r1 := with_objs_calls r (objs r) (calls r ++ [c1])) in *.
  assert (<[Z.to_nat i := x]> data !! Z.to_nat j
          = Some (if decide (i = j) then x else xj)) as Hdj.
  { destruct (decide (i = j)) as [-> | Hne].
    - apply list_lookup_insert_eq. lia.
    - rewrite list_lookup_insert_ne by lia. exact Hxj. }
  destruct st1 as [m1 pend1]. cbn [Runtime.pending Runtime.mem] in *. subst pend1.
  destruct (element_read_run sizeof_T v n Hok Hpart HD j _ y out _ m1 r1
              Hj Hdj Hbuf1 Hst1 ltac:(rewrite Hh1; exact Hout))
    as (ej & c2 & st2 & Hej & Hr & Hrun2 & _ & Hh2 & _).
  exists ei, ej, c1, c2, r1,
    (with_objs_calls r1 (objs r1) (calls r1 ++ [c2])), st2.
  split; [exact Hei |]. split; [exact Hej |]. split; [exact Hw |].
  split; [exact Hr |]. split.
  - cbn [calls with_objs_calls r1]. rewrite <- app_assoc. reflexivity.
  - split; [| exact Hh2].
    change [c1; c2] with ([c1] ++ [c2]).
    rewrite run_calls_app, Hrun1.
    assert (length (calls r1) = (length (calls r) + length [c1])%nat) as Hl1
      by (cbn [calls with_objs_calls r1]; apply length_app).
    rewrite Hl1 in Hrun2. exact Hrun2.
Qed.

(** X14.  A blocking [copy] of the host vector [data] to the device
    vector leaves in the buffer of each part exactly the elements of
    [data] in the range of that part; the host arrays are as before and
    no command is left pending. *)
Theorem copy_to_device_stores (this : addr) (hin : nat) (r : runtime)
    (m : Runtime.memory T) :
  objs r !! this = Some v ->
  buffers_ok v m ->
  Runtime.host m !! hin = Some data ->
  exists r1 trace st,
    copy_to_device sizeof_T hin this true r = Ok tt r1 /\
    calls r1 = calls r ++ trace /\
    Runtime.run_calls T sizeof_T (length (calls r)) trace
      (Runtime.Build_cl_state T m []) = Some st /\
    Runtime.pending st = [] /\
    Runtime.host (Runtime.mem st) = Runtime.host m /\
    buffers_ok v (Runtime.mem st) /\
    stores v (Runtime.mem st) data.
Proof.
  intros Hobj Hbuf Hin.
  pose proof (n_is_uint sizeof_T v n Hok Hpart) as Hn.
  pose proof (size_is_n v n Hpart) as Hsize.
  assert (0 + n < 2 ^ 32) as Hend by (unfold is_uint, uint_modulus in Hn; lia).
  assert (is_uint 0) as H0 by (unfold is_uint, uint_modulus; lia).
  destruct (transfer_data_run sizeof_T HostToDevice this v 0 n
              {| block := hin; index := 0 |} true r Hobj Hok H0 Hn Hend)
    as (cs & r1 & Hrun & Hcalls & Hcs & _ & _ & _).
  pose proof (Forall2_length _ _ _ Hcs) as Hl.
  destruct (exec_writes sizeof_T v n data Hok Hpart Hdata hin
              (length (queue v)) 0%nat cs m Hcs ltac:(lia) Hin Hbuf)
    as (m1 & Hex & Hhost & Hbuf1 & _ & Hsl).
  exists r1, (cs ++ map EventWait (seq (length (calls r)) (length (hits 0 n v)))),
    (Runtime.Build_cl_state T m1 []).
  split.
  { unfold copy_to_device. rewrite (bind_ok _ _ _ _ _ (load_ok _ _ r Hobj)).
    rewrite Hsize. exact Hrun. }
  split; [exact Hcalls |]. split.
  { rewrite Hl.
    rewrite run_batch by (eapply transfer_calls_pending; exact Hcs).
    rewrite Hex. reflexivity. }
  split; [reflexivity |]. split; [exact Hhost |]. split; [exact Hbuf1 |].
  intros d pd pd1 b Hpd Hpd1 Hlt Hb. apply (Hsl d pd pd1 b); try assumption.
  apply lookup_lt_Some in Hb. destruct Hok as (_ & Hlb & _). lia.
Qed.

End ElementTheorems.

Lemma element_memory_buffers_ok : buffers_ok uneven_vector element_memory.
Proof.
  split.
  - intros [|[|[|[|d]]]] pd pd1 H1 H2 Hlt; simpl in H1, H2; try discriminate H2;
      inversion H1; inversion H2; subst; try lia.
    + exists 30%nat, [10; 20]. repeat split; reflexivity.
    + exists 32%nat, [30; 40; 50]. repeat split; reflexivity.
  - intros [|[|[|d]]] [|[|[|d']]] b H1 H2; simpl in H1, H2;
      try discriminate H1; try discriminate H2; try reflexivity;
      inversion H1; inversion H2; subst; discriminate.
Defined.

Lemma element_memory_stores :
  stores uneven_vector element_memory [10; 20; 30; 40; 50].
Proof.
  intros [|[|[|[|d]]]] pd pd1 b H1 H2 Hlt Hb; simpl in H1, H2, Hb;
    try discriminate H2; try discriminate Hb;
    inversion H1; inversion H2; inversion Hb; subst; try lia; reflexivity.
Defined.

Lemma element_read_ith_witness :
  exists e c st,
    operator_index uneven_vector 3 = Some e /\
    element_read 4 e 7 (runtime_init ∅)
    = Ok tt (with_objs_calls (runtime_init ∅) (objs (runtime_init ∅))
               (calls (runtime_init ∅) ++ [c])) /\
    Runtime.run_calls Z 4 (length (calls (runtime_init ∅))) [c]
      (Runtime.Build_cl_state Z element_memory []) = Some st /\
    Runtime.pending st = [] /\
    Runtime.host (Runtime.mem st) !! 7%nat = Some [40] /\
    Runtime.device (Runtime.mem st) = Runtime.device element_memory.
Proof.
  apply (element_read_ith 4 uneven_vector 5 [10; 20; 30; 40; 50]
           uneven_vector_ok uneven_partition_ok ltac:(simpl; lia)
           3 40 0 7%nat element_memory (runtime_init ∅)).
  - lia.
  - reflexivity.
  - exact element_memory_buffers_ok.
  - exact element_memory_stores.
  - reflexivity.
Defined.

Lemma element_write_ith_witness :
  exists e c st,
    operator_index uneven_vector 3 = Some e /\
    element_write 4 e 8 (runtime_init ∅)
    = Ok tt (with_objs_calls (runtime_init ∅) (objs (runtime_init ∅))
               (calls (runtime_init ∅) ++ [c])) /\
    Runtime.run_calls Z 4 (length (calls (runtime_init ∅))) [c]
      (Runtime.Build_cl_state Z element_memory []) = Some st /\
    Runtime.pending st = [] /\
    Runtime.host (Runtime.mem st) = Runtime.host element_memory /\
    buffers_ok uneven_vector (Runtime.mem st) /\
    stores uneven_vector (Runtime.mem st)
      (<[Z.to_nat 3 := 77]> [10; 20; 30; 40; 50]).
Proof.
  apply (element_write_ith 4 uneven_vector 5 [10; 20; 30; 40; 50]
           uneven_vector_ok uneven_partition_ok ltac:(simpl; lia) eq_refl
           3 77 8%nat element_memory (runtime_init ∅)).
  - lia.
  - exact element_memory_buffers_ok.
  - exact element_memory_stores.
  - reflexivity.
Defined.

Lemma element_write_then_read_witness :
  exists ei ej c1 c2 r1 r2 st,
    operator_index uneven_vector 3 = Some ei /\
    operator_index uneven_vector 1 = Some ej /\
    element_write 4 ei 8 (runtime_init ∅) = Ok tt r1 /\
    element_read 4 ej 7 r1 = Ok tt r2 /\
    calls r2 = calls (runtime_init ∅) ++ [c1; c2] /\
    Runtime.run_calls Z 4 (length (calls (runtime_init ∅))) [c1; c2]
      (Runtime.Build_cl_state Z element_memory []) = Some st /\
    Runtime.host (Runtime.mem st) !! 7%nat
    = Some [if decide (3 = 1) then 77 else 20].
Proof.
  apply (element_write_then_read 4 uneven_vector 5 [10; 20; 30; 40; 50]
           uneven_vector_ok uneven_partition_ok ltac:(simpl; lia) eq_refl
           3 1 77 0 20 8%nat 7%nat element_memory (runtime_init ∅)).
  - lia.
  - lia.
  - reflexivity.
  - exact element_memory_buffers_ok.
  - exact element_memory_stores.
  - reflexivity.
  - reflexivity.
Defined.

Lemma copy_to_device_stores_witness :
  exists r1 trace st,
    copy_to_device 4 0 0 true (runtime_init (<[0%nat := uneven_vector]> ∅))
    = Ok tt r1 /\
    calls r1 = calls (runtime_init (<[0%nat := uneven_vector]> ∅)) ++ trace /\
    Runtime.run_calls Z 4
      (length (calls (runtime_init (<[0%nat := uneven_vector]> ∅)))) trace
      (Runtime.Build_cl_state Z uneven_memory []) = Some st /\
    Runtime.pending st = [] /\
    Runtime.host (Runtime.mem st) = Runtime.host uneven_memory /\
    buffers_ok uneven_vector (Runtime.mem st) /\
    stores uneven_vector (Runtime.mem st) [1; 2; 3; 4; 5].
Proof.
  apply (copy_to_device_stores 4 uneven_vector 5 [1; 2; 3; 4; 5]
           uneven_vector_ok uneven_partition_ok eq_refl
           0%nat 0%nat (runtime_init (<[0%nat := uneven_vector]> ∅))
           uneven_memory).
  - reflexivity.
  - exact uneven_buffers_ok.
  - reflexivity.
Defined.

(** * Copy assignment between two vectors *)

Section CopyAssignProperties.
Variable sizeof_T : Z.
Variables v vx : vector.
Hypothesis Hlen : length (part v) = S (length (queue v)).
Hypothesis Hbuf : length (buf v) = length (queue v).
Hypothesis Hbufx : (length (queue v) <= length (buf vx))%nat.

Lemma busy_cons d ds :
  busy v (d :: ds)
  = if decide (part_size v d <> 0) then d :: busy v ds else busy v ds.
Proof. unfold busy. rewrite filter_cons. reflexivity. Qed.

(** The loop enqueues the copies of the parts that are not empty, in the
    order of the devices, and does nothing else. *)
Lemma copy_parts_run (ds : list nat) : forall r,
  Forall (fun d => (d < length (queue v))%nat) ds ->
  exists cs,
    copy_parts sizeof_T v vx ds r
    = Ok tt (with_objs_calls r (objs r) (calls r ++ cs)) /\
    Forall2 (fun d c => copy_call sizeof_T v vx d = Some c) (busy v ds) cs.
Proof.
  induction ds as [| d ds IH]; intros r Hds.
  - exists []. split; [| constructor].
    simpl. rewrite app_nil_r, runtime_eta. reflexivity.
  - apply Forall_cons in Hds as [Hd Hds].
    destruct (lookup_lt_is_Some_2 (part v) d ltac:(lia)) as [pd Hpd].
    destruct (lookup_lt_is_Some_2 (part v) (S d) ltac:(lia)) as [pd1 Hpd1].
    destruct (lookup_lt_is_Some_2 (queue v) d Hd) as [q Hq].
    destruct (lookup_lt_is_Some_2 (buf v) d ltac:(lia)) as [dst Hdst].
    destruct (lookup_lt_is_Some_2 (buf vx) d ltac:(lia)) as [src Hsrc].
    assert (part_size v d = to_uint (pd1 - pd)) as Hps
      by (unfold part_size; rewrite Hpd1, Hpd; reflexivity).
    cbn [copy_parts].
    rewrite (bind_ok _ _ _ _ _ (at_ok _ _ _ r Hpd1)).
    rewrite (bind_ok _ _ _ _ _ (at_ok _ _ _ r Hpd)).
    rewrite busy_cons, Hps.
    destruct (Z.eqb_spec (to_uint (pd1 - pd)) 0) as [E0 | Ene].
    + rewrite decide_False by (intros Hne; apply Hne; exact E0).
      rewrite (bind_ok _ (mret tt) r tt r eq_refl).
      apply IH. exact Hds.
    + rewrite decide_True by exact Ene.
      set (c := EnqueueCopyBuffer q src dst 0 0
                  (to_uint (to_uint (pd1 - pd) * sizeof_T))).
      set (r1 := with_objs_calls r (objs r) (calls r ++ [c])).
      destruct (IH r1 Hds) as (cs & Hrun & Hcs).
      exists (c :: cs). split.
      * rewrite (bind_ok _ _ r tt r1).
        -- rewrite Hrun. unfold r1, with_objs_calls. cbn [objs calls cache cout cerr].
           rewrite <- app_assoc. reflexivity.
        -- rewrite (bind_ok _ _ _ _ _ (at_ok _ _ _ r Hq)).
           rewrite (bind_ok _ _ _ _ _ (at_ok _ _ _ r Hsrc)).
           rewrite (bind_ok _ _ _ _ _ (at_ok _ _ _ r Hdst)).
           reflexivity.
      * constructor; [| exact Hcs].
        unfold copy_call. rewrite Hq, Hsrc, Hdst, Hps. reflexivity.
Qed.

Lemma copy_assign_run (this x : addr) (r : runtime) :
  x <> this ->
  objs r !! this = Some v ->
  objs r !! x = Some vx ->
  exists cs,
    copy_assign sizeof_T this x r
    = Ok tt (with_objs_calls r (objs r) (calls r ++ cs)) /\
    Forall2 (fun d c => copy_call sizeof_T v vx d = Some c)
            (busy v (seq 0 (length (queue v)))) cs.
Proof.
  intros Hne Hv Hx. unfold copy_assign. rewrite decide_True by exact Hne.
  rewrite (bind_ok _ _ _ _ _ (load_ok _ _ r Hv)).
  rewrite (bind_ok _ _ _ _ _ (load_ok _ _ r Hx)).
  apply copy_parts_run. apply Forall_forall. intros d Hd.
  apply elem_of_seq in Hd. lia.
Qed.

(** X15.  Assigning one device vector to another one enqueues, on the
    queues of the target and in the order of its devices, one
    buffer-to-buffer copy for each part of the target that is not empty,
    and nothing for an empty part; it changes no vector object and waits
    for nothing. *)
Theorem copy_assign_trace (this x : addr) (r : runtime) :
  x <> this ->
  objs r !! this = Some v ->
  objs r !! x = Some vx ->
  exists cs,
    copy_assign sizeof_T this x r
    = Ok tt (with_objs_calls r (objs r) (calls r ++ cs)) /\
    Forall2 (fun d c => copy_call sizeof_T v vx d = Some c)
            (busy v (seq 0 (length (queue v)))) cs.
Proof. exact (copy_assign_run this x r). Qed.

End CopyAssignProperties.

Lemma copy_assign_trace_witness :
  let r := runtime_init (<[1%nat := uneven_vector]> (<[0%nat := uneven_vector]> ∅)) in
  exists cs,
    copy_assign 4 0 1 r = Ok tt (with_objs_calls r (objs r) (calls r ++ cs)) /\
    Forall2 (fun d c => copy_call 4 uneven_vector uneven_vector d = Some c)
            (busy uneven_vector (seq 0 (length (queue uneven_vector)))) cs.
Proof.
  intros r.
  apply (copy_assign_trace 4 uneven_vector uneven_vector eq_refl eq_refl
           ltac:(simpl; lia) 0%nat 1%nat r).
  - discriminate.
  - reflexivity.
  - reflexivity.
Defined.

(** Buffers stay well-formed when one of them gets new contents of the
    same length. *)
Lemma buffers_ok_update {T} (v : vector) (m : Runtime.memory T) b content new :
  buffers_ok v m ->
  Runtime.device m !! b = Some content ->
  length new = length content ->
  buffers_ok v {| Runtime.device := <[b := new]> (Runtime.device m);
                  Runtime.host := Runtime.host m |}.
Proof.
  intros [Hall Hinj] Hb Hlen. split; [| exact Hinj].
  intros d pd pd1 Hd Hd1 Hlt.
  destruct (Hall d pd pd1 Hd Hd1 Hlt) as (b' & content' & Hbuf & Hdev & Hl).
  exists b'. cbn [Runtime.device]. destruct (decide (b = b')) as [-> | Hne].
  - exists new. rewrite lookup_insert_eq. rewrite Hdev in Hb. inversion Hb; subst.
    split; [exact Hbuf |]. split; [reflexivity | lia].
  - exists content'. rewrite lookup_insert_ne by exact Hne. auto.
Qed.

Section CopyAssignData.
Context {T : Type}.
Variable sizeof_T : Z.
Variables v vx : vector.
Variable n : Z.
Variable data : list T.
Hypothesis Hok : vector_ok sizeof_T v.
Hypothesis Hpart : partition_ok v n.
Hypothesis Hsame : part vx = part v.
Hypothesis Hapart : forall d d' b,
  buf v !! d = Some (Some b) -> buf vx !! d' <> Some (Some b).

(** The size of a part, without wrap-around. *)
Lemma part_size_eq d pd pd1 :
  part v !! d = Some pd -> part v !! S d = Some pd1 ->
  part_size v d = pd1 - pd /\ 0 <= pd1 - pd /\
  to_uint ((pd1 - pd) * sizeof_T) / sizeof_T = pd1 - pd.
Proof.
  intros Hpd Hpd1.
  destruct Hok as (_ & _ & _ & Hs & Hu & Hbytes).
  destruct Hpart as (_ & _ & Hmono).
  specialize (Hmono d pd pd1 Hpd Hpd1).
  pose proof (Hu d pd Hpd) as [Hpd0 _]. pose proof (Hu (S d) pd1 Hpd1) as [_ Hpd1u].
  specialize (Hbytes d pd pd1 Hpd Hpd1).
  unfold part_size. rewrite Hpd1, Hpd.
  rewrite to_uint_small by (unfold is_uint in *; lia).
  split; [reflexivity |]. split; [lia |].
  rewrite to_uint_small; [apply Z.div_mul; lia |].
  unfold is_uint, uint_modulus. split; [apply Z.mul_nonneg_nonneg; lia | lia].
Qed.

(** The copies of the devices [d0, d0 + k), run in order, give the
    target's buffers the contents of the source's. *)
Lemma exec_copies k : forall d0 cs (m : Runtime.memory T),
  Forall2 (fun d c => copy_call sizeof_T v vx d = Some c)
          (busy v (seq d0 k)) cs ->
  (d0 + k <= length (queue v))%nat ->
  buffers_ok v m -> buffers_ok vx m -> stores vx m data ->
  exists m',
    Runtime.exec_all T sizeof_T cs m = Some m' /\
    Runtime.host m' = Runtime.host m /\
    buffers_ok v m' /\
    (forall b, (forall d, (d0 <= d < d0 + k)%nat -> buf v !! d <> Some (Some b)) ->
               Runtime.device m' !! b = Runtime.device m !! b) /\
    (forall d pd pd1 b,
        (d0 <= d < d0 + k)%nat ->
        part v !! d = Some pd -> part v !! S d = Some pd1 -> pd < pd1 ->
        buf v !! d = Some (Some b) ->
        Runtime.device m' !! b
          = Some (Runtime.slice T data (Z.to_nat pd) (Z.to_nat (pd1 - pd)))).
Proof.
  induction k as [| k IH]; intros d0 cs m Hcs Hk Hbv Hbx Hsx.
  - simpl in Hcs. apply Forall2_nil_inv_l in Hcs as ->. exists m. simpl.
    split; [reflexivity |]. split; [reflexivity |]. split; [exact Hbv |].
    split; [reflexivity |]. intros; lia.
  - cbn [seq] in Hcs. rewrite (busy_cons v) in Hcs.
    destruct (part_lookup sizeof_T v Hok d0 ltac:(lia))
      as (pd & pd1 & Hpd & Hpd1 & _).
    destruct (part_size_eq d0 pd pd1 Hpd Hpd1) as (Hps & Hnn & Hbytes).
    rewrite Hps in Hcs.
    destruct (decide (pd1 - pd <> 0)) as [Hne | He].
    + apply Forall2_cons_inv_l in Hcs as (c & cs' & Hc & Hcs' & ->).
      destruct Hbv as [Hallv Hinjv]. destruct Hbx as [Hallx Hinjx].
      destruct (Hallv d0 pd pd1 Hpd Hpd1 ltac:(lia)) as (b & content & Hb & Hdev & Hl).
      destruct (Hallx d0 pd pd1 ltac:(rewrite Hsame; exact Hpd)
                  ltac:(rewrite Hsame; exact Hpd1) ltac:(lia))
        as (bx & contentx & Hbxd & Hdevx & Hlx).
      pose proof (Hsx d0 pd pd1 bx ltac:(rewrite Hsame; exact Hpd)
                    ltac:(rewrite Hsame; exact Hpd1) ltac:(lia) Hbxd) as Hsrc.
      rewrite Hdevx in Hsrc. inversion Hsrc as [Ex]. clear Hsrc.
      destruct (lookup_lt_is_Some_2 (queue v) d0 ltac:(lia)) as [q Hq].
      unfold copy_call in Hc. rewrite Hq, Hbxd, Hb, Hps in Hc. simpl in Hc.
      inversion Hc as [Ec]. clear Hc.
      set (m1 := {| Runtime.device := <[b := contentx]> (Runtime.device m);
                    Runtime.host := Runtime.host m |}).
      assert (bx <> b) as Hbne.
      { intros ->. apply (Hapart d0 d0 b Hb Hbxd). }
      assert (Runtime.exec_transfer T sizeof_T
                (EnqueueCopyBuffer q (Some bx) (Some b) 0 0
                   (to_uint ((pd1 - pd) * sizeof_T))) m = Some m1) as Hexec.
      { cbn [Runtime.exec_transfer]. rewrite Hdevx. simpl mbind.
        rewrite Hdev. simpl mbind. rewrite Hbytes.
        change (0 / sizeof_T) with 0. change (Z.to_nat 0) with 0%nat.
        rewrite decide_True by (split; lia).
        replace (Z.to_nat (pd1 - pd)) with (length contentx) by lia.
        rewrite slice_full, splice_full by lia. reflexivity. }
      destruct (IH (S d0) cs' m1 Hcs' ltac:(lia))
        as (m' & Hrun & Hhost & Hbv' & Hframe & Hsl).
      { apply (buffers_ok_update v m b content contentx);
          [split; assumption | exact Hdev | lia]. }
      { split; [| exact Hinjx]. intros d p p1 Hp Hp1 Hlt.
        destruct (Hallx d p p1 Hp Hp1 Hlt) as (b' & c' & Hb' & Hd' & Hl').
        exists b', c'. split; [exact Hb' |]. split; [| exact Hl'].
        unfold m1. cbn [Runtime.device]. rewrite lookup_insert_ne; [exact Hd' |].
        intros ->. apply (Hapart d0 d b' Hb Hb'). }
      { intros d p p1 b' Hp Hp1 Hlt Hb'. unfold m1. cbn [Runtime.device].
        rewrite lookup_insert_ne; [apply (Hsx d p p1 b'); assumption |].
        intros ->. apply (Hapart d0 d b' Hb Hb'). }
      exists m'. cbn [Runtime.exec_all]. rewrite Hexec. simpl mbind.
      split; [exact Hrun |]. split; [exact Hhost |]. split; [exact Hbv' |]. split.
      * intros b' Hb'. rewrite Hframe by (intros d Hdr; apply Hb'; lia).
        unfold m1. cbn [Runtime.device]. apply lookup_insert_ne.
        intros ->. apply (Hb' d0); [lia | exact Hb].
      * intros d p p1 b' Hdr Hp Hp1 Hlt Hb'.
        destruct (decide (d = d0)) as [-> | Hnd].
        -- rewrite Hpd in Hp. rewrite Hpd1 in Hp1. rewrite Hb in Hb'.
           inversion Hp; inversion Hp1; inversion Hb'; subst p p1 b'.
           rewrite Hframe.
           ++ unfold m1. cbn [Runtime.device]. rewrite lookup_insert_eq.
              f_equal. exact Ex.
           ++ intros d Hdr' Hbd. specialize (Hinjv _ _ _ Hbd Hb). lia.
        -- apply (Hsl d p p1 b'); try assumption. lia.
    + destruct (IH (S d0) cs m Hcs ltac:(lia) Hbv Hbx Hsx)
        as (m' & Hrun & Hhost & Hbv' & Hframe & Hsl).
      exists m'. split; [exact Hrun |]. split; [exact Hhost |].
      split; [exact Hbv' |]. split.
      * intros b' Hb'. apply Hframe. intros d Hdr. apply Hb'. lia.
      * intros d p p1 b' Hdr Hp Hp1 Hlt Hb'.
        destruct (decide (d = d0)) as [-> | Hnd].
        -- rewrite Hpd in Hp. rewrite Hpd1 in Hp1.
           inversion Hp; inversion Hp1; subst p p1. lia.
        -- apply (Hsl d p p1 b'); try assumption. lia.
Qed.

(** X16.  Between two vectors with the same partition and buffers of
    their own, the copies that [operator=(const vector&)] enqueues, once
    they have run, leave in the target what the source holds; the source
    and the host arrays are unchanged. *)
Theorem copy_assign_copies_data (this x : addr) (r : runtime)
    (m : Runtime.memory T) :
  x <> this ->
  objs r !! this = Some v ->
  objs r !! x = Some vx ->
  length (buf vx) = length (queue v) ->
  buffers_ok v m -> buffers_ok vx m -> stores vx m data ->
  exists cs m',
    copy_assign sizeof_T this x r
    = Ok tt (with_objs_calls r (objs r) (calls r ++ cs)) /\
    Runtime.exec_all T sizeof_T cs m = Some m' /\
    Runtime.host m' = Runtime.host m /\
    stores v m' data /\ stores vx m' data /\
    buffers_ok v m' /\ buffers_ok vx m'.
Proof.
  intros Hne Hv Hx Hlx Hbv Hbx Hsx.
  destruct Hok as (Hlen & Hbuf & _).
  destruct (copy_assign_run sizeof_T v vx Hlen Hbuf ltac:(lia) this x r Hne Hv Hx)
    as (cs & Hrun & Hcs).
  destruct (exec_copies (length (queue v)) 0%nat cs m Hcs ltac:(lia) Hbv Hbx Hsx)
    as (m' & Hex & Hhost & Hbv' & Hframe & Hsl).
  assert (Hkeep : forall d b, buf vx !! d = Some (Some b) ->
                              Runtime.device m' !! b = Runtime.device m !! b).
  { intros d b Hb. apply Hframe. intros d' _ Hb'. apply (Hapart d' d b Hb' Hb). }
  exists cs, m'. split; [exact Hrun |]. split; [exact Hex |].
  split; [exact Hhost |]. split; [| split; [| split; [exact Hbv' |]]].
  - intros d pd pd1 b Hpd Hpd1 Hlt Hb. apply (Hsl d pd pd1 b); try assumption.
    apply lookup_lt_Some in Hb. lia.
  - intros d pd pd1 b Hpd Hpd1 Hlt Hb. rewrite (Hkeep d b Hb).
    apply (Hsx d pd pd1 b); assumption.
  - destruct Hbx as [Hallx Hinjx]. split; [| exact Hinjx].
    intros d pd pd1 Hpd Hpd1 Hlt.
    destruct (Hallx d pd pd1 Hpd Hpd1 Hlt) as (b & c & Hb & Hd & Hl).
    exists b, c. rewrite (Hkeep d b Hb). auto.
Qed.

End CopyAssignData.

Lemma uneven_copy_ok : vector_ok 4 uneven_copy.
Proof.
  unfold vector_ok. simpl.
  do 3 (split; [reflexivity |]). split; [lia |]. split.
  - intros [|[|[|[|d]]]] pd H; simpl in H; try discriminate H;
      inversion H; unfold is_uint, uint_modulus; lia.
  - intros [|[|[|[|d]]]] pd pd1 H1 H2; simpl in H1, H2; try discriminate H2;
      inversion H1; inversion H2; lia.
Defined.

Lemma uneven_copy_partition_ok : partition_ok uneven_copy 5.
Proof.
  unfold partition_ok. simpl. do 2 (split; [reflexivity |]).
  intros [|[|[|[|d]]]] pd pd1 H1 H2; simpl in H1, H2; try discriminate H2;
    inversion H1; inversion H2; lia.
Defined.

Lemma copy_memory_target_ok : buffers_ok uneven_copy copy_memory.
Proof.
  split.
  - intros [|[|[|[|d]]]] pd pd1 H1 H2 Hlt; simpl in H1, H2; try discriminate H2;
      inversion H1; inversion H2; subst; try lia.
    + exists 40%nat, [0; 0]. repeat split; reflexivity.
    + exists 42%nat, [0; 0; 0]. repeat split; reflexivity.
  - intros [|[|[|d]]] [|[|[|d']]] b H1 H2; simpl in H1, H2;
      try discriminate H1; try discriminate H2; try reflexivity;
      inversion H1; inversion H2; subst; discriminate.
Defined.

Lemma copy_memory_source_ok : buffers_ok uneven_vector copy_memory.
Proof.
  split.
  - intros [|[|[|[|d]]]] pd pd1 H1 H2 Hlt; simpl in H1, H2; try discriminate H2;
      inversion H1; inversion H2; subst; try lia.
    + exists 30%nat, [10; 20]. repeat split; reflexivity.
    + exists 32%nat, [30; 40; 50]. repeat split; reflexivity.
  - intros [|[|[|d]]] [|[|[|d']]] b H1 H2; simpl in H1, H2;
      try discriminate H1; try discriminate H2; try reflexivity;
      inversion H1; inversion H2; subst; discriminate.
Defined.

Lemma copy_memory_stores :
  stores uneven_vector copy_memory [10; 20; 30; 40; 50].
Proof.
  intros [|[|[|[|d]]]] pd pd1 b H1 H2 Hlt Hb; simpl in H1, H2, Hb;
    try discriminate H2; try discriminate Hb;
    inversion H1; inversion H2; inversion Hb; subst; try lia; reflexivity.
Defined.

Lemma uneven_buffers_apart d d' b :
  buf uneven_copy !! d = Some (Some b) -> buf uneven_vector !! d' <> Some (Some b).
Proof.
  destruct d as [|[|[|d]]]; simpl; intros H; try discriminate H;
    inversion H; subst b;
    destruct d' as [|[|[|d']]]; simpl; discriminate.
Defined.

Lemma copy_assign_copies_data_witness :
  let r := runtime_init (<[1%nat := uneven_vector]> (<[0%nat := uneven_copy]> ∅)) in
  exists cs m',
    copy_assign 4 0 1 r
    = Ok tt (with_objs_calls r (objs r) (calls r ++ cs)) /\
    Runtime.exec_all Z 4 cs copy_memory = Some m' /\
    Runtime.host m' = Runtime.host copy_memory /\
    stores uneven_copy m' [10; 20; 30; 40; 50] /\
    stores uneven_vector m' [10; 20; 30; 40; 50] /\
    buffers_ok uneven_copy m' /\ buffers_ok uneven_vector m'.
Proof.
  intros r.
  apply (copy_assign_copies_data 4 uneven_copy uneven_vector 5
           [10; 20; 30; 40; 50] uneven_copy_ok uneven_copy_partition_ok
           eq_refl uneven_buffers_apart 0%nat 1%nat r copy_memory).
  - discriminate.
  - reflexivity.
  - reflexivity.
  - reflexivity.
  - exact copy_memory_target_ok.
  - exact copy_memory_source_ok.
  - exact copy_memory_stores.
Defined.

(** * Expression assignment: launch sizes and build failures *)

(** X17.  The launch for a part that is not empty: without wrap-around
    the global size is a multiple of the cached work-group size; on a CPU
    it is the part size rounded up to it, on any other device four
    work-groups for each compute unit, whatever the part size. *)
Theorem launch_global_size v e d r q w :
  ready r v e -> cache_ok r ->
  (forall q, q ∈ queue v -> has_entry r (shape_of e) (qctx q)) ->
  queue v !! d = Some q ->
  part_size v d <> 0 ->
  wgsize (cache r (shape_of e)) !! qctx q = Some w ->
  (device_type (qdev q) = CL_DEVICE_TYPE_CPU -> part_size v d + w <= 2 ^ 32) ->
  (device_type (qdev q) <> CL_DEVICE_TYPE_CPU ->
   0 <= max_compute_units (qdev q) /\
   max_compute_units (qdev q) * w * 4 < 2 ^ 32) ->
  exists k b args g,
    launch_for v e d r
    = Ok tt (with_objs_calls r (objs r)
               (calls r ++ [EnqueueNDRangeKernel q k
                              (ArgSize (part_size v d) :: ArgBuffer b :: args)
                              g w])) /\
    Z.divide w g /\
    (device_type (qdev q) = CL_DEVICE_TYPE_CPU ->
     part_size v d <= g < part_size v d + w) /\
    (device_type (qdev q) <> CL_DEVICE_TYPE_CPU ->
     g = max_compute_units (qdev q) * w * 4).
Proof.
  intros (Hlp & Hlb & Hvec) Hok Hent Hq Hnz Hw Hcpu Hgpu.
  assert (d < length (queue v))%nat as Hd by (apply lookup_lt_Some in Hq; exact Hq).
  destruct (lookup_lt_is_Some_2 (part v) (S d) ltac:(lia)) as [pd1 Hpd1].
  destruct (lookup_lt_is_Some_2 (part v) d ltac:(lia)) as [pd Hpd].
  destruct (lookup_lt_is_Some_2 (buf v) d ltac:(lia)) as [b Hb].
  assert (part_size v d = to_uint (pd1 - pd)) as Hps
    by (unfold part_size; rewrite Hpd1, Hpd; reflexivity).
  pose proof (to_uint_range (pd1 - pd)) as [Hps0 _]. rewrite <- Hps in Hps0.
  assert (q ∈ queue v) as Hqin by (apply list_elem_of_lookup; eauto).
  destruct (Hok _ _ (Hent q Hqin)) as (k & p & w' & src & Hk & Hp & _ & Hw' & Hr).
  rewrite Hw in Hw'. inversion Hw'. subst w'. clear Hw'.
  assert (exists g,
    (match device_type (qdev q) with
     | CL_DEVICE_TYPE_CPU =>
         w0 ← index_wgsize (shape_of e) (qctx q);
         match Util.alignup (part_size v d) w0 with
         | Some g => mret g
         | None => undefined
         end
     | _ =>
         w0 ← index_wgsize (shape_of e) (qctx q);
         mret (to_uint (to_uint (max_compute_units (qdev q) * w0) * 4))
     end) r = Ok g r /\
    Z.divide w g /\
    (device_type (qdev q) = CL_DEVICE_TYPE_CPU ->
     part_size v d <= g < part_size v d + w) /\
    (device_type (qdev q) <> CL_DEVICE_TYPE_CPU ->
     g = max_compute_units (qdev q) * w * 4)) as (g & Hg & Hdiv & Hgc & Hgg).
  { assert (Hother : device_type (qdev q) <> CL_DEVICE_TYPE_CPU ->
              to_uint (to_uint (max_compute_units (qdev q) * w) * 4)
              = max_compute_units (qdev q) * w * 4).
    { intros Hne. destruct (Hgpu Hne) as [Hcu Hfit].
      assert (0 <= max_compute_units (qdev q) * w)
        by (apply Z.mul_nonneg_nonneg; lia).
      rewrite (to_uint_small (max_compute_units (qdev q) * w))
        by (unfold is_uint, uint_modulus; lia).
      apply to_uint_small. unfold is_uint, uint_modulus. lia. }
    destruct (device_type (qdev q)) eqn:Et;
      rewrite (bind_ok _ _ _ _ _ (index_wgsize_hit _ _ _ _ Hw)).
    - destruct (alignup_multiple (part_size v d) w Hps0 ltac:(lia)
                  (Hcpu eq_refl)) as (g & Hal & Hdiv & Hrange & _).
      rewrite Hal. exists g. split; [reflexivity |]. split; [exact Hdiv |].
      split; [intros _; exact Hrange | intros Hne; contradiction].
    - eexists. split; [reflexivity |]. rewrite Hother by discriminate.
      split; [exists (max_compute_units (qdev q) * 4); lia |].
      split; [discriminate | reflexivity].
    - eexists. split; [reflexivity |]. rewrite Hother by discriminate.
      split; [exists (max_compute_units (qdev q) * 4); lia |].
      split; [discriminate | reflexivity]. }
  destruct (terminal_args_ok v d r e Hvec Hd) as [args Hargs].
  exists k, b, args, g. split; [| auto].
  unfold launch_for.
  rewrite (bind_ok _ _ _ _ _ (at_ok _ _ _ r Hpd1)).
  rewrite (bind_ok _ _ _ _ _ (at_ok _ _ _ r Hpd)).
  rewrite <- Hps.
  destruct (Z.eqb_spec (part_size v d) 0) as [Hz | _]; [contradiction |].
  rewrite (bind_ok _ _ _ _ _ (at_ok _ _ _ r Hq)).
  rewrite (bind_ok _ _ _ _ _ Hg).
  rewrite (bind_ok _ _ _ _ _ (at_ok _ _ _ r Hb)).
  rewrite (bind_ok _ _ _ _ _ Hargs).
  rewrite (bind_ok _ _ _ _ _ (index_kernel_hit _ _ _ _ Hk)).
  rewrite (bind_ok _ _ _ _ _ (index_wgsize_hit _ _ _ _ Hw)).
  rewrite Hp. reflexivity.
Qed.

Lemma assigned_runtime_ok :
  ready assigned_runtime wide_vector sum_expr /\
  cache_ok assigned_runtime /\
  (forall q, q ∈ queue wide_vector ->
             has_entry assigned_runtime (shape_of sum_expr) (qctx q)).
Proof.
  assert (Hobj : objs (runtime_init (<[0%nat := wide_vector]> ∅)) !! 0%nat
                 = Some wide_vector) by reflexivity.
  destruct (assign_run
              (fun _ => "sum"%string) (fun _ => EmptyString) (fun _ => EmptyString)
              (fun _ => EmptyString) EmptyString "float"%string
              (fun _ _ => true) (fun _ _ => EmptyString) (fun _ _ => 256)
              ltac:(intros; lia)
              (runtime_init (<[0%nat := wide_vector]> ∅)) 0%nat wide_vector sum_expr
              Hobj sum_expr_ready (runtime_init_cache_ok _))
    as (r' & built & launches & _ & _ & Hobjs & Hok & _ & _
        & [(Hrun & _ & Hall & _) | (Hrun & _)]).
  - assert (assigned_runtime = r') as ->.
    { unfold assigned_runtime, assign_example. rewrite Hrun. reflexivity. }
    split; [| split; [exact Hok | exact Hall]].
    apply (ready_objs _ _ _ _ Hobjs). exact sum_expr_ready.
  - vm_compute in Hrun. discriminate Hrun.
Defined.

Lemma launch_global_size_witness :
  exists k b args g,
    launch_for wide_vector sum_expr 0 assigned_runtime
    = Ok tt (with_objs_calls assigned_runtime (objs assigned_runtime)
               (calls assigned_runtime
                  ++ [EnqueueNDRangeKernel queue0 k
                        (ArgSize (part_size wide_vector 0)
                           :: ArgBuffer b :: args) g 256])) /\
    Z.divide 256 g /\
    (device_type (qdev queue0) = CL_DEVICE_TYPE_CPU ->
     part_size wide_vector 0 <= g < part_size wide_vector 0 + 256) /\
    (device_type (qdev queue0) <> CL_DEVICE_TYPE_CPU ->
     g = max_compute_units (qdev queue0) * 256 * 4).
Proof.
  destruct assigned_runtime_ok as (Hready & Hok & Hall).
  apply (launch_global_size wide_vector sum_expr 0%nat assigned_runtime
           queue0 256 Hready Hok Hall).
  - reflexivity.
  - vm_compute. discriminate.
  - vm_compute. reflexivity.
  - intros _. vm_compute. discriminate.
  - intros Hne. exfalso. apply Hne. reflexivity.
Defined.

Section AssignmentProperties.
Variables kernel_name_of user_functions_of parameters_of body_of : expr -> string.
Variables standard_kernel_header type_name_T : string.
Variable builds : cl_context -> string -> bool.
Variable build_log : cl_context -> string -> string.
Variable work_group_info : Kernel -> Device -> Z.

Abbreviation source_of_expr :=
  (kernel_source kernel_name_of user_functions_of parameters_of body_of
     standard_kernel_header type_name_T).
Abbreviation compile_expr :=
  (compile_all kernel_name_of user_functions_of parameters_of body_of
     standard_kernel_header type_name_T builds build_log work_group_info).
Abbreviation assign_vector :=
  (assign kernel_name_of user_functions_of parameters_of body_of
     standard_kernel_header type_name_T builds build_log work_group_info).

(** The first loop builds for the contexts that lack an entry, in order,
    and stops at the first whose build fails: the contexts before it get
    their entries, the failing one gets none, the log is printed and the
    error is thrown again.  Afterwards the failing context is the first
    that lacks an entry. *)
Lemma compile_all_fail_at e c rest : forall qs pre r,
  to_build (compiled_in r (shape_of e)) qs = pre ++ c :: rest ->
  (forall c', c' ∈ pre -> builds c' (source_of_expr e) = true) ->
  builds c (source_of_expr e) = false ->
  exists r1,
    compile_expr e qs r = Throw (cl_Error CL_BUILD_PROGRAM_FAILURE) r1 /\
    calls r1 = calls r ++ map (fun c' => BuildProgram c' (source_of_expr e)) pre
                       ++ [BuildProgram c (source_of_expr e)] /\
    cerr r1 = cerr r ++ [build_log c (source_of_expr e)] /\
    objs r1 = objs r /\
    keeps_entries r r1 /\
    (forall s' c', has_entry r1 s' c' ->
                   has_entry r s' c' \/ (s' = shape_of e /\ c' ∈ pre)) /\
    (forall c', c' ∈ pre -> has_entry r1 (shape_of e) c') /\
    to_build (compiled_in r1 (shape_of e)) qs = c :: rest.
Proof.
  induction qs as [| q qs IH]; intros pre r Hb Hpre Hf.
  { destruct pre; discriminate Hb. }
  cbn [to_build] in Hb. cbn [compile_all].
  destruct (compiled_in r (shape_of e) (qctx q)) eqn:Ein.
  - assert (has_entry r (shape_of e) (qctx q)) as Hhas
      by (unfold compiled_in in Ein; apply bool_decide_eq_true in Ein; exact Ein).
    rewrite (bind_ok _ _ _ _ _
               (compile_for_hit kernel_name_of user_functions_of parameters_of
                  body_of standard_kernel_header type_name_T builds build_log
                  work_group_info e q r Hhas)).
    destruct (IH pre r Hb Hpre Hf)
      as (r1 & Hrun & Hcalls & Hcerr & Hobjs & Hkeep & Hnew & Hold & Hnext).
    exists r1. do 7 (split; [assumption |]).
    cbn [to_build].
    assert (compiled_in r1 (shape_of e) (qctx q) = true) as ->; [| exact Hnext].
    unfold compiled_in. apply bool_decide_eq_true. apply Hkeep, Hhas.
  - assert (~ has_entry r (shape_of e) (qctx q)) as Hno.
    { unfold compiled_in in Ein. apply bool_decide_eq_false in Ein. exact Ein. }
    destruct pre as [| p pre].
    + inversion Hb as [[Hc Hrest]]. subst c.
      destruct (compile_for_fail kernel_name_of user_functions_of parameters_of
                  body_of standard_kernel_header type_name_T builds build_log
                  work_group_info e q r Hno Hf)
        as (r1 & Hrun & Hcalls & Hobjs & Hcerr & Hcomp & Hkw).
      assert (forall c', compiled_in r1 (shape_of e) c' = compiled_in r (shape_of e) c')
        as Hsame.
      { intros c'. unfold compiled_in. apply bool_decide_ext. apply Hcomp. }
      exists r1. split; [apply bind_throw; exact Hrun |].
      split; [exact Hcalls |]. split; [exact Hcerr |]. split; [exact Hobjs |].
      split.
      { intros s' c' H. unfold has_entry, entry_of in *.
        destruct (Hkw s') as [-> ->]. split; [apply Hcomp; exact H | reflexivity]. }
      split; [intros s' c' H; left; apply Hcomp; exact H |].
      split; [intros c' Hin; inversion Hin |].
      cbn [to_build]. rewrite Hsame, Ein. f_equal.
      apply to_build_ext. intros c'. rewrite Hsame. reflexivity.
    + inversion Hb as [[Hp Hrest]]. subst p.
      assert (builds (qctx q) (source_of_expr e) = true) as Hbq
        by (apply Hpre; left).
      destruct (compile_for_miss kernel_name_of user_functions_of parameters_of
                  body_of standard_kernel_header type_name_T builds build_log
                  work_group_info e q r Hno Hbq)
        as (r0 & Hrun0 & Hcalls0 & Hrec).
      rewrite (bind_ok _ _ _ _ _ Hrun0).
      rewrite <- (to_build_ext _ _ qs
                    (fun c' => compiled_in_recorded _ _ _ _ _ _ c' Hrec)) in Hrest.
      destruct (IH pre r0 Hrest ltac:(intros c' Hin; apply Hpre; right; exact Hin) Hf)
        as (r1 & Hrun & Hcalls & Hcerr & Hobjs & Hkeep & Hnew & Hold & Hnext).
      pose proof (recorded_entry _ _ _ _ _ _ Hrec) as Hent0.
      destruct Hrec as (Ho & Hco & Hce & Hrec').
      assert (recorded r r0 (shape_of e) (qctx q)
                {| kernel_program := Some (length (calls r));
                   kernel_name := kernel_name_of e |}
                (Util.kernel_workgroup_size work_group_info
                   {| kernel_program := Some (length (calls r));
                      kernel_name := kernel_name_of e |} [qdev q])) as Hrec
        by (unfold recorded; auto).
      exists r1. split; [exact Hrun |].
      split; [rewrite Hcalls, Hcalls0; cbn [map]; rewrite <- !app_assoc; reflexivity |].
      split; [rewrite Hcerr, Hce; reflexivity |].
      split; [congruence |].
      split; [eapply keeps_entries_trans;
                [eapply recorded_keeps; eassumption | exact Hkeep] |].
      split.
      { intros s' c' H. destruct (Hnew s' c' H) as [H1 | [-> Hin]].
        - destruct (recorded_new _ _ _ _ _ _ _ _ Hrec H1) as [? | [-> ->]]; [auto |].
          right. split; [reflexivity | left].
        - right. split; [reflexivity | right; exact Hin]. }
      split.
      { intros c' Hin. apply elem_of_cons in Hin as [-> | Hin];
          [apply Hkeep, Hent0 | apply Hold, Hin]. }
      cbn [to_build].
      assert (compiled_in r1 (shape_of e) (qctx q) = true) as ->; [| exact Hnext].
      unfold compiled_in. apply bool_decide_eq_true. apply Hkeep, Hent0.
Qed.

(** X18.  A build that fails is not recorded.  When the assignment has
    to build for the contexts [pre ++ c :: rest], the builds for [pre]
    succeed and the build for [c] fails, it prints the build log of [c]
    to [std::cerr], throws, launches nothing and leaves the vectors as
    they were; the cache keeps its entries and gains one for each context
    of [pre], and none for [c].  The next assignment of the expression
    builds the source for [c] again, and only for [c], and fails in the
    same way. *)
Theorem build_failure_not_cached (this : addr) (v : vector) (e : expr)
    (pre : list cl_context) (c : cl_context) (rest : list cl_context)
    (r : runtime) :
  objs r !! this = Some v ->
  to_build (compiled_in r (shape_of e)) (queue v) = pre ++ c :: rest ->
  (forall c', c' ∈ pre -> builds c' (source_of_expr e) = true) ->
  builds c (source_of_expr e) = false ->
  exists r1 r2,
    assign_vector this e r = Throw (cl_Error CL_BUILD_PROGRAM_FAILURE) r1 /\
    calls r1 = calls r ++ map (fun c' => BuildProgram c' (source_of_expr e)) pre
                       ++ [BuildProgram c (source_of_expr e)] /\
    cerr r1 = cerr r ++ [build_log c (source_of_expr e)] /\
    objs r1 = objs r /\
    keeps_entries r r1 /\
    (forall s' c', has_entry r1 s' c' <->
                   has_entry r s' c' \/ (s' = shape_of e /\ c' ∈ pre)) /\
    ~ has_entry r1 (shape_of e) c /\
    assign_vector this e r1 = Throw (cl_Error CL_BUILD_PROGRAM_FAILURE) r2 /\
    calls r2 = calls r1 ++ [BuildProgram c (source_of_expr e)] /\
    cerr r2 = cerr r1 ++ [build_log c (source_of_expr e)].
Proof.
  intros Hobj Hb Hpre Hf.
  destruct (compile_all_fail_at e c rest (queue v) pre r Hb Hpre Hf)
    as (r1 & Hrun1 & Hcalls1 & Hcerr1 & Hobjs1 & Hkeep1 & Hnew1 & Hold1 & Hb1).
  destruct (compile_all_fail_at e c rest (queue v) [] r1 Hb1
              ltac:(intros c' Hin; inversion Hin) Hf)
    as (r2 & Hrun2 & Hcalls2 & Hcerr2 & _).
  assert (objs r1 !! this = Some v) as Hobj1 by (rewrite Hobjs1; exact Hobj).
  assert (c ∈ to_build (compiled_in r1 (shape_of e)) (queue v)) as Hc1
    by (rewrite Hb1; left).
  apply to_build_elem in Hc1 as [Hc1 _].
  exists r1, r2. unfold assign.
  rewrite (bind_ok _ _ _ _ _ (load_ok _ _ r Hobj)).
  rewrite (bind_ok _ _ _ _ _ (load_ok _ _ r1 Hobj1)).
  split; [apply bind_throw; exact Hrun1 |].
  do 4 (split; [assumption |]).
  split.
  { intros s' c'. split; [apply Hnew1 |].
    intros [H | [-> Hin]]; [apply Hkeep1, H | apply Hold1, Hin]. }
  split.
  { unfold compiled_in in Hc1. apply bool_decide_eq_false in Hc1. exact Hc1. }
  split; [apply bind_throw; exact Hrun2 |]. auto.
Qed.

Hypothesis Hpos : forall k d, 0 < work_group_info k d < 2 ^ 32.


End AssignmentProperties.

(** Two contexts: the build for the first succeeds and is recorded, the
    build for the second fails. *)
Lemma build_failure_not_cached_witness :
  let r := runtime_init (<[0%nat := mixed_vector]> ∅) in
  let source :=
    kernel_source (fun _ => "sum"%string) (fun _ => EmptyString)
      (fun _ => EmptyString) (fun _ => EmptyString) EmptyString "float"%string
      sum_expr in
  let assign_failing :=
    assign (fun _ => "sum"%string) (fun _ => EmptyString) (fun _ => EmptyString)
      (fun _ => EmptyString) EmptyString "float"%string
      (fun c _ => bool_decide (c = 0%nat)) (fun _ _ => "log"%string)
      (fun _ _ => 256) in
  exists r1 r2,
    assign_failing 0%nat sum_expr r = Throw (cl_Error CL_BUILD_PROGRAM_FAILURE) r1 /\
    calls r1 = calls r ++ map (fun c' => BuildProgram c' source) [0%nat]
                       ++ [BuildProgram 1 source] /\
    cerr r1 = cerr r ++ ["log"%string] /\
    objs r1 = objs r /\
    keeps_entries r r1 /\
    (forall s' c', has_entry r1 s' c' <->
                   has_entry r s' c' \/ (s' = shape_of sum_expr /\ c' ∈ [0%nat])) /\
    ~ has_entry r1 (shape_of sum_expr) 1%nat /\
    assign_failing 0%nat sum_expr r1 = Throw (cl_Error CL_BUILD_PROGRAM_FAILURE) r2 /\
    calls r2 = calls r1 ++ [BuildProgram 1 source] /\
    cerr r2 = cerr r1 ++ ["log"%string].
Proof.
  intros r source assign_failing.
  apply (build_failure_not_cached
           (fun _ => "sum"%string) (fun _ => EmptyString) (fun _ => EmptyString)
           (fun _ => EmptyString) EmptyString "float"%string
           (fun c _ => bool_decide (c = 0%nat)) (fun _ _ => "log"%string)
           (fun _ _ => 256)
           0%nat mixed_vector sum_expr [0%nat] 1%nat [] r).
  - reflexivity.
  - reflexivity.
  - intros c' Hin. apply list_elem_of_singleton in Hin. subst c'. reflexivity.
  - reflexivity.
Defined.


(** * Swapping two vectors *)

(** X20.  [swap] exchanges the two vectors without a call into the
    runtime; swapping twice restores the state, and it does not matter
    which of the two vectors [swap] is called on. *)
Theorem swap_twice_restores (x y : addr) (a b : vector) (r : runtime) :
  objs r !! x = Some a ->
  objs r !! y = Some b ->
  exists r1,
    swap_vectors x y r = Ok tt r1 /\
    objs r1 !! x = Some b /\ objs r1 !! y = Some a /\
    calls r1 = calls r /\
    swap_vectors y x r = Ok tt r1 /\
    swap_vectors x y r1 = Ok tt r.
Proof.
  intros Ha Hb. unfold swap_vectors.
  set (r1 := {| objs := <[y := a]> (<[x := b]> (objs r)); calls := calls r;
                cache := cache r; cout := cout r; cerr := cerr r |}).
  assert (objs r1 !! x = Some b) as Hx1.
  { unfold r1. cbn [objs]. destruct (decide (x = y)) as [-> | Hne].
    - rewrite lookup_insert_eq. congruence.
    - rewrite lookup_insert_ne by congruence. apply lookup_insert_eq. }
  assert (objs r1 !! y = Some a) as Hy1
    by (unfold r1; cbn [objs]; apply lookup_insert_eq).
  exists r1. split; [apply swap_run; assumption |].
  split; [exact Hx1 |]. split; [exact Hy1 |]. split; [reflexivity |]. split.
  - rewrite (swap_run r y x b a Hb Ha). unfold r1. do 2 f_equal.
    destruct (decide (x = y)) as [-> | Hne].
    + rewrite Ha in Hb. inversion Hb. reflexivity.
    + apply insert_insert_ne. congruence.
  - rewrite (swap_run r1 x y b a Hx1 Hy1). unfold r1. cbn [objs calls cache cout cerr].
    destruct r as [o c ca co ce]. cbn [objs calls cache cout cerr] in *.
    do 2 f_equal. apply map_eq. intros k.
    destruct (decide (k = y)) as [-> | Hky].
    + rewrite lookup_insert_eq. symmetry. exact Hb.
    + rewrite lookup_insert_ne by congruence.
      destruct (decide (k = x)) as [-> | Hkx].
      * rewrite lookup_insert_eq. symmetry. exact Ha.
      * rewrite !lookup_insert_ne by congruence. reflexivity.
Qed.

Lemma swap_twice_restores_witness :
  let r := runtime_init (<[1%nat := small_vector]> (<[0%nat := wide_vector]> ∅)) in
  exists r1,
    swap_vectors 0 1 r = Ok tt r1 /\
    objs r1 !! 0%nat = Some small_vector /\ objs r1 !! 1%nat = Some wide_vector /\
    calls r1 = calls r /\
    swap_vectors 1 0 r = Ok tt r1 /\
    swap_vectors 0 1 r1 = Ok tt r.
Proof.
  intros r.
  apply (swap_twice_restores 0%nat 1%nat wide_vector small_vector r);
    reflexivity.
Defined.

(** * Reading a range of a vector *)

Section RangeFacts.
Context {T : Type}.
Implicit Types l X Y : list T.

Lemma slice_slice l a len i k :
  (i + k <= len)%nat ->
  Runtime.slice T (Runtime.slice T l a len) i k = Runtime.slice T l (a + i) k.
Proof.
  intros H. unfold Runtime.slice.
  replace len with (i + (len - i))%nat at 1 by lia.
  rewrite <- take_drop_commute, take_take, drop_drop.
  rewrite Nat.min_l by lia. reflexivity.
Qed.

Lemma slice_app l a k1 k2 :
  Runtime.slice T l a k1 ++ Runtime.slice T l (a + k1) k2
  = Runtime.slice T l a (k1 + k2).
Proof.
  unfold Runtime.slice. rewrite <- drop_drop. apply take_take_drop.
Qed.

Lemma length_splice l i X :
  (i + length X <= length l)%nat -> length (Runtime.splice T l i X) = length l.
Proof.
  intros H. unfold Runtime.splice.
  rewrite !length_app, length_take, length_drop. lia.
Qed.

Lemma splice_nil l i : Runtime.splice T l i [] = l.
Proof.
  unfold Runtime.splice. simpl. rewrite Nat.add_0_r. apply take_drop.
Qed.

(** Writing [Y] right after [X] is writing [X ++ Y]. *)
Lemma splice_splice l i X Y :
  (i + length X <= length l)%nat ->
  Runtime.splice T (Runtime.splice T l i X) (i + length X) Y
  = Runtime.splice T l i (X ++ Y).
Proof.
  intros H. unfold Runtime.splice.
  assert ((i + length X)%nat = length (take i l ++ X)) as Hl
    by (rewrite length_app, length_take; lia).
  rewrite (app_assoc (take i l) X).
  rewrite (take_app_length' _ _ _ Hl).
  rewrite (drop_app_add' _ _ _ (length Y) Hl), drop_drop.
  rewrite length_app, <- !app_assoc, Nat.add_assoc. reflexivity.
Qed.

End RangeFacts.

Section RangeRead.
Context {T : Type}.
Variable sizeof_T : Z.
Variable v : vector.
Variable n : Z.
Variable data : list T.
Hypothesis Hok : vector_ok sizeof_T v.
Hypothesis Hpart : partition_ok v n.
Hypothesis Hdata : Z.of_nat (length data) = n.

Variables offset size : Z.
Hypothesis Hoffset : 0 <= offset.
Hypothesis Hsize : 0 <= size.

(** How far the range has been read once the parts up to the boundary
    [p] are done. *)
Let reached (p : Z) : Z := Z.max offset (Z.min (offset + size) p).

Variable blk : nat.
Variable i0 : Z.
Variable out0 : list T.
Hypothesis Hi0 : 0 <= i0.
Hypothesis Hroom :
  (Z.to_nat i0 + Z.to_nat (Z.min (offset + size) n - offset)
   <= length out0)%nat.

Let read_so_far (p : Z) : list T :=
  Runtime.splice T out0 (Z.to_nat i0)
    (Runtime.slice T data (Z.to_nat offset) (Z.to_nat (reached p - offset))).

(** The gather of a range: after the reads of the devices [d0, d0 + k)
    the host array holds the elements of the range up to the end of the
    last of these parts. *)
Lemma exec_reads_range k : forall d0 cs (m : Runtime.memory T) pd0,
  Forall2 (fun h c => transfer_call sizeof_T DeviceToHost v offset
                        {| block := blk; index := i0 |} h = Some c)
          (hits_on offset size v (seq d0 k)) cs ->
  (d0 + k <= length (queue v))%nat ->
  part v !! d0 = Some pd0 ->
  Runtime.host m !! blk = Some (read_so_far pd0) ->
  buffers_ok v m -> stores v m data ->
  exists m' pdk,
    Runtime.exec_all T sizeof_T cs m = Some m' /\
    part v !! (d0 + k)%nat = Some pdk /\
    Runtime.host m' !! blk = Some (read_so_far pdk) /\
    Runtime.device m' = Runtime.device m /\
    (forall b', b' <> blk -> Runtime.host m' !! b' = Runtime.host m !! b').
Proof.
  induction k as [| k IH]; intros d0 cs m pd0 Hcs Hk Hd0 Hhost Hbuf Hst.
  - simpl in Hcs. apply Forall2_nil_inv_l in Hcs as ->. exists m, pd0. simpl.
    rewrite Nat.add_0_r. auto.
  - cbn [seq] in Hcs. rewrite hits_on_cons in Hcs.
    destruct (part_lookup sizeof_T v Hok d0 ltac:(lia))
      as (pd & pd1 & Hd & Hd1 & Hu & Hu1 & Hbytes).
    rewrite Hd0 in Hd. inversion Hd as [E]. clear Hd. rename Hd0 into Hd.
    rewrite <- E in *. clear E pd.
    rewrite (meets_eq _ _ _ _ _ _ Hd Hd1) in Hcs.
    pose proof (part_bounds sizeof_T v n data Hok Hpart _ _ Hd) as Hb0.
    pose proof (part_bounds sizeof_T v n data Hok Hpart _ _ Hd1) as Hb1.
    assert (pd0 <= pd1) as Hmono
      by (destruct Hpart as (_ & _ & Hm); apply (Hm _ _ _ Hd Hd1)).
    replace (d0 + S k)%nat with (S d0 + k)%nat by lia.
    set (start := Z.max offset pd0) in *.
    set (stop := Z.min (offset + size) pd1) in *.
    destruct (Z.ltb_spec start stop) as [Hlt | Hge].
    + apply Forall2_cons_inv_l in Hcs as (c & cs' & Hc & Hcs' & ->).
      destruct Hbuf as [Hall Hinj].
      destruct (Hall d0 pd0 pd1 Hd Hd1 ltac:(lia)) as (b & content & Hb & Hdev & Hl).
      destruct (lookup_lt_is_Some_2 (queue v) d0 ltac:(lia)) as [q Hq].
      rewrite (transfer_call_eq _ _ _ _ _ _ _ _ _ _ _ Hq Hb Hd) in Hc.
      inversion Hc as [Ec]. clear Hc.
      pose proof (Hst d0 pd0 pd1 b Hd Hd1 ltac:(lia) Hb) as Hsrc.
      assert (reached pd0 = start) as Hr0 by (unfold reached; lia).
      assert (reached pd1 = stop) as Hr1 by (unfold reached; lia).
      assert (stop <= Z.min (offset + size) n) as Hrn by lia.
      set (X := Runtime.slice T data (Z.to_nat offset) (Z.to_nat (start - offset))).
      assert (length X = Z.to_nat (start - offset)) as HX
        by (unfold X; rewrite slice_length; lia).
      set (m1 := {| Runtime.device := Runtime.device m;
                    Runtime.host := <[blk := read_so_far pd1]> (Runtime.host m) |}).
      assert (Runtime.exec_transfer T sizeof_T
                (EnqueueReadBuffer q (Some b) false (sizeof_T * (start - pd0))
                   (sizeof_T * (stop - start))
                   {| block := blk; index := i0 + (start - offset) |}) m
              = Some m1) as Hexec.
      { assert (Runtime.host m !! blk
                = Some (Runtime.splice T out0 (Z.to_nat i0) X)) as Hhost'
          by (rewrite Hhost; unfold read_so_far; rewrite Hr0; reflexivity).
        cbn [Runtime.exec_transfer]. rewrite Hsrc. simpl mbind. cbn [block index].
        rewrite Hhost'. simpl mbind.
        rewrite !(bytes_elems sizeof_T v data Hok).
        rewrite decide_True.
        2:{ split; [lia |]. split.
            - rewrite length_splice by lia. lia.
            - rewrite slice_length by lia. lia. }
        unfold m1. do 3 f_equal.
        rewrite slice_slice by lia.
        replace (Z.to_nat (i0 + (start - offset)))
          with (Z.to_nat i0 + length X)%nat by lia.
        rewrite splice_splice by lia.
        unfold read_so_far. rewrite Hr1. f_equal. unfold X.
        replace (Z.to_nat pd0 + Z.to_nat (start - pd0))%nat
          with (Z.to_nat offset + Z.to_nat (start - offset))%nat by lia.
        rewrite slice_app. f_equal. lia. }
      destruct (IH (S d0) cs' m1 pd1 Hcs' ltac:(lia) Hd1)
        as (m' & pdk & Hrun & Hpk & Hh & Hdv & Hfr).
      { unfold m1. cbn [Runtime.host]. apply lookup_insert_eq. }
      { split; [exact Hall | exact Hinj]. }
      { exact Hst. }
      exists m', pdk. cbn [Runtime.exec_all enqueue_transfer].
      rewrite Hexec. simpl mbind.
      split; [exact Hrun |]. split; [exact Hpk |]. split; [exact Hh |].
      split; [exact Hdv |]. intros b' Hb'. rewrite (Hfr b' Hb').
      unfold m1. cbn [Runtime.host]. apply lookup_insert_ne. congruence.
    + assert (reached pd1 = reached pd0) as Hr by (unfold reached; lia).
      apply (IH (S d0) cs m pd1 Hcs ltac:(lia) Hd1); try assumption.
      unfold read_so_far. rewrite Hr. exact Hhost.
Qed.

(** A blocking [read_data] of a range, run by the runtime. *)
Lemma read_data_range_run (this : addr) (r : runtime) (m : Runtime.memory T) :
  objs r !! this = Some v ->
  offset + size < 2 ^ 32 ->
  buffers_ok v m -> stores v m data ->
  Runtime.host m !! blk = Some out0 ->
  exists r1 trace st,
    read_data sizeof_T this offset size {| block := blk; index := i0 |} true r
    = Ok tt r1 /\
    calls r1 = calls r ++ trace /\
    Runtime.run_calls T sizeof_T (length (calls r)) trace
      (Runtime.Build_cl_state T m []) = Some st /\
    Runtime.pending st = [] /\
    Runtime.device (Runtime.mem st) = Runtime.device m /\
    Runtime.host (Runtime.mem st) !! blk
    = Some (Runtime.splice T out0 (Z.to_nat i0)
              (Runtime.slice T data (Z.to_nat offset)
                 (Z.to_nat (Z.min (offset + size) n - offset)))) /\
    (forall b', b' <> blk ->
                Runtime.host (Runtime.mem st) !! b' = Runtime.host m !! b').
Proof.
  intros Hobj Hend Hbuf Hst Hout.
  assert (is_uint offset) as Huo by (unfold is_uint, uint_modulus; lia).
  assert (is_uint size) as Hus by (unfold is_uint, uint_modulus; lia).
  destruct (transfer_data_run sizeof_T DeviceToHost this v offset size
              {| block := blk; index := i0 |} true r Hobj Hok Huo Hus Hend)
    as (cs & r1 & Hrun & Hcalls & Hcs & _).
  pose proof (Forall2_length _ _ _ Hcs) as Hl.
  destruct Hpart as (Hp0 & Hlast & _).
  destruct (exec_reads_range (length (queue v)) 0%nat cs m 0 Hcs ltac:(lia) Hp0)
    as (m' & pdk & Hex & Hpk & Hh & Hdv & Hfr); try assumption.
  { unfold read_so_far.
    replace (Z.to_nat (reached 0 - offset)) with 0%nat by (unfold reached; lia).
    unfold Runtime.slice. rewrite take_0, splice_nil. exact Hout. }
  assert (pdk = n) as ->.
  { destruct Hok as (Hlen & _). rewrite last_lookup, Hlen in Hlast.
    simpl in Hlast, Hpk. congruence. }
  exists r1, (cs ++ map EventWait (seq (length (calls r)) (length (hits offset size v)))),
    (Runtime.Build_cl_state T m' []).
  split; [exact Hrun |]. split; [exact Hcalls |]. split.
  { rewrite Hl.
    rewrite run_batch by (eapply transfer_calls_pending; exact Hcs).
    rewrite Hex. reflexivity. }
  split; [reflexivity |]. split; [exact Hdv |]. split; [| exact Hfr].
  cbn [Runtime.mem]. rewrite Hh. unfold read_so_far. do 3 f_equal.
  unfold reached. lia.
Qed.

(** X21.  On a well-formed vector that holds [data], for a range whose
    end [offset + size] does not wrap around ([offset + size < 2^32]) and
    a host array with room for what is read: a blocking [read_data]
    copies to the host exactly the elements of the vector in the range
    asked for, cut off at the end of the vector, in order from the
    pointer given; the rest of that host array, the other host arrays and
    the device buffers are as before. *)
Theorem read_data_range (this : addr) (r : runtime) (m : Runtime.memory T) :
  objs r !! this = Some v ->
  offset + size < 2 ^ 32 ->
  buffers_ok v m -> stores v m data ->
  Runtime.host m !! blk = Some out0 ->
  exists r1 trace st,
    read_data sizeof_T this offset size {| block := blk; index := i0 |} true r
    = Ok tt r1 /\
    calls r1 = calls r ++ trace /\
    Runtime.run_calls T sizeof_T (length (calls r)) trace
      (Runtime.Build_cl_state T m []) = Some st /\
    Runtime.pending st = [] /\
    Runtime.device (Runtime.mem st) = Runtime.device m /\
    Runtime.host (Runtime.mem st) !! blk
    = Some (Runtime.splice T out0 (Z.to_nat i0)
              (Runtime.slice T data (Z.to_nat offset)
                 (Z.to_nat (Z.min (offset + size) n - offset)))) /\
    (forall b', b' <> blk ->
                Runtime.host (Runtime.mem st) !! b' = Runtime.host m !! b').
Proof. exact (read_data_range_run this r m). Qed.


End RangeRead.

(** Ten elements asked for from position 1 of a vector of five: four are
    read. *)
Lemma read_data_range_witness :
  let r := runtime_init (<[0%nat := uneven_vector]> ∅) in
  exists r1 trace st,
    read_data 4 0 1 10 {| block := 0; index := 1 |} true r = Ok tt r1 /\
    calls r1 = calls r ++ trace /\
    Runtime.run_calls Z 4 (length (calls r)) trace
      (Runtime.Build_cl_state Z range_memory []) = Some st /\
    Runtime.pending st = [] /\
    Runtime.device (Runtime.mem st) = Runtime.device range_memory /\
    Runtime.host (Runtime.mem st) !! 0%nat
    = Some (Runtime.splice Z [0; 0; 0; 0; 0; 0] (Z.to_nat 1)
              (Runtime.slice Z [10; 20; 30; 40; 50] (Z.to_nat 1)
                 (Z.to_nat (Z.min (1 + 10) 5 - 1)))) /\
    (forall b', b' <> 0%nat ->
                Runtime.host (Runtime.mem st) !! b' = Runtime.host range_memory !! b').
Proof.
  intros r.
  apply (read_data_range 4 uneven_vector 5 [10; 20; 30; 40; 50]
           uneven_vector_ok uneven_partition_ok eq_refl 1 10
           ltac:(lia) ltac:(lia) 0%nat 1 [0; 0; 0; 0; 0; 0]
           ltac:(lia) ltac:(simpl; lia) 0%nat r range_memory).
  - reflexivity.
  - lia.
  - exact element_memory_buffers_ok.
  - exact element_memory_stores.
  - reflexivity.
Defined.


(** * Writing a range of a vector *)

Section WindowFacts.
Context {T : Type}.
Implicit Types l data src S : list T.

Lemma lookup_slice l a k j :
  Runtime.slice T l a k !! j = if decide (j < k)%nat then l !! (a + j)%nat else None.
Proof.
  unfold Runtime.slice. rewrite lookup_take, lookup_drop. reflexivity.
Qed.

Lemma lookup_splice l i S j :
  (i + length S <= length l)%nat ->
  Runtime.splice T l i S !! j
  = if decide (j < i)%nat then l !! j
    else if decide (j < i + length S)%nat then S !! (j - i)%nat
         else l !! j.
Proof.
  intros H. unfold Runtime.splice.
  assert (length (take i l) = i) as Hl by (rewrite length_take; lia).
  destruct (decide (j < i)%nat) as [Hlt | Hge].
  - rewrite lookup_app_l by lia. apply lookup_take_lt. exact Hlt.
  - rewrite lookup_app_r by lia. rewrite Hl.
    destruct (decide (j < i + length S)%nat) as [Hin | Hout].
    + rewrite lookup_app_l by lia. reflexivity.
    + rewrite lookup_app_r by lia. rewrite lookup_drop. f_equal. lia.
Qed.

(** The buffer of a part that meets the range written, after the write
    of the share of the part. *)
Lemma window_hit data src a len i0 p L :
  (a + len <= length data)%nat ->
  (i0 + len <= length src)%nat ->
  (p + L <= length data)%nat ->
  (Nat.max a p < Nat.min (a + len) (p + L))%nat ->
  Runtime.splice T (Runtime.slice T data p L) (Nat.max a p - p)
    (Runtime.slice T src (i0 + (Nat.max a p - a))
       (Nat.min (a + len) (p + L) - Nat.max a p))
  = Runtime.slice T (Runtime.splice T data a (Runtime.slice T src i0 len)) p L.
Proof.
  intros Ha Hi Hp Hlt. apply list_eq. intros j.
  assert (length (Runtime.slice T src i0 len) = len) as HS
    by (apply slice_length; lia).
  assert (length (Runtime.slice T src (i0 + (Nat.max a p - a))
                    (Nat.min (a + len) (p + L) - Nat.max a p))
          = (Nat.min (a + len) (p + L) - Nat.max a p)%nat) as HY
    by (apply slice_length; lia).
  rewrite lookup_splice by (rewrite HY, slice_length; lia).
  rewrite HY, !lookup_slice.
  rewrite lookup_splice by (rewrite HS; lia).
  rewrite HS, lookup_slice.
  repeat case_decide; try lia; try reflexivity; f_equal; lia.
Qed.

(** The buffer of a part that the range written does not meet. *)
Lemma window_miss data src a len i0 p L :
  (len = 0 \/ a + len <= length data)%nat ->
  (i0 + len <= length src)%nat ->
  (Nat.min (a + len) (p + L) <= Nat.max a p)%nat ->
  Runtime.slice T data p L
  = Runtime.slice T (Runtime.splice T data a (Runtime.slice T src i0 len)) p L.
Proof.
  intros Ha Hi Hle. destruct (decide (len = 0)%nat) as [-> | Hlen].
  - unfold Runtime.slice at 3. rewrite take_0, splice_nil. reflexivity.
  - apply list_eq. intros j.
    assert (length (Runtime.slice T src i0 len) = len) as HS
      by (apply slice_length; lia).
    rewrite !lookup_slice.
    rewrite lookup_splice by (rewrite HS; lia).
    rewrite HS, lookup_slice.
    repeat case_decide; try lia; try reflexivity; f_equal; lia.
Qed.

End WindowFacts.

Section RangeWrite.
Context {T : Type}.
Variable sizeof_T : Z.
Variable v : vector.
Variable n : Z.
Variable data : list T.
Hypothesis Hok : vector_ok sizeof_T v.
Hypothesis Hpart : partition_ok v n.
Hypothesis Hdata : Z.of_nat (length data) = n.

Variables offset size : Z.
Hypothesis Hoffset : 0 <= offset.
Hypothesis Hsize : 0 <= size.

Variable blk : nat.
Variable i0 : Z.
Variable src : list T.
Hypothesis Hi0 : 0 <= i0.
Hypothesis Hroom :
  (Z.to_nat i0 + Z.to_nat (Z.min (offset + size) n - offset)
   <= length src)%nat.

(** What the vector holds after the write: [data] with the range
    replaced by the host elements. *)
Let written : list T :=
  Runtime.splice T data (Z.to_nat offset)
    (Runtime.slice T src (Z.to_nat i0)
       (Z.to_nat (Z.min (offset + size) n - offset))).

(** The scatter of a range: after the writes of the devices
    [d0, d0 + k) each of their buffers holds its part of the new
    contents. *)
Lemma exec_writes_range k : forall d0 cs (m : Runtime.memory T),
  Forall2 (fun h c => transfer_call sizeof_T HostToDevice v offset
                        {| block := blk; index := i0 |} h = Some c)
          (hits_on offset size v (seq d0 k)) cs ->
  (d0 + k <= length (queue v))%nat ->
  Runtime.host m !! blk = Some src ->
  buffers_ok v m ->
  (forall d pd pd1 b,
      (d0 <= d < d0 + k)%nat ->
      part v !! d = Some pd -> part v !! S d = Some pd1 -> pd < pd1 ->
      buf v !! d = Some (Some b) ->
      Runtime.device m !! b
        = Some (Runtime.slice T data (Z.to_nat pd) (Z.to_nat (pd1 - pd)))) ->
  exists m',
    Runtime.exec_all T sizeof_T cs m = Some m' /\
    Runtime.host m' = Runtime.host m /\
    buffers_ok v m' /\
    (forall b, (forall d, (d0 <= d < d0 + k)%nat -> buf v !! d <> Some (Some b)) ->
               Runtime.device m' !! b = Runtime.device m !! b) /\
    (forall d pd pd1 b,
        (d0 <= d < d0 + k)%nat ->
        part v !! d = Some pd -> part v !! S d = Some pd1 -> pd < pd1 ->
        buf v !! d = Some (Some b) ->
        Runtime.device m' !! b
          = Some (Runtime.slice T written (Z.to_nat pd) (Z.to_nat (pd1 - pd)))).
Proof.
  induction k as [| k IH]; intros d0 cs m Hcs Hk Hin Hbuf Hst.
  - simpl in Hcs. apply Forall2_nil_inv_l in Hcs as ->. exists m. simpl.
    split; [reflexivity |]. split; [reflexivity |]. split; [exact Hbuf |].
    split; [reflexivity |]. intros; lia.
  - cbn [seq] in Hcs. rewrite hits_on_cons in Hcs.
    destruct (part_lookup sizeof_T v Hok d0 ltac:(lia))
      as (pd0 & pd1 & Hd & Hd1 & Hu & Hu1 & Hbytes).
    rewrite (meets_eq _ _ _ _ _ _ Hd Hd1) in Hcs.
    pose proof (part_bounds sizeof_T v n data Hok Hpart _ _ Hd) as Hb0.
    pose proof (part_bounds sizeof_T v n data Hok Hpart _ _ Hd1) as Hb1.
    assert (pd0 <= pd1) as Hmono
      by (destruct Hpart as (_ & _ & Hm); apply (Hm _ _ _ Hd Hd1)).
    set (start := Z.max offset pd0) in *.
    set (stop := Z.min (offset + size) pd1) in *.
    destruct (Z.ltb_spec start stop) as [Hlt | Hge].
    + apply Forall2_cons_inv_l in Hcs as (c & cs' & Hc & Hcs' & ->).
      destruct Hbuf as [Hall Hinj].
      destruct (Hall d0 pd0 pd1 Hd Hd1 ltac:(lia)) as (b & content & Hb & Hdev & Hl).
      destruct (lookup_lt_is_Some_2 (queue v) d0 ltac:(lia)) as [q Hq].
      rewrite (transfer_call_eq _ _ _ _ _ _ _ _ _ _ _ Hq Hb Hd) in Hc.
      inversion Hc as [Ec]. clear Hc.
      pose proof (Hst d0 pd0 pd1 b ltac:(lia) Hd Hd1 ltac:(lia) Hb) as Hold.
      set (new := Runtime.slice T written (Z.to_nat pd0) (Z.to_nat (pd1 - pd0))).
      assert (length new = length content) as Hnew.
      { unfold new. rewrite slice_length; [lia |]. unfold written.
        rewrite length_splice; [lia |]. rewrite slice_length by lia. lia. }
      set (m1 := {| Runtime.device := <[b := new]> (Runtime.device m);
                    Runtime.host := Runtime.host m |}).
      assert (Runtime.exec_transfer T sizeof_T
                (EnqueueWriteBuffer q (Some b) false (sizeof_T * (start - pd0))
                   (sizeof_T * (stop - start))
                   {| block := blk; index := i0 + (start - offset) |}) m
              = Some m1) as Hexec.
      { cbn [Runtime.exec_transfer]. rewrite Hold. simpl mbind. cbn [block index].
        rewrite Hin. simpl mbind.
        rewrite !(bytes_elems sizeof_T v data Hok).
        rewrite decide_True.
        2:{ split; [lia |]. split; [lia |]. rewrite slice_length by lia. lia. }
        unfold m1, new, written. do 3 f_equal.
        rewrite <- (window_hit data src (Z.to_nat offset)
                      (Z.to_nat (Z.min (offset + size) n - offset))
                      (Z.to_nat i0) (Z.to_nat pd0) (Z.to_nat (pd1 - pd0)))
          by lia.
        f_equal; [lia |]. f_equal; lia. }
      destruct (IH (S d0) cs' m1 Hcs' ltac:(lia) Hin)
        as (m' & Hrun & Hhost & Hbuf' & Hframe & Hsl).
      { apply (buffers_ok_update v m b content new);
          [split; assumption | exact Hdev | exact Hnew]. }
      { intros d p p1 b' Hdr Hp Hp1 Hlt' Hb'. unfold m1. cbn [Runtime.device].
        rewrite lookup_insert_ne; [apply (Hst d p p1 b'); try assumption; lia |].
        intros ->. specialize (Hinj _ _ _ Hb Hb'). lia. }
      exists m'. cbn [Runtime.exec_all enqueue_transfer].
      rewrite Hexec. simpl mbind.
      split; [exact Hrun |]. split; [exact Hhost |]. split; [exact Hbuf' |]. split.
      * intros b' Hb'. rewrite Hframe by (intros d Hdr; apply Hb'; lia).
        unfold m1. cbn [Runtime.device]. apply lookup_insert_ne.
        intros ->. apply (Hb' d0); [lia | exact Hb].
      * intros d p p1 b' Hdr Hp Hp1 Hlt' Hb'.
        destruct (decide (d = d0)) as [-> | Hnd].
        -- rewrite Hd in Hp. rewrite Hd1 in Hp1. rewrite Hb in Hb'.
           inversion Hp; inversion Hp1; inversion Hb'; subst p p1 b'.
           rewrite Hframe.
           ++ unfold m1. cbn [Runtime.device]. apply lookup_insert_eq.
           ++ intros d Hdr' Hbd. specialize (Hinj _ _ _ Hbd Hb). lia.
        -- apply (Hsl d p p1 b'); try assumption. lia.
    + destruct (IH (S d0) cs m Hcs ltac:(lia) Hin Hbuf)
        as (m' & Hrun & Hhost & Hbuf' & Hframe & Hsl).
      { intros d p p1 b' Hdr. apply Hst. lia. }
      exists m'. split; [exact Hrun |]. split; [exact Hhost |].
      split; [exact Hbuf' |]. split.
      * intros b' Hb'. apply Hframe. intros d Hdr. apply Hb'. lia.
      * intros d p p1 b' Hdr Hp Hp1 Hlt' Hb'.
        destruct (decide (d = d0)) as [-> | Hnd].
        -- rewrite Hd in Hp. rewrite Hd1 in Hp1.
           inversion Hp; inversion Hp1; subst p p1.
           rewrite Hframe.
           ++ rewrite (Hst d0 pd0 pd1 b' ltac:(lia) Hd Hd1 Hlt' Hb').
              f_equal. unfold written. apply window_miss; lia.
           ++ intros d Hdr' Hbd. destruct Hbuf as [_ Hinj].
              specialize (Hinj _ _ _ Hbd Hb'). lia.
        -- apply (Hsl d p p1 b'); try assumption. lia.
Qed.

(** A blocking [write_data] of a range, run by the runtime. *)
Lemma write_data_range_run (this : addr) (r : runtime) (m : Runtime.memory T) :
  objs r !! this = Some v ->
  offset + size < 2 ^ 32 ->
  buffers_ok v m -> stores v m data ->
  Runtime.host m !! blk = Some src ->
  exists r1 trace st,
    write_data sizeof_T this offset size {| block := blk; index := i0 |} true r
    = Ok tt r1 /\
    calls r1 = calls r ++ trace /\
    Runtime.run_calls T sizeof_T (length (calls r)) trace
      (Runtime.Build_cl_state T m []) = Some st /\
    Runtime.pending st = [] /\
    Runtime.host (Runtime.mem st) = Runtime.host m /\
    buffers_ok v (Runtime.mem st) /\
    stores v (Runtime.mem st)
      (Runtime.splice T data (Z.to_nat offset)
         (Runtime.slice T src (Z.to_nat i0)
            (Z.to_nat (Z.min (offset + size) n - offset)))).
Proof.
  intros Hobj Hend Hbuf Hst Hin.
  assert (is_uint offset) as Huo by (unfold is_uint, uint_modulus; lia).
  assert (is_uint size) as Hus by (unfold is_uint, uint_modulus; lia).
  destruct (transfer_data_run sizeof_T HostToDevice this v offset size
              {| block := blk; index := i0 |} true r Hobj Hok Huo Hus Hend)
    as (cs & r1 & Hrun & Hcalls & Hcs & _).
  pose proof (Forall2_length _ _ _ Hcs) as Hl.
  destruct (exec_writes_range (length (queue v)) 0%nat cs m Hcs ltac:(lia) Hin Hbuf)
    as (m' & Hex & Hhost & Hbuf' & _ & Hsl).
  { intros d pd pd1 b _. apply Hst. }
  exists r1, (cs ++ map EventWait (seq (length (calls r)) (length (hits offset size v)))),
    (Runtime.Build_cl_state T m' []).
  split; [exact Hrun |]. split; [exact Hcalls |]. split.
  { rewrite Hl.
    rewrite run_batch by (eapply transfer_calls_pending; exact Hcs).
    rewrite Hex. reflexivity. }
  split; [reflexivity |]. split; [exact Hhost |]. split; [exact Hbuf' |].
  intros d pd pd1 b Hpd Hpd1 Hlt Hb. apply (Hsl d pd pd1 b); try assumption.
  apply lookup_lt_Some in Hb. destruct Hok as (_ & Hlb & _). lia.
Qed.

(** X23.  On a well-formed vector that holds [data], for a range whose
    end [offset + size] does not wrap around ([offset + size < 2^32]) and
    a host array that holds the elements to write: a blocking
    [write_data] replaces exactly the elements of the vector in the range
    asked for, cut off at the end of the vector, by the host elements
    from the pointer given, in order; every other element of the vector
    and the host arrays are as before. *)
Theorem write_data_range (this : addr) (r : runtime) (m : Runtime.memory T) :
  objs r !! this = Some v ->
  offset + size < 2 ^ 32 ->
  buffers_ok v m -> stores v m data ->
  Runtime.host m !! blk = Some src ->
  exists r1 trace st,
    write_data sizeof_T this offset size {| block := blk; index := i0 |} true r
    = Ok tt r1 /\
    calls r1 = calls r ++ trace /\
    Runtime.run_calls T sizeof_T (length (calls r)) trace
      (Runtime.Build_cl_state T m []) = Some st /\
    Runtime.pending st = [] /\
    Runtime.host (Runtime.mem st) = Runtime.host m /\
    buffers_ok v (Runtime.mem st) /\
    stores v (Runtime.mem st)
      (Runtime.splice T data (Z.to_nat offset)
         (Runtime.slice T src (Z.to_nat i0)
            (Z.to_nat (Z.min (offset + size) n - offset)))).
Proof. exact (write_data_range_run this r m). Qed.

(** X24.  [copy(first, last, result)] from the host to a device range
    inside the vector replaces the elements from [result] on by the host
    elements from [first] up to [last] and returns the device iterator
    past the last element written. *)
Theorem copy_range_writes (this : addr) (r : runtime) (m : Runtime.memory T) :
  objs r !! this = Some v ->
  offset + size <= n ->
  buffers_ok v m -> stores v m data ->
  Runtime.host m !! blk = Some src ->
  exists r1 trace st,
    copy_range_to_device sizeof_T this {| block := blk; index := i0 |}
      {| block := blk; index := i0 + size |} (iterator v offset) true r
    = Ok (iterator v (offset + size)) r1 /\
    calls r1 = calls r ++ trace /\
    Runtime.run_calls T sizeof_T (length (calls r)) trace
      (Runtime.Build_cl_state T m []) = Some st /\
    Runtime.pending st = [] /\
    stores v (Runtime.mem st)
      (Runtime.splice T data (Z.to_nat offset)
         (Runtime.slice T src (Z.to_nat i0) (Z.to_nat size))).
Proof.
  intros Hobj Hin Hbuf Hst Hsrc.
  pose proof (n_is_uint sizeof_T v n Hok Hpart) as [_ Hn].
  unfold uint_modulus in Hn.
  destruct (write_data_range_run this r m Hobj ltac:(lia) Hbuf Hst Hsrc)
    as (r1 & trace & st & Hrun & Hcalls & Hrc & Hp & _ & _ & Hst').
  exists r1, trace, st. split.
  { unfold copy_range_to_device. cbn [index].
    change (pos (iterator v offset)) with offset.
    rewrite (bind_ok _ _ _ _ _ (load_ok _ _ r Hobj)).
    replace (i0 + size - i0) with size by lia.
    rewrite (to_uint_small size) by (unfold is_uint, uint_modulus; lia).
    rewrite (bind_ok _ _ _ _ _ Hrun).
    unfold plus. change (pos (iterator v offset)) with offset.
    rewrite (to_uint_small (offset + size))
      by (unfold is_uint, uint_modulus; lia).
    reflexivity. }
  split; [exact Hcalls |]. split; [exact Hrc |]. split; [exact Hp |].
  replace (Z.to_nat size) with (Z.to_nat (Z.min (offset + size) n - offset))
    by lia.
  exact Hst'.
Qed.

End RangeWrite.

(** Ten elements to be written from position 3 of a vector of five: two
    are written. *)
Lemma write_data_range_witness :
  let r := runtime_init (<[0%nat := uneven_vector]> ∅) in
  exists r1 trace st,
    write_data 4 0 3 10 {| block := 0; index := 1 |} true r = Ok tt r1 /\
    calls r1 = calls r ++ trace /\
    Runtime.run_calls Z 4 (length (calls r)) trace
      (Runtime.Build_cl_state Z write_memory []) = Some st /\
    Runtime.pending st = [] /\
    Runtime.host (Runtime.mem st) = Runtime.host write_memory /\
    buffers_ok uneven_vector (Runtime.mem st) /\
    stores uneven_vector (Runtime.mem st)
      (Runtime.splice Z [10; 20; 30; 40; 50] (Z.to_nat 3)
         (Runtime.slice Z [1; 2; 3; 4; 5; 6] (Z.to_nat 1)
            (Z.to_nat (Z.min (3 + 10) 5 - 3)))).
Proof.
  intros r.
  apply (write_data_range 4 uneven_vector 5 [10; 20; 30; 40; 50]
           uneven_vector_ok uneven_partition_ok eq_refl 3 10
           ltac:(lia) ltac:(lia) 0%nat 1 [1; 2; 3; 4; 5; 6]
           ltac:(lia) ltac:(simpl; lia) 0%nat r write_memory).
  - reflexivity.
  - lia.
  - exact element_memory_buffers_ok.
  - exact element_memory_stores.
  - reflexivity.
Defined.

Lemma copy_range_writes_witness :
  let r := runtime_init (<[0%nat := uneven_vector]> ∅) in
  exists r1 trace st,
    copy_range_to_device 4 0 {| block := 0; index := 0 |}
      {| block := 0; index := 0 + 3 |} (iterator uneven_vector 1) true r
    = Ok (iterator uneven_vector (1 + 3)) r1 /\
    calls r1 = calls r ++ trace /\
    Runtime.run_calls Z 4 (length (calls r)) trace
      (Runtime.Build_cl_state Z write_memory []) = Some st /\
    Runtime.pending st = [] /\
    stores uneven_vector (Runtime.mem st)
      (Runtime.splice Z [10; 20; 30; 40; 50] (Z.to_nat 1)
         (Runtime.slice Z [1; 2; 3; 4; 5; 6] (Z.to_nat 0) (Z.to_nat 3))).
Proof.
  intros r.
  apply (copy_range_writes 4 uneven_vector 5 [10; 20; 30; 40; 50]
           uneven_vector_ok uneven_partition_ok eq_refl 1 3
           ltac:(lia) ltac:(lia) 0%nat 0 [1; 2; 3; 4; 5; 6]
           ltac:(lia) ltac:(simpl; lia) 0%nat r write_memory).
  - reflexivity.
  - lia.
  - exact element_memory_buffers_ok.
  - exact element_memory_stores.
  - reflexivity.
Defined.

(** * The sizes of the parts *)

Section PartSizes.
Variable v : vector.
Variable n : Z.
Hypothesis Hlen : length (part v) = S (length (queue v)).
Hypothesis Hbuf : length (buf v) = length (queue v).
Hypothesis Hpart : partition_ok v n.
Hypothesis Hn : n < 2 ^ 32.

Lemma part_sizes_telescope k : forall d0 a b,
  part v !! d0 = Some a -> part v !! (d0 + k)%nat = Some b ->
  foldr Z.add 0 (map (part_size v) (seq d0 k)) = b - a.
Proof.
  induction k as [| k IH]; intros d0 a b Ha Hb.
  - rewrite Nat.add_0_r in Hb. rewrite Ha in Hb. inversion Hb. simpl. lia.
  - cbn [seq map foldr].
    replace (d0 + S k)%nat with (S d0 + k)%nat in Hb by lia.
    destruct (lookup_lt_is_Some_2 (part v) (S d0)) as [c Hc].
    { apply lookup_lt_Some in Hb. lia. }
    rewrite (IH (S d0) c b Hc Hb).
    unfold part_size. rewrite Hc, Ha.
    pose proof (part_sorted v n Hlen Hbuf Hpart 1 d0 a c Ha
                  ltac:(rewrite Nat.add_1_r; exact Hc)) as Hac.
    assert (0 <= a) as Ha0.
    { destruct Hpart as (H0 & _).
      apply (part_sorted v n Hlen Hbuf Hpart d0 0%nat 0 a H0 Ha). }
    assert (c <= n) as Hcn.
    { apply (part_sorted v n Hlen Hbuf Hpart (length (queue v) - S d0) (S d0) c n Hc).
      assert (S d0 <= length (queue v))%nat
        by (apply lookup_lt_Some in Hc; lia).
      replace (S d0 + (length (queue v) - S d0))%nat with (length (queue v)) by lia.
      apply (part_last v n Hlen Hpart). }
    rewrite to_uint_small by (unfold is_uint, uint_modulus; lia). lia.
Qed.

(** X25.  The parts of a vector with a well-formed partition add up to
    the vector: the sum of [part_size(d)] over the devices is [size()],
    and no part is larger than the vector. *)
Theorem part_sizes_sum :
  foldr Z.add 0 (map (part_size v) (seq 0 (length (queue v)))) = size v /\
  size v = n /\
  (forall d, (d < length (queue v))%nat -> 0 <= part_size v d <= size v).
Proof.
  pose proof (size_is_n v n Hpart) as Hsize.
  destruct Hpart as (H0 & _).
  pose proof (part_last v n Hlen Hpart) as Hlast.
  split; [| split; [exact Hsize |]].
  - rewrite Hsize, (part_sizes_telescope (length (queue v)) 0%nat 0 n H0 Hlast). lia.
  - intros d Hd. rewrite Hsize.
    destruct (lookup_lt_is_Some_2 (part v) d ltac:(lia)) as [a Ha].
    destruct (lookup_lt_is_Some_2 (part v) (S d) ltac:(lia)) as [c Hc].
    pose proof (part_sizes_telescope 1 d a c Ha
                  ltac:(rewrite Nat.add_1_r; exact Hc)) as Hone.
    cbn [seq map foldr] in Hone. rewrite Z.add_0_r in Hone. rewrite Hone.
    pose proof (part_sorted v n Hlen Hbuf Hpart 1 d a c Ha
                  ltac:(rewrite Nat.add_1_r; exact Hc)).
    pose proof (part_sorted v n Hlen Hbuf Hpart d 0%nat 0 a H0 Ha).
    assert (c <= n).
    { apply (part_sorted v n Hlen Hbuf Hpart (length (queue v) - S d) (S d) c n Hc).
      replace (S d + (length (queue v) - S d))%nat with (length (queue v)) by lia.
      exact Hlast. }
    lia.
Qed.

End PartSizes.

Lemma part_sizes_sum_witness :
  foldr Z.add 0 (map (part_size uneven_vector)
                   (seq 0 (length (queue uneven_vector))))
  = size uneven_vector /\
  size uneven_vector = 5 /\
  (forall d, (d < length (queue uneven_vector))%nat ->
             0 <= part_size uneven_vector d <= size uneven_vector).
Proof.
  apply (part_sizes_sum uneven_vector 5);
    first [reflexivity | exact uneven_partition_ok | lia].
Defined.

(** * Further properties of util.hpp, continued *)

(** ** partition_equally never leaves its table *)

Lemma fill_parts_bounded n c : forall count i (part : list Z),
  0 <= n ->
  (i + count < length part)%nat ->
  Forall (fun a => 0 <= a <= n) part ->
  exists part',
    Util.fill_parts n c i count part = Some part' /\
    length part' = length part /\
    Forall (fun a => 0 <= a <= n) part' /\
    part' !! 0%nat = part !! 0%nat.
Proof.
  induction count as [| count IH]; intros i part Hn Hlen Hall.
  - exists part. simpl. auto.
  - simpl.
    destruct (lookup_lt_is_Some_2 part i ltac:(lia)) as [pi Hpi].
    rewrite Hpi. simpl. rewrite vec_set_Some by lia. simpl.
    set (x := Z.min n (to_uint (pi + c))).
    assert (0 <= x <= n) as Hx.
    { unfold x. pose proof (to_uint_range (pi + c)) as [H0 _]. lia. }
    destruct (IH (S i) (<[S i := x]> part) Hn) as (part' & Hrun & Hl & Hall' & H0).
    + rewrite length_insert. lia.
    + apply Forall_insert; assumption.
    + exists part'. split; [exact Hrun |]. rewrite length_insert in Hl.
      split; [exact Hl |]. split; [exact Hall' |].
      rewrite H0. apply list_lookup_insert_ne. lia.
Qed.

(** X26.  Whatever the vector length and even when the 32-bit sums wrap
    around, [partition_equally] stays within its table: for a queue list
    that a [uint] can count it returns [D + 1] boundaries, each between 0
    and [n]; the first one is 0 unless the queue list is empty, when the
    table is the single entry [n]. *)
Theorem partition_equally_in_bounds {CQ} (queue : list CQ) (n : Z) :
  0 <= n < 2 ^ 32 ->
  Z.of_nat (length queue) + 1 < 2 ^ 32 ->
  exists part,
    Util.partition_equally n queue = Some part /\
    length part = S (length queue) /\
    Forall (fun a => 0 <= a <= n) part /\
    (queue <> [] -> part !! 0%nat = Some 0) /\
    (queue = [] -> part = [n]).
Proof.
  intros Hn HD. unfold Util.partition_equally.
  set (D := Z.of_nat (length queue)) in *.
  rewrite (to_uint_small D) by (unfold is_uint, uint_modulus; lia).
  rewrite (to_uint_small (D + 1)) by (unfold is_uint, uint_modulus; lia).
  assert (Z.to_nat (D + 1) = S (length queue)) as -> by (unfold D; lia).
  rewrite vec_set_Some by (rewrite length_replicate; lia). simpl mbind.
  cbn [replicate]. rewrite list_insert_0 || idtac.
  destruct (Z.ltb_spec 1 D) as [Hmany | Hfew].
  - assert (exists chunk, Util.alignup (to_uint (n + D - 1) / D) 16 = Some chunk)
      as [chunk ->].
    { unfold Util.alignup. simpl (16 =? 0).
      destruct (_ mod 16 =? 0); eauto. }
    simpl mbind.
    assert (Z.to_nat D = length queue) as -> by (unfold D; lia).
    destruct (fill_parts_bounded n chunk (length queue) 0%nat
                (<[0%nat := 0]> (0 :: replicate (length queue) 0)))
      as (part & Hrun & Hl & Hall & H0).
    + lia.
    + rewrite length_insert. simpl. rewrite length_replicate. lia.
    + simpl. constructor; [lia |]. apply Forall_replicate. lia.
    + exists part. split; [exact Hrun |]. split.
      * rewrite Hl, length_insert. simpl. rewrite length_replicate. reflexivity.
      * split; [exact Hall |]. split; [intros _; rewrite H0; reflexivity |].
        intros ->. simpl in D. unfold D in Hmany. lia.
  - destruct queue as [| q [| q' queue]]; simpl in D.
    + exists [n]. simpl. split; [reflexivity |]. split; [reflexivity |].
      split; [constructor; [lia | constructor] |].
      split; [intros H; contradiction | reflexivity].
    + exists [0; n]. simpl. split; [reflexivity |]. split; [reflexivity |].
      split; [repeat constructor; lia |].
      split; [reflexivity | discriminate].
    + unfold D in Hfew. simpl in Hfew. lia.
Qed.

Lemma partition_equally_in_bounds_witness :
  exists part,
    Util.partition_equally 4294967295 [tt; tt] = Some part /\
    length part = S (length [tt; tt]) /\
    Forall (fun a => 0 <= a <= 4294967295) part /\
    ([tt; tt] <> [] -> part !! 0%nat = Some 0) /\
    ([tt; tt] = [] -> part = [4294967295]).
Proof.
  apply (partition_equally_in_bounds [tt; tt] 4294967295); simpl; lia.
Defined.

(** ** kernel_workgroup_size does not depend on the order of the devices *)

(** X27.  The result of [kernel_workgroup_size] is the same for every
    order in which the devices are listed, and listing a device twice
    changes nothing: it depends on the set of devices alone. *)
Theorem kernel_workgroup_size_order {Kernel Device : Type}
    (work_group_info : Kernel -> Device -> Z) (kernel : Kernel)
    (device1 device2 : list Device) :
  (forall d, d ∈ device1 <-> d ∈ device2) ->
  Util.kernel_workgroup_size work_group_info kernel device1
  = Util.kernel_workgroup_size work_group_info kernel device2.
Proof.
  intros Hsame.
  destruct (shrink_all_spec work_group_info kernel device1 1024 ltac:(lia))
    as (k1 & Hk1 & Hle1 & Hmax1).
  destruct (shrink_all_spec work_group_info kernel device2 1024 ltac:(lia))
    as (k2 & Hk2 & Hle2 & Hmax2).
  unfold Util.kernel_workgroup_size.
  set (w1 := fold_left _ device1 1024) in *.
  set (w2 := fold_left _ device2 1024) in *.
  assert (w1 <= w2).
  { rewrite Hk1. apply Hmax2. intros d Hd. rewrite <- Hk1.
    apply Hle1, Hsame, Hd. }
  assert (w2 <= w1).
  { rewrite Hk2. apply Hmax1. intros d Hd. rewrite <- Hk2.
    apply Hle2, Hsame, Hd. }
  lia.
Qed.

Lemma kernel_workgroup_size_order_witness :
  Util.kernel_workgroup_size (fun (_ : unit) (d : Z) => d) tt [256; 2048; 512]
  = Util.kernel_workgroup_size (fun (_ : unit) (d : Z) => d) tt [512; 256; 2048; 256].
Proof.
  apply (kernel_workgroup_size_order (fun (_ : unit) (d : Z) => d) tt).
  intros d. rewrite !elem_of_cons, !elem_of_nil. tauto.
Defined.

(** * Iterator arithmetic *)

(** X28.  For a distance that a [ptrdiff_t] holds, [(it + d) - it] is
    [d], also when the position wraps around; and an iterator moved by
    [d] and back by [-d] compares equal to the one it started from. *)
Theorem iterator_plus_minus (v : vector) (it : iterator_type) (d : Z) :
  is_uint (pos it) ->
  - 2 ^ 31 <= d < 2 ^ 31 ->
  minus (plus v it d) it = d /\
  equal (plus v (plus v it d) (- d)) it = true.
Proof.
  intros Hp Hd. unfold minus, plus, equal, iterator. cbn [pos].
  unfold is_uint, uint_modulus in Hp.
  assert (Hmod : to_uint (to_uint (pos it + d) - pos it) = to_uint d).
  { unfold to_uint. rewrite Zminus_mod_idemp_l. f_equal. lia. }
  split.
  - unfold to_ptrdiff. rewrite Hmod. unfold to_uint, uint_modulus.
    destruct (Z_lt_dec d 0) as [Hneg | Hpos].
    + assert (d mod 2 ^ 32 = d + 2 ^ 32) as ->.
      { symmetry. apply (Z.mod_unique d (2 ^ 32) (-1)); lia. }
      destruct (Z.ltb_spec (d + 2 ^ 32) (2 ^ 31)); lia.
    + rewrite Z.mod_small by lia.
      destruct (Z.ltb_spec d (2 ^ 31)); lia.
  - apply Z.eqb_eq. unfold to_uint. rewrite Zplus_mod_idemp_l.
    replace (pos it + d + - d) with (pos it) by lia.
    apply Z.mod_small. unfold uint_modulus. lia.
Qed.

Lemma iterator_plus_minus_witness :
  minus (plus uneven_vector (iterator uneven_vector 4) (-3))
    (iterator uneven_vector 4) = -3 /\
  equal (plus uneven_vector (plus uneven_vector (iterator uneven_vector 4) (-3))
           (- -3)) (iterator uneven_vector 4) = true.
Proof.
  apply (iterator_plus_minus uneven_vector (iterator uneven_vector 4) (-3)).
  - unfold is_uint, uint_modulus. simpl. lia.
  - lia.
Defined.
